(** * Bullet time tracking: durations of nested, timestamped list items

    A shallow embedding of [src/main.ts]: the duration arithmetic, the two
    regular expressions that read a time range off a bullet, the
    construction of the task tree from the stream of list nodes, the
    aggregation of durations, the emission of decorations, and the view
    plugin that keeps the decorations of the current view.

    Conventions of the embedding.
    - A JavaScript string is the list of its UTF-16 code units ([list N]).
    - The numbers the program computes are small integers, for which the
      IEEE doubles of JavaScript are exact; they are integers here ([Z]
      for durations and levels, [nat] for offsets into the document).
    - A [TimedTask] object lives in a store ([list TimedTask]); a reference
      to a task is its index in the store.  The root task is at index 0.
    - [None] as the result of a monadic function ([parseToMinutes],
      [enter], [setTasksDuration], [add], ...) means that the source leaves
      the modelled fragment: it throws, it follows a dangling reference, it
      recurses deeper than the fuel, or it computes a number that is not a
      plain decimal integer.  Where JavaScript's [null] is a value of the
      program it is an explicit inner [option]. *)

From Stdlib Require Import ZArith NArith String Ascii DecimalString Lia.
From Stdlib Require DecimalPos DecimalZ.
From stdpp Require Import list sorting.

Local Open Scope Z_scope.

(** ** Strings *)

(** The code units of an ASCII literal. *)
Definition str (s : string) : list N := N_of_ascii <$> list_ascii_of_string s.

(** [String(z)] for an integer [z]: an optional minus sign and the decimal
    digits. *)
Definition Number_toString (z : Z) : list N :=
  str (NilZero.string_of_int (Z.to_int z)).

Definition is_digit (c : N) : bool := ((48 <=? c) && (c <=? 57))%N.

Definition colon : N := 58%N.

(** [s.split(sep)] for a separator of one code unit. *)
Fixpoint split (sep : N) (s : list N) : list (list N) :=
  match s with
  | [] => [[]]
  | c :: s' =>
      if (c =? sep)%N then [] :: split sep s'
      else match split sep s' with
           | f :: fs => (c :: f) :: fs
           | [] => [[c]]
           end
  end.

Fixpoint digits_value (acc : Z) (s : list N) : option Z :=
  match s with
  | [] => Some acc
  | c :: s' =>
      if is_digit c then digits_value (acc * 10 + Z.of_N (c - 48)) s'
      else None
  end.

(** [Number(s)] on a run of decimal digits (the empty string is 0). *)
Definition Number (s : list N) : option Z := digits_value 0 s.

(** [parseInt(s)] on a string that starts with a decimal digit other than
    a [0x] prefix: the value of the longest run of leading digits. *)
Fixpoint leading_digits (s : list N) : list N :=
  match s with
  | c :: s' => if is_digit c then c :: leading_digits s' else []
  | [] => []
  end.

Definition parseInt (s : list N) : option Z :=
  match s with
  | c :: s' =>
      let hex_prefix :=
        (c =? 48)%N
        && match s' with x :: _ => ((x =? 120) || (x =? 88))%N | [] => false end in
      if is_digit c && negb hex_prefix
      then digits_value 0 (leading_digits s)
      else None
  | [] => None
  end.

(** ** Duration arithmetic *)

Definition parseToMinutes (timeStr : list N) : option Z :=
  match Number <$> split colon timeStr with
  | Some hours :: Some minutes :: _ => Some (hours * 60 + minutes)
  | _ => None
  end.

Record TimeDuration := { hours : Z; minutes : Z }.

(** The arithmetic of the source is that of doubles; it is the arithmetic
    of integers as long as [mins] is at most [2^53 - 1], which holds by a
    wide margin for the durations of clock times (at most 6039 minutes
    each) and their sums over a document.  The properties of
    [sumDurations] on arbitrary durations are stated under that bound. *)
Definition sumDurations (dur1 dur2 : TimeDuration) : TimeDuration :=
  let mins := (hours dur1 + hours dur2) * 60 + minutes dur1 + minutes dur2 in
  {| hours := mins / 60; minutes := Z.rem mins 60 |}.

Definition diffDuration (timeStr1 timeStr2 : list N) : option TimeDuration :=
  minutes1 ← parseToMinutes timeStr1;
  minutes2 ← parseToMinutes timeStr2;
  let difference := Z.abs (minutes2 - minutes1) in
  Some {| hours := difference / 60; minutes := Z.rem difference 60 |}.

Definition formatDuration (duration : TimeDuration) : list N :=
  let minutes := Number_toString (minutes duration) ++ str " mins" in
  if 0 <? hours duration
  then Number_toString (hours duration) ++ str " h " ++ minutes
  else minutes.

(** ** Regular expressions

    The fragment of ECMAScript patterns that the program uses, with the
    backtracking semantics of the language definition: a matcher takes a
    state and a continuation and returns the first success in priority
    order. *)

Inductive regex :=
| Char (p : N → bool)              (* one code unit of a class *)
| Seq (r1 r2 : regex)              (* r1 r2 *)
| Star (greedy : bool) (r : regex) (* r* and r*? *)
| Opt (r : regex)                  (* r? *)
| Group (n : nat) (r : regex)      (* the n-th capturing parentheses *)
| Bol                              (* ^ without the m flag *)
| Eol.                             (* $ without the m flag *)

Declare Scope regex_scope.
Delimit Scope regex_scope with re.
Bind Scope regex_scope with regex.
Infix "⋅" := Seq (at level 60, right associativity) : regex_scope.

Record mstate := {
  endIndex : nat;                       (* offset reached in the input *)
  rest : list N;                        (* the input from that offset on *)
  captures : list (option (list N));    (* slot n: text of group n *)
}.

Abbreviation mk := Build_mstate.

Definition advance (x : mstate) (tl : list N) : mstate :=
  {| endIndex := S (endIndex x); rest := tl; captures := captures x |}.

Definition capture (n : nat) (x y : mstate) : mstate :=
  {| endIndex := endIndex y; rest := rest y;
     captures :=
       <[n := Some (take (endIndex y - endIndex x)%nat (rest x))]> (captures y) |}.

Section repeat.
Variable m : mstate → (mstate → option mstate) → option mstate.
Variable greedy : bool.

(** Zero or more iterations of [m], each of which has to consume input;
    [bound] is at least the length of the remaining input. *)
Fixpoint repeat_matcher (bound : nat) (x : mstate)
    (c : mstate → option mstate) : option mstate :=
  let iterate :=
    match bound with
    | O => None
    | S b =>
        m x (λ y, if (endIndex y =? endIndex x)%nat then None
                  else repeat_matcher b y c)
    end in
  if greedy
  then match iterate with Some z => Some z | None => c x end
  else match c x with Some z => Some z | None => iterate end.
End repeat.

Fixpoint matcher (r : regex) (x : mstate) (c : mstate → option mstate)
    : option mstate :=
  match r with
  | Char p =>
      match rest x with
      | ch :: tl => if p ch then c (advance x tl) else None
      | [] => None
      end
  | Seq r1 r2 => matcher r1 x (λ y, matcher r2 y c)
  | Star greedy r1 => repeat_matcher (matcher r1) greedy (length (rest x)) x c
  | Opt r1 =>
      match matcher r1 x (λ y, if (endIndex y =? endIndex x)%nat then None
                               else c y) with
      | Some z => Some z
      | None => c x
      end
  | Group n r1 => matcher r1 x (λ y, c (capture n x y))
  | Bol => if (endIndex x =? 0)%nat then c x else None
  | Eol => match rest x with [] => c x | _ :: _ => None end
  end.

(** The result of [exec]: the offset of the match and the match array
    (slot 0 is the matched text, slot n the text of group n, [None] for a
    group that did not take part). *)
Record MatchResult := {
  index : nat;
  array : list (option (list N));
}.

(** [rx.exec(s)] and [s.match(rx)] for a pattern [r] with [ngroups]
    groups and no flags: the leftmost offset at which [r] matches. *)
Fixpoint exec_at (r : regex) (ngroups : nat) (i : nat) (s : list N)
    : option MatchResult :=
  match matcher r {| endIndex := i; rest := s;
                     captures := replicate (S ngroups) None |} Some with
  | Some y =>
      Some {| index := i;
              array := <[O := Some (take (endIndex y - i)%nat s)]> (captures y) |}
  | None =>
      match s with
      | [] => None
      | _ :: s' => exec_at r ngroups (S i) s'
      end
  end.

Definition exec (r : regex) (ngroups : nat) (s : list N) : option MatchResult :=
  exec_at r ngroups 0 s.

(** The character classes of the patterns. *)
Definition is_line_terminator (c : N) : bool :=
  ((c =? 10) || (c =? 13) || (c =? 8232) || (c =? 8233))%N.

Definition is_space (c : N) : bool :=
  (((9 <=? c) && (c <=? 13)) || (c =? 32) || (c =? 160) || (c =? 5760)
   || ((8192 <=? c) && (c <=? 8202)) || (c =? 8232) || (c =? 8233)
   || (c =? 8239) || (c =? 8287) || (c =? 12288) || (c =? 65279))%N.

(** [-], EN DASH (U+2013) and EM DASH (U+2014). *)
Definition is_dash (c : N) : bool :=
  ((c =? 45) || (c =? 8211) || (c =? 8212))%N.

Abbreviation digit := (Char is_digit).                          (* \d *)
Abbreviation dot := (Char (λ c, negb (is_line_terminator c))).  (* .  *)
Abbreviation space := (Char is_space).                          (* \s *)
Abbreviation lit c := (Char (N.eqb c)).

Fixpoint lits (s : list N) (r : regex) : regex :=
  match s with
  | [] => r
  | c :: s' => Seq (lit c) (lits s' r)
  end.

(** [\d\d:\d\d] *)
Definition HHMM : regex := (digit ⋅ digit ⋅ lit colon ⋅ digit ⋅ digit)%re.

(** [^.*?(\d\d:\d\d).*?(\d\d:\d\d).*] *)
Definition timeRangeRx : regex :=
  (Bol ⋅ Star false dot ⋅ Group 1 HHMM ⋅ Star false dot ⋅ Group 2 HHMM
   ⋅ Star true dot)%re.

(** [(\d\d:\d\d)(\s*[-–—]\s*\d\d:\d\d)?.*$], the pattern local to
    [buildDecorations]. *)
Definition markRangeRx : regex :=
  (Group 1 HHMM
   ⋅ Opt (Group 2 (Star true space ⋅ Char is_dash ⋅ Star true space ⋅ HHMM))
   ⋅ Star true dot ⋅ Eol)%re.

(** [^list-(\d)] *)
Definition listNodeNameRx : regex := (Bol ⋅ lits (str "list-") (Group 1 digit))%re.

(** [a[n]] of a match array; [undefined] is [None]. *)
Definition item (a : list (option (list N))) (n : nat) : option (list N) :=
  mjoin (a !! n).

(** [a[n]?.length || 0] *)
Definition length_or_0 (o : option (list N)) : nat :=
  match o with Some t => length t | None => O end.

(** ** The line parser *)

(** [bulletNodeDuration]: [Some None] is the [null] of the source. *)
Definition bulletNodeDuration (bulletValue : list N)
    : option (option TimeDuration) :=
  match exec timeRangeRx 2 bulletValue with
  | Some match_ =>
      time1 ← item (array match_) 1;
      time2 ← item (array match_) 2;
      Some <$> diffDuration time1 time2
  | None => Some None
  end.

Record MarkPos := { from : nat; to : nat }.

(** The [markPos] that [buildDecorations] computes for a node starting at
    offset [node_from] with text [bulletValue]. *)
Definition bulletNodeMarkPos (node_from : nat) (bulletValue : list N)
    : option MarkPos :=
  match exec markRangeRx 2 bulletValue with
  | Some timeRangeMatch =>
      if (length (array timeRangeMatch) =? 3)%nat
      then Some {| from := node_from + index timeRangeMatch;
                   to := node_from + index timeRangeMatch
                         + length_or_0 (item (array timeRangeMatch) 1)
                         + length_or_0 (item (array timeRangeMatch) 2) |}
      else None
  | None => None
  end.

(** ** Tasks *)

Record TimedTask := {
  level : Z;
  position : nat;
  markPos : option MarkPos;
  parent : option nat;
  duration : option TimeDuration;
  children : list nat;
}.

(** [rootTask = { level: 0, children: [] }]; its [position], which the
    source leaves undefined, is never read. *)
Definition rootTask : TimedTask :=
  {| level := 0; position := 0; markPos := None; parent := None;
     duration := None; children := [] |}.

(** [task.duration = d] *)
Definition set_duration (d : TimeDuration) (t : TimedTask) : TimedTask :=
  {| level := level t; position := position t; markPos := markPos t;
     parent := parent t; duration := Some d; children := children t |}.

(** [task.children.push(c)] *)
Definition push_child (c : nat) (t : TimedTask) : TimedTask :=
  {| level := level t; position := position t; markPos := markPos t;
     parent := parent t; duration := duration t;
     children := children t ++ [c] |}.

(** [for (const a of l) s = body(s, a)] *)
Fixpoint for_of {S A : Type} (body : S → A → option S) (s : S) (l : list A)
    : option S :=
  match l with
  | [] => Some s
  | a :: l' => s' ← body s a; for_of body s' l'
  end.

(** ** The tree builder *)

Record SyntaxNodeRef := { name : list N; node_from : nat; node_to : nat }.

Definition sliceDoc (doc : list N) (from to : nat) : list N :=
  take (to - from) (drop from doc).

Record BuildState := {
  store : list TimedTask;
  currentParent : option nat;   (* [None]: undefined, above the root *)
}.

Definition initial : BuildState :=
  {| store := [rootTask]; currentParent := Some O |}.

(** [while (currentParent != null && currentParent.level >= currentTaskLevel)
      currentParent = currentParent.parent] *)
Fixpoint pop_parents (fuel : nat) (h : list TimedTask)
    (currentParent : option nat) (currentTaskLevel : Z)
    : option (option nat) :=
  match currentParent with
  | None => Some None
  | Some p =>
      t ← h !! p;
      if currentTaskLevel <=? level t
      then match fuel with
           | O => None
           | S n => pop_parents n h (parent t) currentTaskLevel
           end
      else Some (Some p)
  end.

(** [parseInt(listNodeMatch[1])] for a node of this name; [Some None] when
    the name does not match [listNodeNameRx] and the node is passed over. *)
Definition nodeTaskLevel (name : list N) : option (option Z) :=
  match exec listNodeNameRx 1 name with
  | Some listNodeMatch =>
      depth ← item (array listNodeMatch) 1;
      Some <$> parseInt depth
  | None => Some None
  end.

(** The callback [enter(node)] of the iteration over the syntax tree. *)
Definition enter (doc : list N) (st : BuildState) (node : SyntaxNodeRef)
    : option BuildState :=
  listNodeLevel ← nodeTaskLevel (name node);
  match listNodeLevel with
  | None => Some st
  | Some currentTaskLevel =>
      let endOfLinePosition := node_to node in
      let bulletValue := sliceDoc doc (node_from node) (node_to node) in
      duration ← bulletNodeDuration bulletValue;
      let markPos := bulletNodeMarkPos (node_from node) bulletValue in
      popped ← pop_parents (length (store st)) (store st) (currentParent st)
                 currentTaskLevel;
      p ← popped;
      parentTask ← store st !! p;
      let currentTask :=
        {| level := currentTaskLevel; position := endOfLinePosition;
           markPos := markPos; parent := Some p; duration := duration;
           children := [] |} in
      let r := length (store st) in
      Some {| store := <[p := push_child r parentTask]> (store st) ++ [currentTask];
              currentParent := Some r |}
  end.

(** The two nested loops of [buildDecorations]: over the visible ranges
    and over the nodes that the iteration enters in each. *)
Definition buildTasks (doc : list N) (visibleRanges : list (list SyntaxNodeRef))
    : option BuildState :=
  for_of (for_of (enter doc)) initial visibleRanges.

(** ** The duration aggregator *)

Definition zeroDuration : TimeDuration := {| hours := 0; minutes := 0 |}.

(** The body of the loop of [setTasksDuration]; [recur] is the recursive
    call, [acc] the store and the local variable [duration]. *)
Definition setTasksDuration_body
    (recur : list TimedTask → list nat → option (list TimedTask * TimeDuration))
    (acc : list TimedTask * TimeDuration) (r : nat)
    : option (list TimedTask * TimeDuration) :=
  let '(h, duration') := acc in
  currentTask ← h !! r;
  match duration currentTask with
  | Some d => Some (h, sumDurations duration' d)
  | None =>
      '(h1, d) ← recur h (children currentTask);
      Some (alter (set_duration d) r h1, sumDurations duration' d)
  end.

Fixpoint setTasksDuration (fuel : nat) (h : list TimedTask) (taskList : list nat)
    : option (list TimedTask * TimeDuration) :=
  match fuel with
  | O => None
  | S n => for_of (setTasksDuration_body (setTasksDuration n)) (h, zeroDuration) taskList
  end.

(** ** The annotation emitter *)

Record TimeLengthWidget := { timeText : list N }.

(** SPACE, EM DASH, SPACE, STOPWATCH (U+23F1), VARIATION SELECTOR-16, SPACE *)
Definition label_prefix : list N := [32; 8212; 32; 9201; 65039; 32]%N.

(** The text of the element that [toDOM] creates. *)
Definition toDOM (w : TimeLengthWidget) : list N := label_prefix ++ timeText w.

Inductive Decoration :=
| Decoration_mark (style : list N)
| Decoration_widget (widget : TimeLengthWidget) (side : Z).

Definition mark_style : list N :=
  str "color:#44dddd;font-family:Courier;font-size:11pt;font-weight:600;letter-spacing:-1px;".

(** A range of a range set: the arguments of one call
    [builder.add(from, to, value)]. *)
Record Range := { range_from : nat; range_to : nat; value : Decoration }.

(** *** The range set builder

    [RangeSetBuilder] and the sides of the decorations are code of the
    libraries [@codemirror/state] and [@codemirror/view]; what follows is
    what [add] does there.  A mark decoration that is not inclusive has
    [startSide = 5e8] and [endSide = -6e8]; an inline widget of side [s]
    has both sides [s + 1e8] when [s > 0] and [s - 1e8] otherwise, [s]
    kept within [-10000 .. 10000].  (Only the order of the three sides
    that occur here matters to [add]: the end of a mark is below a widget
    of side 1, which is below the start of a mark.) *)
Definition widget_side (side : Z) : Z :=
  let side := Z.max (-10000) (Z.min 10000 side) in
  side + (if 0 <? side then 100000000 else -100000000).

Definition startSide (value : Decoration) : Z :=
  match value with
  | Decoration_mark _ => 500000000
  | Decoration_widget _ side => widget_side side
  end.

Definition endSide (value : Decoration) : Z :=
  match value with
  | Decoration_mark _ => -600000000
  | Decoration_widget _ side => widget_side side
  end.

(** A builder: the ranges that were added, in the order of the calls, and
    the last range of each layer, that of the builder itself first and
    then those of its [nextLayer]s.  A layer that has no range yet is not
    in the list: it takes whatever range comes. *)
Record RangeSetBuilder := { added : list Range; layers : list Range }.

(** [new RangeSetBuilder()] *)
Definition RangeSetBuilder_new : RangeSetBuilder := {| added := []; layers := [] |}.

(** [addInner], layer by layer:
    [diff = from - lastTo || value.startSide - last.endSide];
    it throws if [diff <= 0] and
    [(from - lastFrom || value.startSide - last.startSide) < 0], hands the
    range to the next layer if [diff < 0], and takes it otherwise. *)
Fixpoint addInner (layers : list Range) (r : Range) : option (list Range) :=
  match layers with
  | [] => Some [r]
  | last :: nextLayer =>
      let diff :=
        if Z.of_nat (range_from r) - Z.of_nat (range_to last) =? 0
        then startSide (value r) - endSide (value last)
        else Z.of_nat (range_from r) - Z.of_nat (range_to last) in
      let order :=
        if Z.of_nat (range_from r) - Z.of_nat (range_from last) =? 0
        then startSide (value r) - startSide (value last)
        else Z.of_nat (range_from r) - Z.of_nat (range_from last) in
      if (diff <=? 0) && (order <? 0) then None
      else if diff <? 0 then (last ::.) <$> addInner nextLayer r
      else Some (r :: nextLayer)
  end.

(** [builder.add(from, to, value)]; [None] when it throws [Ranges must be
    added sorted by `from` position and `startSide`]. *)
Definition add (builder : RangeSetBuilder) (from to : nat) (value : Decoration)
    : option RangeSetBuilder :=
  let r := {| range_from := from; range_to := to; value := value |} in
  layers ← addInner (layers builder) r;
  Some {| added := added builder ++ [r]; layers := layers |}.

(** [builder.finish()]: the range set, as the ranges in the order in which
    they were added. *)
Definition finish (builder : RangeSetBuilder) : list Range := added builder.

Definition is_nonzero (dur : TimeDuration) : bool :=
  negb (hours dur =? 0) || negb (minutes dur =? 0).

(** The body of the loop of [displayDurations]. *)
Definition displayDurations_body
    (recur : RangeSetBuilder → list nat → option RangeSetBuilder)
    (h : list TimedTask) (builder : RangeSetBuilder) (r : nat)
    : option RangeSetBuilder :=
  currentTask ← h !! r;
  let dur := duration currentTask in
  builder ←
    match markPos currentTask with
    | Some markPos =>
        add builder (from markPos) (to markPos) (Decoration_mark mark_style)
    | None => Some builder
    end;
  builder ←
    match dur with
    | Some dur =>
        if is_nonzero dur
        then let durationStr := formatDuration dur in
             add builder (position currentTask) (position currentTask)
               (Decoration_widget {| timeText := durationStr |} 1)
        else Some builder
    | None => Some builder
    end;
  recur builder (children currentTask).

Fixpoint displayDurations (fuel : nat) (h : list TimedTask)
    (builder : RangeSetBuilder) (taskList : list nat) : option RangeSetBuilder :=
  match fuel with
  | O => None
  | S n => for_of (displayDurations_body (displayDurations n h) h) builder taskList
  end.

(** ** [buildDecorations] *)

Definition buildDecorations (doc : list N)
    (visibleRanges : list (list SyntaxNodeRef)) : option (list Range) :=
  st ← buildTasks doc visibleRanges;
  root ← store st !! O;
  '(h, _) ← setTasksDuration (length (store st)) (store st) (children root);
  root ← h !! O;
  builder ← displayDurations (length h) h RangeSetBuilder_new (children root);
  Some (finish builder).

(** ** The view plugin *)

(** Of an [EditorView], what [buildDecorations] reads: the document, and
    for each visible range the nodes that the iteration over the syntax
    tree enters. *)
Record EditorView := {
  view_doc : list N;
  view_visibleRanges : list (list SyntaxNodeRef);
}.

Record ViewUpdate := {
  docChanged : bool;
  viewportChanged : bool;
  update_view : EditorView;
}.

Record TaskTimeDisplayPlugin := { decorations : list Range }.

(** [constructor(view)] *)
Definition TaskTimeDisplayPlugin_new (view : EditorView)
    : option TaskTimeDisplayPlugin :=
  decorations ← buildDecorations (view_doc view) (view_visibleRanges view);
  Some {| decorations := decorations |}.

(** [update(update)] *)
Definition update (this : TaskTimeDisplayPlugin) (update : ViewUpdate)
    : option TaskTimeDisplayPlugin :=
  if docChanged update || viewportChanged update
  then decorations ← buildDecorations (view_doc (update_view update))
                       (view_visibleRanges (update_view update));
       Some {| decorations := decorations |}
  else Some this.

(** * Specification-side definitions

    The notions in which the properties below are stated; none of them is
    used by the embedding above. *)

(** The value of a decimal digit. *)
Definition digit_value (c : N) : Z := Z.of_N (c - 48).

(** [t] is a clock time: exactly two digits, a colon, two digits. *)
Definition clock_time (t : list N) : bool :=
  match t with
  | [a; b; c; d; e] =>
      is_digit a && is_digit b && (c =? colon)%N && is_digit d && is_digit e
  | _ => false
  end.

(** Minutes since midnight of a clock time. *)
Definition toMinutes (t : list N) : Z :=
  match t with
  | [a; b; _; d; e] =>
      (digit_value a * 10 + digit_value b) * 60
      + (digit_value d * 10 + digit_value e)
  | _ => 0
  end.

(** [s] without its prefix [p], when it has that prefix. *)
Fixpoint strip_prefix (p s : list N) : option (list N) :=
  match p, s with
  | [], _ => Some s
  | a :: p', b :: s' => if (a =? b)%N then strip_prefix p' s' else None
  | _ :: _, [] => None
  end.

(** The digit that follows the prefix [list-] of a node name. *)
Definition list_depth (name : list N) : option Z :=
  match strip_prefix (str "list-") name with
  | Some (c :: _) => if is_digit c then Some (digit_value c) else None
  | _ => None
  end.

(** The task that [enter] creates for [node], at level [l], with the parsed
    duration [dur], below the parent [p]. *)
Definition new_task (doc : list N) (node : SyntaxNodeRef) (l : Z)
    (dur : option TimeDuration) (p : nat) : TimedTask :=
  {| level := l; position := node_to node;
     markPos := bulletNodeMarkPos (node_from node)
                  (sliceDoc doc (node_from node) (node_to node));
     parent := Some p; duration := dur; children := [] |}.

(** A line: a text without line terminators. *)
Definition is_line (s : list N) : bool :=
  forallb (λ c, negb (is_line_terminator c)) s.

(** Offset and text of the first clock time in [s]. *)
Fixpoint find_token (s : list N) : option (nat * list N) :=
  if clock_time (take 5 s) then Some (O, take 5 s)
  else match s with
       | [] => None
       | _ :: s' => prod_map S id <$> find_token s'
       end.

(** The first clock time of [s] and the first one after it. *)
Definition two_clock_times (s : list N) : option (list N * list N) :=
  '(i, time1) ← find_token s;
  '(_, time2) ← find_token (drop (i + 5) s);
  Some (time1, time2).

Fixpoint skip_spaces (s : list N) : list N :=
  match s with
  | c :: s' => if is_space c then skip_spaces s' else s
  | [] => []
  end.

(** The text at the start of [s] that consists of optional white space, a
    dash, optional white space and a clock time. *)
Definition dash_and_clock_time (s : list N) : option (list N) :=
  match skip_spaces s with
  | d :: s' =>
      if is_dash d && clock_time (take 5 (skip_spaces s'))
      then Some (take (length s - length (skip_spaces s') + 5) s)
      else None
  | [] => None
  end.

(** [s] contains a clock time that is followed by a dash and a second
    clock time. *)
Fixpoint has_time_range (s : list N) : bool :=
  (clock_time (take 5 s)
   && match dash_and_clock_time (drop 5 s) with Some _ => true | None => false end)
  || match s with
     | [] => false
     | _ :: s' => has_time_range s'
     end.

(** [t'] is [t] but for a duration that was undefined and is defined. *)
Definition fills (t t' : TimedTask) : Prop :=
  level t' = level t ∧ position t' = position t ∧ markPos t' = markPos t
  ∧ parent t' = parent t ∧ children t' = children t
  ∧ (∀ d, duration t = Some d → duration t' = Some d).

(** The task [t] at reference [r] hangs below the nearest task before it
    whose level is strictly smaller. *)
Definition nearest_parent (h : list TimedTask) (r : nat) (t : TimedTask) : Prop :=
  ∃ p tp, parent t = Some p ∧ h !! p = Some tp ∧ (p < r)%nat
          ∧ level tp < level t
          ∧ (∀ q tq, (p < q < r)%nat → h !! q = Some tq → level t ≤ level tq)
          ∧ r ∈ children tp.

(** The stores that the tree builder produces. *)
Record built (st : BuildState) : Prop := {
  built_root :
    ∃ t0, store st !! O = Some t0 ∧ level t0 = 0 ∧ parent t0 = None
          ∧ duration t0 = None;
  built_cursor :
    ∃ c, currentParent st = Some c ∧ S c = length (store st);
  built_children :
    ∀ r t c, store st !! r = Some t → c ∈ children t →
             (r < c < length (store st))%nat;
  built_parent :
    ∀ r t, (0 < r)%nat → store st !! r = Some t → nearest_parent (store st) r t;
  built_duration :
    ∀ r t d, store st !! r = Some t → duration t = Some d →
             0 ≤ hours d ∧ 0 ≤ minutes d ≤ 59;
}.

(** The levels of the tasks that a stream of nodes creates. *)
Definition task_levels (nodes : list SyntaxNodeRef) : list Z :=
  omap (λ node, list_depth (name node)) nodes.

(** The children of every task come after it in the store. *)
Definition forward (h : list TimedTask) : Prop :=
  ∀ r t c, h !! r = Some t → c ∈ children t → (r < c < length h)%nat.

(** The duration of the task at [r], [{0, 0}] if it has none. *)
Definition task_duration (h : list TimedTask) (r : nat) : TimeDuration :=
  match h !! r with
  | Some t => match duration t with Some d => d | None => zeroDuration end
  | None => zeroDuration
  end.

(** The task at [r] has a duration. *)
Definition resolved (h : list TimedTask) (r : nat) : Prop :=
  ∃ t d, h !! r = Some t ∧ duration t = Some d.

Definition duration_minutes (d : TimeDuration) : Z := hours d * 60 + minutes d.

(** Hours and minutes of a number of minutes. *)
Definition normalize (m : Z) : TimeDuration :=
  {| hours := m / 60; minutes := Z.rem m 60 |}.

(** The minutes of the tasks [l], added up. *)
Definition total_minutes (h : list TimedTask) (l : list nat) : Z :=
  foldr (λ r acc, duration_minutes (task_duration h r) + acc) 0 l.

(** The tasks that the aggregation visits: the children of the root, and
    the children of a visited task that has no duration of its own. *)
Inductive visited (h : list TimedTask) : nat → Prop :=
| visited_top root r :
    h !! O = Some root → r ∈ children root → visited h r
| visited_child p t r :
    visited h p → h !! p = Some t → duration t = None → r ∈ children t →
    visited h r.

(** The body of the loop of the pre-order walk. *)
Definition preorder_body (recur : list nat → option (list TimedTask))
    (h : list TimedTask) (acc : list TimedTask) (r : nat)
    : option (list TimedTask) :=
  t ← h !! r;
  sub ← recur (children t);
  Some (acc ++ t :: sub).

(** The tasks of the forest below [l], each before its descendants and
    before its later siblings. *)
Fixpoint preorder (fuel : nat) (h : list TimedTask) (l : list nat)
    : option (list TimedTask) :=
  match fuel with
  | O => None
  | S n => for_of (preorder_body (preorder n h) h) [] l
  end.

(** The instructions of one task: its highlight, then its label. *)
Definition emitted (t : TimedTask) : list Range :=
  match markPos t with
  | Some m => [{| range_from := from m; range_to := to m;
                  value := Decoration_mark mark_style |}]
  | None => []
  end
  ++ match duration t with
     | Some d =>
         if is_nonzero d
         then [{| range_from := position t; range_to := position t;
                  value := Decoration_widget {| timeText := formatDuration d |} 1 |}]
         else []
     | None => []
     end.

(** Anchor and text of an inline label; nothing for a highlight. *)
Definition label (rg : Range) : option (nat * list N) :=
  match value rg with
  | Decoration_widget w _ =>
      if (range_from rg =? range_to rg)%nat then Some (range_from rg, toDOM w)
      else None
  | Decoration_mark _ => None
  end.

(** The label that a task is to get: one at its position, with its
    formatted duration, when it has a duration other than [{0, 0}]. *)
Definition task_label (t : TimedTask) : option (nat * list N) :=
  match duration t with
  | Some d =>
      if decide (hours d = 0 ∧ minutes d = 0) then None
      else Some (position t, label_prefix ++ formatDuration d)
  | None => None
  end.

Fixpoint nondecreasing (l : list nat) : bool :=
  match l with
  | a :: (b :: _) as l' => (a <=? b)%nat && nondecreasing l'
  | _ => true
  end.

(** The offsets of a task in the document: its highlight, if any, lies in
    its line, which ends at its position. *)
Definition offsets (t : TimedTask) : list nat :=
  match markPos t with
  | Some m => [from m; to m; position t]
  | None => [position t]
  end.

(** Tasks in document order: the offsets of each are in order, and those
    of a task come before those of the tasks after it. *)
Definition document_order (ts : list TimedTask) : bool :=
  nondecreasing (ts ≫= offsets).

(** ** A scenario

    An outline of three bullets: [A] with a time range, and below it [B]
    with a time range and [C] without one. *)

Definition scenario_doc : list N :=
  str "09:00-10:00 A" ++ [10%N] ++ str "  09:00-09:30 B" ++ [10%N]
  ++ str "  child no time".

Definition scenario_nodes : list (list SyntaxNodeRef) :=
  [[ {| name := str "list-1"; node_from := 0; node_to := 13 |};
     {| name := str "list-2"; node_from := 16; node_to := 29 |};
     {| name := str "list-2"; node_from := 32; node_to := 45 |} ]]%nat.

(** The store that the tree builder makes of the scenario. *)
Definition scenario_store : list TimedTask :=
  [ {| level := 0; position := 0; markPos := None; parent := None;
       duration := None; children := [1] |};
    {| level := 1; position := 13; markPos := Some {| from := 0; to := 11 |};
       parent := Some 0; duration := Some {| hours := 1; minutes := 0 |};
       children := [2; 3] |};
    {| level := 2; position := 29; markPos := Some {| from := 16; to := 27 |};
       parent := Some 1; duration := Some {| hours := 0; minutes := 30 |};
       children := [] |};
    {| level := 2; position := 45; markPos := None; parent := Some 1;
       duration := None; children := [] |} ]%nat.

Definition scenario_state : BuildState :=
  {| store := scenario_store; currentParent := Some 3%nat |}.

(** A store in which the task [A] has no time range of its own and its
    children have 30 and 15 minutes. *)
Definition outline_store : list TimedTask :=
  [ {| level := 0; position := 0; markPos := None; parent := None;
       duration := None; children := [1] |};
    {| level := 1; position := 1; markPos := None; parent := Some 0;
       duration := None; children := [2; 3] |};
    {| level := 2; position := 17; markPos := Some {| from := 4; to := 15 |};
       parent := Some 1; duration := Some {| hours := 0; minutes := 30 |};
       children := [] |};
    {| level := 2; position := 35; markPos := Some {| from := 20; to := 33 |};
       parent := Some 1; duration := Some {| hours := 0; minutes := 15 |};
       children := [] |} ]%nat.

(** The value of the local variable [duration] after the loop over [l]. *)
Definition summed (h : list TimedTask) (acc : TimeDuration) (l : list nat)
    : TimeDuration :=
  foldl (λ acc r, sumDurations acc (task_duration h r)) acc l.

(** What the aggregation has done between the stores [h] and [h']: every
    duration that it has filled in is the sum of the durations of the
    children, which all have one. *)
Definition justified (h h' : list TimedTask) : Prop :=
  ∀ q t t' x,
    h !! q = Some t → h' !! q = Some t' → duration t = None →
    duration t' = Some x →
    x = summed h' zeroDuration (children t)
    ∧ ∀ c, c ∈ children t → resolved h' c.

Definition unchanged_below (lo : nat) (h h' : list TimedTask) : Prop :=
  ∀ q, (q < lo)%nat → h' !! q = h !! q.

(** No duration in the store is negative. *)
Definition nonnegative (h : list TimedTask) : Prop :=
  ∀ r t d, h !! r = Some t → duration t = Some d → 0 ≤ duration_minutes d.

(** ** What the further properties are stated with *)

(** The nodes that create a task. *)
Definition task_nodes (nodes : list SyntaxNodeRef) : list SyntaxNodeRef :=
  filter (λ node, is_Some (list_depth (name node))) nodes.

(** What a task holds of the node it was created for: its level,
    position, mark range and parsed duration. *)
Definition task_fields (t : TimedTask)
    : Z * nat * option MarkPos * option TimeDuration :=
  (level t, position t, markPos t, duration t).

(** The same four values, read off the node and the document. *)
Definition node_fields (doc : list N) (node : SyntaxNodeRef)
    : option (Z * nat * option MarkPos * option TimeDuration) :=
  let bulletValue := sliceDoc doc (node_from node) (node_to node) in
  l ← list_depth (name node);
  d ← bulletNodeDuration bulletValue;
  Some (l, node_to node, bulletNodeMarkPos (node_from node) bulletValue, d).

(** The text up to its first line terminator. *)
Fixpoint first_line (s : list N) : list N :=
  match s with
  | c :: s' => if is_line_terminator c then [] else c :: first_line s'
  | [] => []
  end.


(** The references of the forest below [l], each before its descendants
    and before its later siblings: the order in which [displayDurations]
    looks the tasks up. *)
Definition preorder_refs_body (recur : list nat → option (list nat))
    (h : list TimedTask) (acc : list nat) (r : nat) : option (list nat) :=
  t ← h !! r;
  sub ← recur (children t);
  Some (acc ++ r :: sub).

Fixpoint preorder_refs (fuel : nat) (h : list TimedTask) (l : list nat)
    : option (list nat) :=
  match fuel with
  | O => None
  | S n => for_of (preorder_refs_body (preorder_refs n h) h) [] l
  end.

(** The tasks below [c] are, in pre-order, all the tasks after [c]. *)
Definition to_end (h : list TimedTask) (c : nat) : Prop :=
  ∃ t, h !! c = Some t
       ∧ preorder_refs (length h - c) h (children t)
         = Some (seq (S c) (length h - S c)).

(** The tasks from [currentParent] up to the root while the tree is built:
    each is the last child of its parent, and has below it all the tasks
    that come after it. *)
Inductive spine (h : list TimedTask) : nat → Prop :=
| spine_root t :
    h !! O = Some t → parent t = None → to_end h O → spine h O
| spine_child c t p tp init :
    h !! c = Some t → parent t = Some p → h !! p = Some tp → (p < c)%nat →
    children tp = init ++ [c] → to_end h c → spine h p → spine h c.

(** Start and end of the nodes that create a task. *)
Definition node_offsets (nodes : list SyntaxNodeRef) : list nat :=
  task_nodes nodes ≫= λ node, [node_from node; node_to node].


(** The text of the document that a node covers. *)
Definition node_text (doc : list N) (node : SyntaxNodeRef) : list N :=
  sliceDoc doc (node_from node) (node_to node).




(** The view after the updates [us] of [view]. *)
Definition view_after (view : EditorView) (us : list ViewUpdate) : EditorView :=
  foldl (λ _ u, update_view u) view us.

(** Every update that changes what [buildDecorations] reads of the view
    says so in [docChanged] or [viewportChanged]. *)
Fixpoint announced (view : EditorView) (us : list ViewUpdate) : Prop :=
  match us with
  | [] => True
  | u :: us' =>
      (docChanged u || viewportChanged u = false → update_view u = view)
      ∧ announced (update_view u) us'
  end.


(** ** A second scenario

    A bullet [Project] without a time range and below it [a], 09:00 to
    10:00, and [b], 10:00 to 10:30. *)
Definition rollup_doc : list N :=
  str "Project" ++ [10%N] ++ str "  09:00-10:00 a" ++ [10%N]
  ++ str "  10:00 - 10:30 b".

Definition rollup_nodes : list (list SyntaxNodeRef) :=
  [[ {| name := str "list-1"; node_from := 0; node_to := 7 |};
     {| name := str "list-2"; node_from := 10; node_to := 23 |};
     {| name := str "list-2"; node_from := 26; node_to := 41 |} ]]%nat.

Definition rollup_store : list TimedTask :=
  [ {| level := 0; position := 0; markPos := None; parent := None;
       duration := None; children := [1] |};
    {| level := 1; position := 7; markPos := None; parent := Some 0;
       duration := None; children := [2; 3] |};
    {| level := 2; position := 23; markPos := Some {| from := 10; to := 21 |};
       parent := Some 1; duration := Some {| hours := 1; minutes := 0 |};
       children := [] |};
    {| level := 2; position := 41; markPos := Some {| from := 26; to := 39 |};
       parent := Some 1; duration := Some {| hours := 0; minutes := 30 |};
       children := [] |} ]%nat.

Definition rollup_state : BuildState :=
  {| store := rollup_store; currentParent := Some 3%nat |}.


(** [Number.MAX_SAFE_INTEGER], [2^53 - 1]: up to it the integers are
    doubles, and sums, products and remainders of non-negative integers
    and the floor of a quotient by 60 are computed exactly as long as the
    results stay below it. *)
Definition MAX_SAFE_INTEGER : Z := 9007199254740991.


(** The ranges [rs] added to [builder], one call of [add] each. *)
Definition add_ranges (builder : RangeSetBuilder) (rs : list Range)
    : option RangeSetBuilder :=
  for_of (λ b r, add b (range_from r) (range_to r) (value r)) builder rs.

(** The range [l] ends where the range [r] starts, or before. *)
Definition precedes (l r : Range) : Prop :=
  (range_from l ≤ range_to l)%nat ∧ (range_to l ≤ range_from r)%nat.

(** The decorations that the emitter makes: marks, and widgets of side 1. *)
Definition emitter_value (r : Range) : Prop :=
  match value r with
  | Decoration_mark _ => True
  | Decoration_widget _ side => side = 1
  end.

(** * Properties *)

(** ** Duration arithmetic *)

Lemma is_digit_range c : is_digit c = true ↔ (48 ≤ c ≤ 57)%N.
Proof. unfold is_digit. rewrite andb_true_iff, !N.leb_le. tauto. Qed.

Lemma is_digit_not_colon c : is_digit c = true → (c =? colon)%N = false.
Proof.
  intros H%is_digit_range. apply N.eqb_neq. unfold colon. lia.
Qed.

Lemma digit_value_range c : is_digit c = true → 0 ≤ digit_value c ≤ 9.
Proof. intros H%is_digit_range. unfold digit_value. lia. Qed.

Lemma clock_time_inv t :
  clock_time t = true →
  ∃ a b d e, t = [a; b; colon; d; e] ∧ is_digit a = true ∧ is_digit b = true
             ∧ is_digit d = true ∧ is_digit e = true.
Proof.
  destruct t as [|a [|b [|c [|d [|e [|? ?]]]]]]; try discriminate. simpl.
  rewrite !andb_true_iff, N.eqb_eq. intros [[[[? ?] ->] ?] ?].
  by exists a, b, d, e.
Qed.

Lemma parseToMinutes_clock_time t :
  clock_time t = true → parseToMinutes t = Some (toMinutes t).
Proof.
  intros (a & b & d & e & -> & Ha & Hb & Hd & He)%clock_time_inv.
  unfold parseToMinutes. cbn [split].
  rewrite (is_digit_not_colon a), (is_digit_not_colon b),
    (is_digit_not_colon d), (is_digit_not_colon e) by done.
  rewrite N.eqb_refl. cbn [fmap list_fmap Number digits_value].
  rewrite Ha, Hb, Hd, He. cbn [toMinutes]. unfold digit_value.
  f_equal; lia.
Qed.

Lemma toMinutes_nonneg t : clock_time t = true → 0 ≤ toMinutes t.
Proof.
  intros (a & b & d & e & -> & Ha & Hb & Hd & He)%clock_time_inv.
  apply digit_value_range in Ha, Hb, Hd, He. cbn [toMinutes]. lia.
Qed.

(** Division by 60 with [Math.floor] and [%] splits a non-negative number
    of minutes into hours and minutes below 60. *)
Lemma normalize_spec (m : Z) :
  0 ≤ m → (m / 60) * 60 + Z.rem m 60 = m ∧ 0 ≤ Z.rem m 60 ≤ 59 ∧ 0 ≤ m / 60.
Proof.
  intros Hm. rewrite Z.rem_mod_nonneg by lia.
  pose proof (Z.div_mod m 60 ltac:(lia)).
  pose proof (Z.mod_pos_bound m 60 ltac:(lia)).
  pose proof (Z.div_pos m 60 Hm ltac:(lia)). lia.
Qed.

Lemma diffDuration_clock_times t1 t2 :
  clock_time t1 = true → clock_time t2 = true →
  diffDuration t1 t2
  = Some {| hours := Z.abs (toMinutes t2 - toMinutes t1) / 60;
            minutes := Z.rem (Z.abs (toMinutes t2 - toMinutes t1)) 60 |}.
Proof.
  intros H1 H2. unfold diffDuration. by rewrite !parseToMinutes_clock_time.
Qed.

(** C7: for clock times [t1] and [t2], [diffDuration t1 t2] is the
    absolute difference of their minute counts, split into hours and
    minutes with the minutes between 0 and 59; hence it is the same in both
    orders, and for an end before the start it is the magnitude of the
    difference, with no wrap past midnight. *)
Theorem diffDuration_spec (t1 t2 : list N) :
  clock_time t1 = true → clock_time t2 = true →
  ∃ d, diffDuration t1 t2 = Some d
       ∧ parseToMinutes t1 = Some (toMinutes t1)
       ∧ parseToMinutes t2 = Some (toMinutes t2)
       ∧ hours d * 60 + minutes d = Z.abs (toMinutes t2 - toMinutes t1)
       ∧ 0 ≤ minutes d ≤ 59
       ∧ diffDuration t2 t1 = Some d
       ∧ (toMinutes t2 < toMinutes t1 →
          hours d * 60 + minutes d = toMinutes t1 - toMinutes t2).
Proof.
  intros H1 H2. rewrite !diffDuration_clock_times by done.
  rewrite !parseToMinutes_clock_time by done.
  eexists. split; [reflexivity|]. cbn [hours minutes].
  destruct (normalize_spec (Z.abs (toMinutes t2 - toMinutes t1)))
    as (Hsum & Hmin & _); [lia|].
  repeat split; try lia.
  by replace (Z.abs (toMinutes t1 - toMinutes t2))
    with (Z.abs (toMinutes t2 - toMinutes t1)) by lia.
Qed.

Lemma diffDuration_spec_witness :
  ∃ d, diffDuration (str "23:00") (str "01:00") = Some d
       ∧ parseToMinutes (str "23:00") = Some (toMinutes (str "23:00"))
       ∧ parseToMinutes (str "01:00") = Some (toMinutes (str "01:00"))
       ∧ hours d * 60 + minutes d
         = Z.abs (toMinutes (str "01:00") - toMinutes (str "23:00"))
       ∧ 0 ≤ minutes d ≤ 59
       ∧ diffDuration (str "01:00") (str "23:00") = Some d
       ∧ (toMinutes (str "01:00") < toMinutes (str "23:00") →
          hours d * 60 + minutes d
          = toMinutes (str "23:00") - toMinutes (str "01:00")).
Proof.
  apply (diffDuration_spec (str "23:00") (str "01:00")); reflexivity.
Defined.

Example parseToMinutes_examples :
  parseToMinutes (str "00:00") = Some 0
  ∧ parseToMinutes (str "01:30") = Some 90
  ∧ parseToMinutes (str "23:59") = Some 1439.
Proof. by vm_compute. Qed.

Example diffDuration_examples :
  diffDuration (str "09:00") (str "10:15") = Some {| hours := 1; minutes := 15 |}
  ∧ diffDuration (str "10:15") (str "09:00") = Some {| hours := 1; minutes := 15 |}
  ∧ diffDuration (str "23:00") (str "01:00") = Some {| hours := 22; minutes := 0 |}.
Proof. by vm_compute. Qed.

(** The sum of two durations with non-negative fields, whose minutes
    together are an integer that doubles hold exactly, has their minutes
    added up, split into hours and minutes below 60; [{1,50}] and [{0,20}]
    give [{2,10}]. *)
Theorem sumDurations_spec (a b : TimeDuration) :
  0 ≤ hours a → 0 ≤ minutes a → 0 ≤ hours b → 0 ≤ minutes b →
  (hours a + hours b) * 60 + minutes a + minutes b ≤ MAX_SAFE_INTEGER →
  hours (sumDurations a b) * 60 + minutes (sumDurations a b)
  = (hours a * 60 + minutes a) + (hours b * 60 + minutes b)
  ∧ 0 ≤ minutes (sumDurations a b) ≤ 59
  ∧ 0 ≤ hours (sumDurations a b)
  ∧ sumDurations {| hours := 1; minutes := 50 |} {| hours := 0; minutes := 20 |}
    = {| hours := 2; minutes := 10 |}.
Proof.
  intros Ha Ha' Hb Hb' _. unfold sumDurations. cbn [hours minutes].
  destruct (normalize_spec ((hours a + hours b) * 60 + minutes a + minutes b))
    as (Hsum & Hmin & Hh); [lia|].
  repeat split; try lia.
Qed.

Lemma sumDurations_spec_witness :
  hours (sumDurations {| hours := 1; minutes := 50 |} {| hours := 0; minutes := 20 |}) * 60
  + minutes (sumDurations {| hours := 1; minutes := 50 |} {| hours := 0; minutes := 20 |})
  = (1 * 60 + 50) + (0 * 60 + 20)
  ∧ 0 ≤ minutes (sumDurations {| hours := 1; minutes := 50 |}
                              {| hours := 0; minutes := 20 |}) ≤ 59
  ∧ 0 ≤ hours (sumDurations {| hours := 1; minutes := 50 |}
                            {| hours := 0; minutes := 20 |})
  ∧ sumDurations {| hours := 1; minutes := 50 |} {| hours := 0; minutes := 20 |}
    = {| hours := 2; minutes := 10 |}.
Proof.
  apply (sumDurations_spec {| hours := 1; minutes := 50 |}
           {| hours := 0; minutes := 20 |}); unfold MAX_SAFE_INTEGER; simpl; lia.
Defined.

(** C8: for a duration with non-negative fields, [formatDuration] is
    ["<minutes> mins"] when the hours are 0 and ["<hours> h <minutes> mins"]
    otherwise; [{0,5}] gives ["5 mins"] and [{2,0}] gives ["2 h 0 mins"]. *)
Theorem formatDuration_spec (d : TimeDuration) :
  0 ≤ hours d → 0 ≤ minutes d →
  (hours d = 0 →
   formatDuration d = Number_toString (minutes d) ++ str " mins")
  ∧ (hours d ≠ 0 →
     formatDuration d
     = Number_toString (hours d) ++ str " h "
       ++ Number_toString (minutes d) ++ str " mins")
  ∧ formatDuration {| hours := 0; minutes := 5 |} = str "5 mins"
  ∧ formatDuration {| hours := 2; minutes := 0 |} = str "2 h 0 mins".
Proof.
  intros Hh Hm. unfold formatDuration at 1 2.
  repeat split.
  - intros ->. reflexivity.
  - intros Hne. destruct (Z.ltb_spec 0 (hours d)); [reflexivity | lia].
Qed.

Lemma formatDuration_spec_witness :
  (hours {| hours := 1; minutes := 15 |} = 0 →
   formatDuration {| hours := 1; minutes := 15 |}
   = Number_toString 15 ++ str " mins")
  ∧ (hours {| hours := 1; minutes := 15 |} ≠ 0 →
     formatDuration {| hours := 1; minutes := 15 |}
     = Number_toString 1 ++ str " h " ++ Number_toString 15 ++ str " mins")
  ∧ formatDuration {| hours := 0; minutes := 5 |} = str "5 mins"
  ∧ formatDuration {| hours := 2; minutes := 0 |} = str "2 h 0 mins".
Proof.
  apply (formatDuration_spec {| hours := 1; minutes := 15 |}); simpl; lia.
Defined.

(** ** The matcher on the building blocks of the patterns *)

Lemma matcher_lits p r i s caps c :
  matcher (lits p r) (mk i s caps) c
  = match strip_prefix p s with
    | Some s' => matcher r (mk (i + length p)%nat s' caps) c
    | None => None
    end.
Proof.
  revert i s. induction p as [|a p IH]; intros i s.
  - simpl. by rewrite Nat.add_0_r.
  - destruct s as [|b s]; [done|]. cbn [lits matcher rest strip_prefix].
    destruct (a =? b)%N; [|done]. unfold advance. cbn [endIndex captures].
    rewrite IH. by replace (S i + length p)%nat with (i + length (a :: p))%nat
      by (simpl; lia).
Qed.

Lemma strip_prefix_Some p s s' : strip_prefix p s = Some s' ↔ s = p ++ s'.
Proof.
  revert s. induction p as [|a p IH]; intros s; simpl.
  - split; congruence.
  - destruct s as [|b s]; [done|]. destruct (N.eqb_spec a b) as [->|Hne].
    + rewrite IH. split; congruence.
    + split; [done | congruence].
Qed.

(** A pattern that starts with [^] matches at offset 0 or nowhere. *)
Lemma exec_at_Bol r n i s : (0 < i)%nat → exec_at (Seq Bol r) n i s = None.
Proof.
  revert i. induction s as [|a s IH]; intros i Hi; cbn [exec_at matcher endIndex];
    destruct i; try lia; cbn [Nat.eqb]; [done|]. apply IH. lia.
Qed.

Lemma exec_Bol r n s :
  exec (Seq Bol r) n s
  = y ← matcher r (mk O s (replicate (S n) None)) Some;
    Some {| index := O; array := <[O := Some (take (endIndex y) s)]> (captures y) |}.
Proof.
  unfold exec. destruct s as [|a s]; cbn [exec_at matcher endIndex Nat.eqb].
  - destruct (matcher r _ Some) as [y|]; [|done]. cbn. by rewrite Nat.sub_0_r.
  - destruct (matcher r _ Some) as [y|]; cbn; [by rewrite Nat.sub_0_r|].
    apply exec_at_Bol. lia.
Qed.

(** ** The level of a list node *)

Lemma nodeTaskLevel_spec name : nodeTaskLevel name = Some (list_depth name).
Proof.
  unfold nodeTaskLevel, listNodeNameRx, list_depth. rewrite exec_Bol, matcher_lits.
  destruct (strip_prefix (str "list-") name) as [[|c tl]|]; try done.
  cbn [matcher rest]. destruct (is_digit c) eqn:Hc; [|done].
  cbn -[is_digit digit_value N.eqb]. rewrite Hc.
  rewrite take_0. cbn -[is_digit digit_value N.eqb]. rewrite Hc.
  by rewrite andb_false_r.
Qed.

(** The two ways in which [enter] returns. *)
Lemma enter_Some doc st node st' :
  enter doc st node = Some st' →
  (list_depth (name node) = None ∧ st' = st)
  ∨ ∃ l dur p tp,
      list_depth (name node) = Some l
      ∧ bulletNodeDuration (sliceDoc doc (node_from node) (node_to node))
        = Some dur
      ∧ pop_parents (length (store st)) (store st) (currentParent st) l
        = Some (Some p)
      ∧ store st !! p = Some tp
      ∧ st' = {| store := <[p := push_child (length (store st)) tp]> (store st)
                          ++ [new_task doc node l dur p];
                 currentParent := Some (length (store st)) |}.
Proof.
  unfold enter. rewrite nodeTaskLevel_spec. cbn [mbind option_bind].
  destruct (list_depth (name node)) as [l|]; [|intros [= <-]; by left].
  intros He. right.
  apply bind_Some in He as (dur & Hdur & He).
  apply bind_Some in He as (popped & Hpop & He).
  apply bind_Some in He as (p & -> & He).
  apply bind_Some in He as (tp & Htp & [= <-]).
  by exists l, dur, p, tp.
Qed.

(** ** The matcher on clock times and on runs of a class *)

Lemma clock_time_length t : clock_time t = true → length t = 5%nat.
Proof. by intros (a & b & d & e & -> & _)%clock_time_inv. Qed.

Lemma clock_time_take_length s :
  clock_time (take 5 s) = true → (5 ≤ length s)%nat.
Proof. intros H%clock_time_length. rewrite length_take in H. lia. Qed.

Lemma matcher_HHMM i s caps c :
  matcher HHMM (mk i s caps) c
  = if clock_time (take 5 s) then c (mk (i + 5)%nat (drop 5 s) caps) else None.
Proof.
  unfold HHMM.
  destruct s as [|a [|b [|k [|d [|e tl]]]]];
    cbn [matcher rest take clock_time advance endIndex captures drop];
    rewrite ?(N.eqb_sym colon);
    repeat match goal with
      | |- context [is_digit ?x] => destruct (is_digit x); cbn [andb]; try done
      | |- context [(?x =? colon)%N] => destruct (x =? colon)%N; cbn [andb]; try done
      end; try done.
  rewrite take_0, drop_0. unfold advance. cbn [endIndex captures].
  by replace (S (S (S (S (S i))))) with (i + 5)%nat by lia.
Qed.

Lemma matcher_Group_HHMM n i s caps c :
  matcher (Group n HHMM) (mk i s caps) c
  = if clock_time (take 5 s)
    then c (mk (i + 5)%nat (drop 5 s) (<[n := Some (take 5 s)]> caps))
    else None.
Proof.
  cbn [matcher]. rewrite matcher_HHMM. destruct (clock_time _); [|done].
  unfold capture. cbn [endIndex rest captures].
  by replace (i + 5 - i)%nat with 5%nat by lia.
Qed.

Section runs.
Variable p : N → bool.
Variable greedy : bool.

Lemma repeat_Char_stop b i s caps c :
  match s with ch :: _ => p ch = false | [] => True end →
  repeat_matcher (matcher (Char p)) greedy b (mk i s caps) c = c (mk i s caps).
Proof.
  intros Hs.
  assert (match b with
          | O => None
          | S b' =>
              matcher (Char p) (mk i s caps)
                (λ y, if (endIndex y =? endIndex (mk i s caps))%nat then None
                      else repeat_matcher (matcher (Char p)) greedy b' y c)
          end = None) as Hit.
  { destruct b; [done|]. cbn [matcher rest]. destruct s; [done|]. by rewrite Hs. }
  destruct b; cbn [repeat_matcher] in *; rewrite ?Hit;
    destruct greedy; by destruct (c _).
Qed.

Lemma repeat_Char_step b i ch tl caps c :
  p ch = true →
  repeat_matcher (matcher (Char p)) greedy (S b) (mk i (ch :: tl) caps) c
  = let iterate :=
      repeat_matcher (matcher (Char p)) greedy b (mk (S i) tl caps) c in
    if greedy
    then match iterate with Some z => Some z | None => c (mk i (ch :: tl) caps) end
    else match c (mk i (ch :: tl) caps) with Some z => Some z | None => iterate end.
Proof.
  intros Hp. cbn [repeat_matcher matcher rest]. rewrite Hp.
  unfold advance. cbn [endIndex captures].
  by rewrite (proj2 (Nat.eqb_neq (S i) i)) by lia.
Qed.
End runs.

Lemma is_line_cons c s :
  is_line (c :: s) = true ↔ is_line_terminator c = false ∧ is_line s = true.
Proof.
  unfold is_line. cbn [forallb]. rewrite andb_true_iff, negb_true_iff. tauto.
Qed.

Lemma is_line_drop k s : is_line s = true → is_line (drop k s) = true.
Proof.
  revert s. induction k as [|k IH]; intros [|c s]; try done.
  intros [_ H]%is_line_cons. by apply IH.
Qed.

(** On a line, a greedy [.*] runs to the end of the text, and the match
    goes on from there if it can. *)
Lemma greedy_dot_line s i caps c z :
  is_line s = true →
  c (mk (i + length s)%nat [] caps) = Some z →
  repeat_matcher (matcher dot) true (length s) (mk i s caps) c = Some z.
Proof.
  revert i. induction s as [|a s IH]; intros i Hs Hc.
  - rewrite repeat_Char_stop by done. by rewrite Nat.add_0_r in Hc.
  - apply is_line_cons in Hs as [Ha Hs]. cbn [length].
    rewrite repeat_Char_step by (by rewrite Ha). cbn zeta.
    rewrite (IH (S i)); [done|done|].
    by replace (S i + length s)%nat with (i + length (a :: s))%nat
      by (simpl; lia).
Qed.

(** A greedy run of a class, before a continuation that fails on that
    class, takes the whole run. *)
Lemma greedy_spaces s i caps c :
  (∀ j ch tl cs, is_space ch = true → c (mk j (ch :: tl) cs) = None) →
  repeat_matcher (matcher space) true (length s) (mk i s caps) c
  = c (mk (i + (length s - length (skip_spaces s)))%nat (skip_spaces s) caps).
Proof.
  intros Hc. revert i. induction s as [|a s IH]; intros i.
  - rewrite repeat_Char_stop by done. by rewrite Nat.add_0_r.
  - cbn [skip_spaces length]. destruct (is_space a) eqn:Ha.
    + rewrite repeat_Char_step by done. cbn zeta. rewrite IH.
      assert (length (skip_spaces s) ≤ length s)%nat as Hle.
      { clear. induction s as [|b s IH]; simpl; [lia|].
        destruct (is_space b); simpl; lia. }
      replace (S i + (length s - length (skip_spaces s)))%nat
        with (i + (S (length s) - length (skip_spaces s)))%nat by lia.
      destruct (c _) eqn:E; [done|]. by rewrite Hc.
    + rewrite repeat_Char_stop by done. cbn [length].
      by rewrite Nat.sub_diag, Nat.add_0_r.
Qed.

Lemma skip_spaces_length s : (length (skip_spaces s) ≤ length s)%nat.
Proof.
  induction s as [|b s IH]; simpl; [lia|]. destruct (is_space b); simpl; lia.
Qed.

Lemma is_space_not_dash c : is_space c = true → is_dash c = false.
Proof.
  unfold is_space, is_dash.
  rewrite !orb_true_iff, !andb_true_iff, !orb_false_iff, !N.leb_le, !N.eqb_eq,
    !N.eqb_neq. lia.
Qed.

Lemma is_space_not_digit c : is_space c = true → is_digit c = false.
Proof.
  unfold is_space, is_digit.
  rewrite !orb_true_iff, !andb_true_iff, andb_false_iff, !N.leb_le, !N.eqb_eq,
    !N.leb_gt. lia.
Qed.

(** ** The first clock time of a text *)

Lemma find_token_Some s k t :
  find_token s = Some (k, t) →
  t = take 5 (drop k s) ∧ clock_time t = true ∧ (k + 5 ≤ length s)%nat.
Proof.
  revert k t. induction s as [|a s IH]; intros k t.
  - cbn [find_token]. destruct (clock_time (take 5 [])) eqn:E; [done|done].
  - cbn [find_token]. destruct (clock_time (take 5 (a :: s))) eqn:E.
    + intros [= <- <-]. split; [done|]. split; [done|].
      by apply clock_time_take_length.
    + destruct (find_token s) as [[k' t']|]; [|done]. intros [= <- <-].
      destruct (IH k' t' eq_refl) as (-> & ? & ?). cbn [drop length]. split; [done|].
      split; [done | lia].
Qed.

(** The clock time that [find_token] returns is the leftmost one. *)
Lemma find_token_first s k t :
  find_token s = Some (k, t) →
  ∀ j, (j < k)%nat → clock_time (take 5 (drop j s)) = false.
Proof.
  revert k t. induction s as [|a s IH]; intros k t.
  - intros _ j _. by rewrite drop_nil.
  - cbn [find_token]. destruct (clock_time (take 5 (a :: s))) eqn:E.
    + intros [= <- <-] j Hj. lia.
    + destruct (find_token s) as [[k' t']|] eqn:Hf; [|done]. intros [= <- <-] j Hj.
      destruct j as [|j]; [done|]. cbn [drop]. apply (IH k' t' eq_refl). lia.
Qed.

Lemma find_token_None s j :
  find_token s = None → clock_time (take 5 (drop j s)) = false.
Proof.
  revert j. induction s as [|a s IH]; intros j.
  - by rewrite drop_nil.
  - cbn [find_token]. destruct (clock_time (take 5 (a :: s))) eqn:E; [done|].
    destruct (find_token s) eqn:Hf; [done|]. intros _.
    destruct j as [|j]; [done|]. by apply IH.
Qed.

Lemma find_token_None_drop s j : find_token s = None → find_token (drop j s) = None.
Proof.
  revert s. induction j as [|j IH]; intros s; [done|].
  destruct s as [|a s]; [done|]. cbn [find_token drop].
  destruct (clock_time (take 5 (a :: s))); [done|].
  destruct (find_token s) eqn:Hf; [done|]. intros _. by apply IH.
Qed.

(** ** The pattern [timeRangeRx] on a line *)

Lemma matcher_Seq r1 r2 x c :
  matcher (r1 ⋅ r2) x c = matcher r1 x (λ y, matcher r2 y c).
Proof. reflexivity. Qed.

Lemma matcher_Star g r i s caps c :
  matcher (Star g r) (mk i s caps) c
  = repeat_matcher (matcher r) g (length s) (mk i s caps) c.
Proof. reflexivity. Qed.

Lemma matcher_second_time s i caps :
  is_line s = true →
  matcher (Star false dot ⋅ Group 2 HHMM ⋅ Star true dot) (mk i s caps) Some
  = '(_, t) ← find_token s;
    Some (mk (i + length s)%nat [] (<[2%nat := Some t]> caps)).
Proof.
  rewrite matcher_Seq, matcher_Star.
  revert i. induction s as [|a s IH]; intros i Hs.
  - rewrite repeat_Char_stop by done. by rewrite matcher_Seq, matcher_Group_HHMM.
  - pose proof Hs as [Ha Hs']%is_line_cons. cbn [length].
    rewrite repeat_Char_step by (by rewrite Ha). cbn zeta.
    rewrite matcher_Seq, matcher_Group_HHMM. cbn [find_token].
    destruct (clock_time (take 5 (a :: s))) eqn:E.
    + cbn [mbind option_bind]. rewrite matcher_Star.
      rewrite (greedy_dot_line _ _ _ _
                 (mk (i + S (length s))%nat [] (<[2%nat := Some (take 5 (a :: s))]> caps)));
        [done | by apply is_line_drop |].
      f_equal. f_equal. apply clock_time_take_length in E.
      rewrite length_drop. cbn [length] in *. lia.
    + rewrite IH by done. destruct (find_token s) as [[k t]|]; [|done].
      cbn. do 2 f_equal. lia.
Qed.

Lemma matcher_two_times s i caps :
  is_line s = true →
  matcher (Star false dot ⋅ Group 1 HHMM ⋅ Star false dot ⋅ Group 2 HHMM
           ⋅ Star true dot) (mk i s caps) Some
  = '(k, t1) ← find_token s;
    '(_, t2) ← find_token (drop (k + 5) s);
    Some (mk (i + length s)%nat []
            (<[2%nat := Some t2]> (<[1%nat := Some t1]> caps))).
Proof.
  rewrite matcher_Seq, matcher_Star.
  revert i. induction s as [|a s IH]; intros i Hs.
  - rewrite repeat_Char_stop by done. by rewrite matcher_Seq, matcher_Group_HHMM.
  - pose proof Hs as [Ha Hs']%is_line_cons. cbn [length].
    rewrite repeat_Char_step by (by rewrite Ha). cbn zeta.
    rewrite matcher_Seq, matcher_Group_HHMM. cbn [find_token].
    destruct (clock_time (take 5 (a :: s))) eqn:E.
    + rewrite matcher_second_time by (by apply is_line_drop).
      cbn [mbind option_bind Nat.add].
      destruct (find_token (drop 5 (a :: s))) as [[k2 t2]|] eqn:Hf.
      * cbn. do 2 f_equal. apply clock_time_take_length in E.
        rewrite length_drop. cbn [length] in *. lia.
      * rewrite IH by done. cbn [drop] in Hf.
        destruct (find_token s) as [[k t1]|]; [|done]. cbn.
        replace (drop (k + 5) s) with (drop (S k) (drop 4 s))
          by (rewrite drop_drop; f_equal; lia).
        by rewrite find_token_None_drop.
    + rewrite IH by done. destruct (find_token s) as [[k t1]|]; [|done].
      cbn. destruct (find_token (drop (k + 5) s)) as [[k2 t2]|]; [|done].
      cbn. do 2 f_equal. lia.
Qed.

Lemma exec_timeRangeRx s :
  is_line s = true →
  exec timeRangeRx 2 s
  = '(t1, t2) ← two_clock_times s;
    Some {| index := O; array := [Some s; Some t1; Some t2] |}.
Proof.
  intros Hs. unfold timeRangeRx. rewrite exec_Bol, matcher_two_times by done.
  unfold two_clock_times.
  destruct (find_token s) as [[k t1]|]; [|done]. cbn.
  destruct (find_token (drop (k + 5) s)) as [[k2 t2]|]; [|done]. cbn.
  by rewrite firstn_all.
Qed.

(** ** The duration of a bullet *)

(** C4: on a line, [bulletNodeDuration] is [null] exactly when the text
    does not contain two clock times; otherwise it is [diffDuration] of
    the first clock time and of the first one after it, in that order.
    A text without times gives [null], not an error. *)
Theorem bulletNodeDuration_spec (s : list N) :
  is_line s = true →
  match two_clock_times s with
  | None => bulletNodeDuration s = Some None
  | Some (time1, time2) =>
      clock_time time1 = true ∧ clock_time time2 = true
      ∧ ∃ d, diffDuration time1 time2 = Some d
             ∧ bulletNodeDuration s = Some (Some d)
  end.
Proof.
  intros Hs. unfold bulletNodeDuration. rewrite exec_timeRangeRx by done.
  destruct (two_clock_times s) as [[t1 t2]|] eqn:Htwo; [|done].
  unfold two_clock_times in Htwo.
  destruct (find_token s) as [[k t1']|] eqn:H1; [|done]. cbn in Htwo.
  destruct (find_token (drop (k + 5) s)) as [[k2 t2']|] eqn:H2; [|done].
  cbn in Htwo. injection Htwo as -> ->.
  apply find_token_Some in H1 as (_ & H1 & _), H2 as (_ & H2 & _).
  split; [done|]. split; [done|]. eexists. split.
  - by apply diffDuration_clock_times.
  - cbn. by rewrite diffDuration_clock_times.
Qed.

Lemma bulletNodeDuration_spec_witness :
  match two_clock_times (str "09:00 - 10:00 Meeting") with
  | None => bulletNodeDuration (str "09:00 - 10:00 Meeting") = Some None
  | Some (time1, time2) =>
      clock_time time1 = true ∧ clock_time time2 = true
      ∧ ∃ d, diffDuration time1 time2 = Some d
             ∧ bulletNodeDuration (str "09:00 - 10:00 Meeting") = Some (Some d)
  end.
Proof.
  apply (bulletNodeDuration_spec (str "09:00 - 10:00 Meeting")). reflexivity.
Defined.

Example bulletNodeDuration_meeting :
  bulletNodeDuration (str "09:00 - 10:00 Meeting")
  = Some (Some {| hours := 1; minutes := 0 |}).
Proof. reflexivity. Qed.

Example bulletNodeDuration_note :
  bulletNodeDuration (str "Just a note") = Some None.
Proof. reflexivity. Qed.

(** [.] does not match a line terminator: two clock times that a LINE
    SEPARATOR (U+2028) parts give no duration. *)
Example bulletNodeDuration_line_separator :
  bulletNodeDuration (str "09:00 -" ++ [8232%N] ++ str "10:00") = Some None.
Proof. reflexivity. Qed.

(** ** The pattern [markRangeRx] on a line *)

Lemma skip_spaces_drop s :
  skip_spaces s = drop (length s - length (skip_spaces s)) s.
Proof.
  induction s as [|a s IH]; [done|]. cbn [skip_spaces]. destruct (is_space a).
  - pose proof (skip_spaces_length s). cbn [length].
    replace (S (length s) - length (skip_spaces s))%nat
      with (S (length s - length (skip_spaces s))) by lia.
    by cbn [drop].
  - by rewrite Nat.sub_diag.
Qed.

Lemma matcher_dot_Eol_line s i caps :
  is_line s = true →
  matcher (Star true dot ⋅ Eol) (mk i s caps) Some
  = Some (mk (i + length s)%nat [] caps).
Proof.
  intros Hs. rewrite matcher_Seq, matcher_Star. by apply greedy_dot_line.
Qed.

Lemma clock_time_not_digit c s : is_digit c = false → clock_time (take 5 (c :: s)) = false.
Proof.
  intros Hc. destruct s as [|b [|k [|d [|e tl]]]]; cbn [take clock_time]; try done.
  by rewrite Hc.
Qed.

Lemma dash_and_clock_time_length s g :
  dash_and_clock_time s = Some g →
  (0 < length g)%nat ∧ (length g ≤ length s)%nat
  ∧ g = take (length g) s.
Proof.
  unfold dash_and_clock_time.
  destruct (skip_spaces s) as [|d s'] eqn:Hs; [done|].
  destruct (is_dash d && clock_time (take 5 (skip_spaces s'))) eqn:E; [|done].
  apply andb_true_iff in E as [_ E%clock_time_take_length].
  intros [= <-].
  pose proof (skip_spaces_length s) as H1. rewrite Hs in H1. cbn [length] in H1.
  pose proof (skip_spaces_length s') as H2.
  rewrite !length_take. split; [lia|]. split; [lia|]. f_equal. lia.
Qed.

Lemma matcher_Group n r x c :
  matcher (Group n r) x c = matcher r x (λ y, c (capture n x y)).
Proof. reflexivity. Qed.

Lemma matcher_Char p i s caps c :
  matcher (Char p) (mk i s caps) c
  = match s with
    | ch :: tl => if p ch then c (mk (S i) tl caps) else None
    | [] => None
    end.
Proof. reflexivity. Qed.

Lemma skip_spaces_app s : ∃ k, s = k ++ skip_spaces s.
Proof.
  induction s as [|a s [k IH]]; [by exists []|]. cbn [skip_spaces].
  destruct (is_space a); [|by exists []]. exists (a :: k). cbn. by f_equal.
Qed.

Lemma matcher_dash_group s i caps c :
  matcher (Group 2 (Star true space ⋅ Char is_dash ⋅ Star true space ⋅ HHMM))
    (mk i s caps) c
  = match dash_and_clock_time s with
    | Some g => c (mk (i + length g)%nat (drop (length g) s)
                     (<[2%nat := Some g]> caps))
    | None => None
    end.
Proof.
  rewrite matcher_Group, matcher_Seq, matcher_Star, greedy_spaces.
  2:{ intros j ch tl cs Hch. rewrite matcher_Seq, matcher_Char.
      by rewrite is_space_not_dash. }
  rewrite matcher_Seq, matcher_Char. unfold dash_and_clock_time.
  destruct (skip_spaces_app s) as [k1 Hk1].
  destruct (skip_spaces s) as [|d s'] eqn:Hs; [done|].
  destruct (is_dash d); [|done]. cbn [andb].
  rewrite matcher_Seq, matcher_Star, greedy_spaces.
  2:{ intros j ch tl cs Hch. rewrite matcher_HHMM.
      by rewrite clock_time_not_digit by (by apply is_space_not_digit). }
  rewrite matcher_HHMM.
  destruct (skip_spaces_app s') as [k2 Hk2].
  destruct (clock_time (take 5 (skip_spaces s'))) eqn:E; [|done].
  apply clock_time_take_length in E.
  remember (skip_spaces s') as s3 eqn:Hs3. clear Hs Hs3. subst s' s.
  unfold capture. cbn [endIndex rest captures].
  rewrite length_take, !length_app. cbn [length]. rewrite !length_app.
  assert (S (i + (length k1 + S (length k2 + length s3)
                  - S (length k2 + length s3)))
          + (length k2 + length s3 - length s3) + 5
          = i + (length k1 + S (length k2 + length s3) - length s3 + 5)
                `min` (length k1 + S (length k2 + length s3)))%nat
    as -> by lia.
  assert (i + (length k1 + S (length k2 + length s3) - length s3 + 5)
                `min` (length k1 + S (length k2 + length s3)) - i
          = length k1 + S (length k2 + length s3) - length s3 + 5)%nat
    as -> by lia.
  assert ((length k1 + S (length k2 + length s3) - length s3 + 5)
            `min` (length k1 + S (length k2 + length s3))
          = length k1 + S (length k2 + length s3) - length s3 + 5)%nat
    as -> by lia.
  f_equal. f_equal.
  replace (k1 ++ d :: k2 ++ s3) with ((k1 ++ d :: k2) ++ s3)
    by (by rewrite <- app_assoc).
  symmetry. apply drop_app_add'. rewrite length_app. cbn [length]. lia.
Qed.

Lemma matcher_Opt r x c :
  matcher (Opt r) x c
  = match matcher r x (λ y, if (endIndex y =? endIndex x)%nat then None else c y) with
    | Some z => Some z
    | None => c x
    end.
Proof. reflexivity. Qed.

Lemma matcher_markRangeRx s i caps :
  is_line s = true →
  matcher markRangeRx (mk i s caps) Some
  = if clock_time (take 5 s)
    then Some (mk (i + length s)%nat []
                 match dash_and_clock_time (drop 5 s) with
                 | Some g => <[2%nat := Some g]> (<[1%nat := Some (take 5 s)]> caps)
                 | None => <[1%nat := Some (take 5 s)]> caps
                 end)
    else None.
Proof.
  intros Hs. unfold markRangeRx. rewrite matcher_Seq, matcher_Group_HHMM.
  destruct (clock_time (take 5 s)) eqn:E; [|done].
  apply clock_time_take_length in E.
  rewrite matcher_Seq, matcher_Opt, matcher_dash_group.
  destruct (dash_and_clock_time (drop 5 s)) as [g|] eqn:Hg; cbn [endIndex].
  - apply dash_and_clock_time_length in Hg as (Hpos & Hle & _).
    rewrite length_drop in Hle.
    rewrite (proj2 (Nat.eqb_neq _ _)) by lia.
    rewrite matcher_dot_Eol_line by (by do 2 apply is_line_drop).
    do 2 f_equal. rewrite !length_drop. lia.
  - rewrite matcher_dot_Eol_line by (by apply is_line_drop).
    do 2 f_equal. rewrite !length_drop. lia.
Qed.

Lemma exec_at_markRangeRx s i :
  is_line s = true →
  exec_at markRangeRx 2 i s
  = '(k, t1) ← find_token s;
    Some {| index := i + k;
            array := [Some (drop k s); Some t1;
                      dash_and_clock_time (drop (k + 5) s)] |}.
Proof.
  revert i. induction s as [|a s IH]; intros i Hs.
  - done.
  - cbn [exec_at find_token]. rewrite matcher_markRangeRx by done.
    destruct (clock_time (take 5 (a :: s))) eqn:E.
    + cbn [mbind option_bind endIndex captures Nat.add drop].
      rewrite Nat.add_0_r. f_equal. f_equal.
      replace (i + length (a :: s) - i)%nat with (length (a :: s)) by lia.
      rewrite firstn_all.
      by destruct (dash_and_clock_time (drop 4 s)).
    + apply is_line_cons in Hs as [_ Hs]. rewrite IH by done.
      destruct (find_token s) as [[k t1]|]; [|done]. cbn.
      do 2 f_equal. lia.
Qed.

Lemma bulletNodeMarkPos_line node_from s :
  is_line s = true →
  bulletNodeMarkPos node_from s
  = '(k, time1) ← find_token s;
    Some {| from := node_from + k;
            to := node_from + k + length time1
                  + length_or_0 (dash_and_clock_time (drop (k + 5) s)) |}.
Proof.
  intros Hs. unfold bulletNodeMarkPos, exec. rewrite exec_at_markRangeRx by done.
  by destruct (find_token s) as [[k t1]|].
Qed.

(** ** The highlight of a bullet *)

(** C2, as the code has it: on a line, a mark range is produced exactly
    when the text contains a clock time; it starts at the first clock
    time and covers that clock time and, when one follows, the group of
    optional white space, a dash, optional white space and a second clock
    time.  A line with a single clock time gets a range over that clock
    time.  ["09:00 - 10:00 Meeting"] gets the range of ["09:00 - 10:00"]. *)
Theorem bulletNodeMarkPos_spec (node_from : nat) (s : list N) :
  is_line s = true →
  bulletNodeMarkPos node_from s
  = match find_token s with
    | Some (k, time1) =>
        Some {| from := node_from + k;
                to := node_from + k + length time1
                      + length_or_0 (dash_and_clock_time (drop (k + 5) s)) |}
    | None => None
    end
  ∧ (is_Some (bulletNodeMarkPos node_from s) ↔
     ∃ k, clock_time (take 5 (drop k s)) = true)
  ∧ bulletNodeMarkPos 0 (str "09:00 - 10:00 Meeting")
    = Some {| from := 0; to := length (str "09:00 - 10:00") |}
  ∧ bulletNodeMarkPos 0 (str "Just a note") = None.
Proof.
  intros Hs. rewrite bulletNodeMarkPos_line by done.
  split; [by destruct (find_token s) as [[k t1]|]|].
  split; [|by split].
  destruct (find_token s) as [[k t1]|] eqn:Hf; cbn.
  - apply find_token_Some in Hf as (-> & Ht & _). split; [by exists k | by eexists].
  - split; [by intros [? ?]|]. intros [k Hk].
    by rewrite (find_token_None _ k Hf) in Hk.
Qed.

Lemma bulletNodeMarkPos_spec_witness :
  bulletNodeMarkPos 7 (str "x 09:00 Meeting")
  = match find_token (str "x 09:00 Meeting") with
    | Some (k, time1) =>
        Some {| from := 7 + k;
                to := 7 + k + length time1
                      + length_or_0 (dash_and_clock_time
                                       (drop (k + 5) (str "x 09:00 Meeting"))) |}
    | None => None
    end
  ∧ (is_Some (bulletNodeMarkPos 7 (str "x 09:00 Meeting")) ↔
     ∃ k, clock_time (take 5 (drop k (str "x 09:00 Meeting"))) = true)
  ∧ bulletNodeMarkPos 0 (str "09:00 - 10:00 Meeting")
    = Some {| from := 0; to := length (str "09:00 - 10:00") |}
  ∧ bulletNodeMarkPos 0 (str "Just a note") = None.
Proof.
  apply (bulletNodeMarkPos_spec 7 (str "x 09:00 Meeting")). reflexivity.
Defined.

(** C2 as the specification words it does not hold: ["09:00 Meeting"]
    contains no clock time followed by a dash and a second clock time, and
    yet it gets a mark range, over ["09:00"]. *)
Lemma bulletNodeMarkPos_single_time :
  is_line (str "09:00 Meeting") = true
  ∧ has_time_range (str "09:00 Meeting") = false
  ∧ two_clock_times (str "09:00 Meeting") = None
  ∧ bulletNodeMarkPos 0 (str "09:00 Meeting") = Some {| from := 0; to := 5 |}
  ∧ ¬ (∀ s, is_line s = true →
         (is_Some (bulletNodeMarkPos 0 s) ↔ has_time_range s = true)).
Proof.
  split; [done|]. split; [done|]. split; [done|]. split; [done|].
  intros H. destruct (H (str "09:00 Meeting") eq_refl) as [H1 _].
  by discriminate H1.
Qed.

(** ** The frame of the aggregation *)

Lemma fills_refl t : fills t t.
Proof. by repeat split. Qed.

Lemma fills_trans t1 t2 t3 : fills t1 t2 → fills t2 t3 → fills t1 t3.
Proof.
  intros (? & ? & ? & ? & ? & H12) (? & ? & ? & ? & ? & H23).
  repeat split; try congruence. intros d Hd. by apply H23, H12.
Qed.

Lemma fills_set_duration t t0 d :
  fills t t0 → duration t = None → fills t (set_duration d t0).
Proof.
  intros (? & ? & ? & ? & ? & _) Hnone. repeat split; try done.
  intros d'. by rewrite Hnone.
Qed.

Lemma Forall2_fills_refl h : Forall2 fills h h.
Proof. apply Forall_Forall2_diag, Forall_forall. intros. apply fills_refl. Qed.

Lemma Forall2_fills_trans h1 h2 h3 :
  Forall2 fills h1 h2 → Forall2 fills h2 h3 → Forall2 fills h1 h3.
Proof.
  intros H12 H23. revert h3 H23.
  induction H12 as [|t1 t2 h1 h2 Ht _ IH]; intros h3 H23; inversion H23; subst;
    constructor; eauto using fills_trans.
Qed.

Lemma Forall2_fills_alter h h0 r t d :
  Forall2 fills h h0 → h !! r = Some t → duration t = None →
  Forall2 fills h (alter (set_duration d) r h0).
Proof.
  intros [Hlen Hfill]%Forall2_same_length_lookup Hr Hnone.
  apply Forall2_same_length_lookup_2; [by rewrite length_alter|].
  intros i x y Hx. destruct (decide (r = i)) as [->|Hne].
  - rewrite list_lookup_alter_eq. destruct (h0 !! i) as [t0|] eqn:H0; [|done].
    intros [= <-]. simplify_eq. apply fills_set_duration; eauto.
  - rewrite list_lookup_alter_ne by done. eauto.
Qed.

Section frame.
Variable recur : list TimedTask → list nat → option (list TimedTask * TimeDuration).
Hypothesis recur_frame :
  ∀ h l h' d, recur h l = Some (h', d) → Forall2 fills h h'.

Lemma setTasksDuration_body_frame h acc r h' d :
  setTasksDuration_body recur (h, acc) r = Some (h', d) → Forall2 fills h h'.
Proof.
  unfold setTasksDuration_body. intros Hb.
  apply bind_Some in Hb as (t & Ht & Hb).
  destruct (duration t) as [x|] eqn:Hd.
  - injection Hb as <- <-. apply Forall2_fills_refl.
  - apply bind_Some in Hb as ([h0 x] & Hrec & [= <- <-]).
    eapply Forall2_fills_alter; eauto.
Qed.

Lemma for_of_frame l h acc h' d :
  for_of (setTasksDuration_body recur) (h, acc) l = Some (h', d) →
  Forall2 fills h h'.
Proof.
  revert h acc. induction l as [|r l IH]; intros h acc; cbn [for_of].
  - intros [= <- <-]. apply Forall2_fills_refl.
  - intros Hb. apply bind_Some in Hb as ([h1 acc1] & Hstep & Hrest).
    eapply Forall2_fills_trans; eauto using setTasksDuration_body_frame.
Qed.
End frame.

Lemma setTasksDuration_fills fuel h l h' d :
  setTasksDuration fuel h l = Some (h', d) → Forall2 fills h h'.
Proof.
  revert h l h' d. induction fuel as [|n IH]; intros h l h' d; [done|].
  cbn [setTasksDuration]. by apply for_of_frame.
Qed.

(** C9: [setTasksDuration] changes nothing but durations that were
    undefined: the store keeps its size, and every task keeps its level,
    position, mark range, parent, children and, if it had one, its
    duration. *)
Theorem setTasksDuration_frame (fuel : nat) (h : list TimedTask)
    (taskList : list nat) (h' : list TimedTask) (d : TimeDuration) :
  setTasksDuration fuel h taskList = Some (h', d) →
  length h' = length h
  ∧ ∀ r t, h !! r = Some t →
      ∃ t', h' !! r = Some t'
            ∧ level t' = level t ∧ position t' = position t
            ∧ markPos t' = markPos t ∧ parent t' = parent t
            ∧ children t' = children t
            ∧ (∀ x, duration t = Some x → duration t' = Some x).
Proof.
  intros [Hlen Hfill]%setTasksDuration_fills%Forall2_same_length_lookup.
  split; [done|]. intros r t Hr.
  destruct (h' !! r) as [t'|] eqn:Hr'.
  - exists t'. split; [done|]. by apply (Hfill r).
  - apply lookup_ge_None in Hr'. apply lookup_lt_Some in Hr. lia.
Qed.

Lemma setTasksDuration_frame_witness :
  length (alter (set_duration {| hours := 0; minutes := 45 |}) 1%nat outline_store)
  = length outline_store
  ∧ ∀ r t, outline_store !! r = Some t →
      ∃ t', alter (set_duration {| hours := 0; minutes := 45 |}) 1%nat outline_store
              !! r = Some t'
            ∧ level t' = level t ∧ position t' = position t
            ∧ markPos t' = markPos t ∧ parent t' = parent t
            ∧ children t' = children t
            ∧ (∀ x, duration t = Some x → duration t' = Some x).
Proof.
  apply (setTasksDuration_frame 4 outline_store [1%nat] _
           {| hours := 0; minutes := 45 |}).
  reflexivity.
Defined.

(** ** The groups of [timeRangeRx] on any text *)

Lemma repeat_Char_captures p g b x c z :
  repeat_matcher (matcher (Char p)) g b x c = Some z →
  ∃ y, captures y = captures x ∧ c y = Some z.
Proof.
  revert x. induction b as [|b IH]; intros x; cbn [repeat_matcher].
  - destruct g; destruct (c x) eqn:E; try done; intros [= <-]; by exists x.
  - cbn [matcher].
    assert (∀ it,
      it = match rest x with
           | [] => None
           | ch :: tl =>
               if p ch
               then if (endIndex (advance x tl) =? endIndex x)%nat then None
                    else repeat_matcher (matcher (Char p)) g b (advance x tl) c
               else None
           end →
      it = Some z → ∃ y, captures y = captures x ∧ c y = Some z) as Hit.
    { intros it -> Hz. destruct (rest x) as [|ch tl]; [done|].
      destruct (p ch); [|done]. destruct (_ =? _)%nat; [done|].
      by apply IH in Hz. }
    destruct g.
    + destruct (match rest x with [] => None | _ :: _ => _ end) eqn:E.
      * intros [= <-]. by eapply Hit.
      * intros Hc. by exists x.
    + destruct (c x) eqn:Ec.
      * intros [= <-]. by exists x.
      * intros Hz. by eapply Hit.
Qed.

Lemma exec_timeRangeRx_groups s m :
  exec timeRangeRx 2 s = Some m →
  ∃ w t1 t2, array m = [Some w; Some t1; Some t2]
             ∧ clock_time t1 = true ∧ clock_time t2 = true.
Proof.
  unfold timeRangeRx. rewrite exec_Bol. intros Hm.
  apply bind_Some in Hm as (z & Hz & [= <-]). cbn [array].
  rewrite matcher_Seq, matcher_Star in Hz.
  apply repeat_Char_captures in Hz as ([i1 s1 c1] & Hc1 & Hz). cbn in Hc1. subst c1.
  rewrite matcher_Seq, matcher_Group_HHMM in Hz.
  destruct (clock_time (take 5 s1)) eqn:E1; [|done].
  rewrite matcher_Seq, matcher_Star in Hz.
  apply repeat_Char_captures in Hz as ([i2 s2 c2] & Hc2 & Hz). cbn in Hc2. subst c2.
  rewrite matcher_Seq, matcher_Group_HHMM in Hz.
  destruct (clock_time (take 5 s2)) eqn:E2; [|done].
  rewrite matcher_Star in Hz.
  apply repeat_Char_captures in Hz as (y & Hy & [= <-]). rewrite Hy. cbn.
  by eexists _, _, _.
Qed.

(** [bulletNodeDuration] returns on every text, with [null] or with a
    duration in hours and minutes below 60. *)
Lemma bulletNodeDuration_total s :
  bulletNodeDuration s = Some None
  ∨ ∃ d, bulletNodeDuration s = Some (Some d)
         ∧ 0 ≤ hours d ∧ 0 ≤ minutes d ≤ 59.
Proof.
  unfold bulletNodeDuration. destruct (exec timeRangeRx 2 s) as [m|] eqn:Hm; [|by left].
  apply exec_timeRangeRx_groups in Hm as (w & t1 & t2 & -> & H1 & H2).
  right. cbn. rewrite diffDuration_clock_times by done. cbn.
  eexists. split; [done|]. cbn.
  destruct (normalize_spec (Z.abs (toMinutes t2 - toMinutes t1))); lia.
Qed.

(** ** Loops *)

Lemma for_of_invariant {S A : Type} (P : S → Prop) (body : S → A → option S) :
  (∀ s a s', P s → body s a = Some s' → P s') →
  ∀ l s s', P s → for_of body s l = Some s' → P s'.
Proof.
  intros Hbody. induction l as [|a l IH]; intros s s' Hs; cbn [for_of].
  - by intros [= <-].
  - intros Hl. apply bind_Some in Hl as (s1 & H1 & Hl). eauto.
Qed.

Lemma for_of_total {S A : Type} (P : S → Prop) (Q : A → Prop)
    (body : S → A → option S) :
  (∀ s a, P s → Q a → ∃ s', body s a = Some s' ∧ P s') →
  ∀ l s, P s → Forall Q l → ∃ s', for_of body s l = Some s' ∧ P s'.
Proof.
  intros Hbody. induction l as [|a l IH]; intros s Hs Hl; cbn [for_of].
  - by exists s.
  - inversion Hl as [|? ? Ha Hl']; subst.
    destruct (Hbody s a Hs Ha) as (s1 & -> & Hs1). cbn. by apply IH.
Qed.

Lemma for_of_app {S A : Type} (body : S → A → option S) l1 l2 s :
  for_of body s (l1 ++ l2) = s' ← for_of body s l1; for_of body s' l2.
Proof.
  revert s. induction l1 as [|a l1 IH]; intros s; [done|]. cbn [for_of app].
  destruct (body s a) as [s1|]; [|done]. cbn. apply IH.
Qed.

(** The loop over the visible ranges is the loop over all their nodes. *)
Lemma buildTasks_concat doc visibleRanges :
  buildTasks doc visibleRanges = for_of (enter doc) initial (concat visibleRanges).
Proof.
  unfold buildTasks. generalize initial.
  induction visibleRanges as [|l ls IH]; intros st; [done|].
  cbn [for_of concat]. rewrite for_of_app.
  destruct (for_of (enter doc) st l) as [st1|]; [|done]. cbn. apply IH.
Qed.

(** ** The tree builder *)

Lemma built_initial : built initial.
Proof.
  split.
  - by exists rootTask.
  - by exists O.
  - intros [|r] t c; [|done]. intros [= <-]. cbn. by intros ?%elem_of_nil.
  - intros [|r] t Hr; [lia|done].
  - intros [|r] t d; [|done]. by intros [= <-].
Qed.

Lemma pop_parents_None fuel h l : pop_parents fuel h None l = Some None.
Proof. by destruct fuel. Qed.

Lemma pop_parents_Some fuel h c l :
  pop_parents fuel h (Some c) l
  = t ← h !! c;
    if l <=? level t
    then match fuel with
         | O => None
         | S n => pop_parents n h (parent t) l
         end
    else Some (Some c).
Proof. by destruct fuel. Qed.

(** The walk up the parents stops at the nearest task of a smaller
    level, if it stops at a task. *)
Lemma pop_parents_nearest h l n :
  (∀ t0, h !! O = Some t0 → parent t0 = None) →
  (∀ r t, (0 < r)%nat → h !! r = Some t → nearest_parent h r t) →
  ∀ fuel c p,
    pop_parents fuel h (Some c) l = Some (Some p) →
    (∀ q tq, (c < q < n)%nat → h !! q = Some tq → l ≤ level tq) →
    (p ≤ c)%nat
    ∧ ∃ tp, h !! p = Some tp ∧ level tp < l
            ∧ ∀ q tq, (p < q < n)%nat → h !! q = Some tq → l ≤ level tq.
Proof.
  intros Hroot Hpar. induction fuel as [|fuel IH]; intros c p;
    rewrite pop_parents_Some; intros Hpop Habove;
    apply bind_Some in Hpop as (t & Ht & Hpop);
    destruct (Z.leb_spec l (level t)) as [Hle|Hlt]; try done;
    try (injection Hpop as <-; split; [lia|]; by exists t).
  destruct c as [|c].
  { rewrite (Hroot t Ht), pop_parents_None in Hpop. done. }
  destruct (Hpar (S c) t ltac:(lia) Ht)
    as (p' & tp & Hp' & Htp & Hlt' & Hlev & Hnear & _).
  rewrite Hp' in Hpop.
  destruct (IH p' p Hpop) as (Hle' & tp' & ? & ? & ?).
  - intros q tq Hq Htq. destruct (decide (q = S c)) as [->|Hne];
      [by simplify_eq|].
    destruct (decide (q < S c)%nat).
    + etrans; [exact Hle|]. apply (Hnear q); [lia|done].
    + apply (Habove q); [lia|done].
  - split; [lia|]. by exists tp'.
Qed.

(** Below a task of level at least 1 the walk stops at a task. *)
Lemma pop_parents_total h l :
  (∃ t0, h !! O = Some t0 ∧ level t0 = 0) →
  (∀ r t, (0 < r)%nat → h !! r = Some t → nearest_parent h r t) →
  1 ≤ l →
  ∀ fuel c, (c < length h)%nat → (c < fuel)%nat →
    ∃ p, pop_parents fuel h (Some c) l = Some (Some p).
Proof.
  intros (t0 & Ht0 & Hl0) Hpar Hl. induction fuel as [|fuel IH]; intros c Hc Hf;
    [lia|].
  rewrite pop_parents_Some. destruct (lookup_lt_is_Some_2 h c Hc) as [t Ht].
  rewrite Ht. cbn. destruct (Z.leb_spec l (level t)) as [Hle|Hlt]; [|by eexists].
  destruct c as [|c]; [simplify_eq; lia|].
  destruct (Hpar (S c) t ltac:(lia) Ht) as (p' & tp & -> & Htp & Hlt' & _).
  apply IH; [|lia]. by eapply lookup_lt_Some.
Qed.

Section new_task.
Variables (h : list TimedTask) (p : nat) (tp new : TimedTask).
Hypothesis Hp : h !! p = Some tp.

Local Abbreviation h' := (<[p := push_child (length h) tp]> h ++ [new]).

Lemma new_store_length : length h' = S (length h).
Proof. rewrite length_app, length_insert. simpl. lia. Qed.

Lemma new_store_last : h' !! length h = Some new.
Proof.
  rewrite lookup_app_r by (by rewrite length_insert).
  by rewrite length_insert, Nat.sub_diag.
Qed.

Lemma new_store_old r t' :
  (r < length h)%nat → h' !! r = Some t' →
  ∃ t, h !! r = Some t
       ∧ level t' = level t ∧ position t' = position t
       ∧ markPos t' = markPos t ∧ parent t' = parent t
       ∧ duration t' = duration t
       ∧ (children t' = children t
          ∨ r = p ∧ children t' = children t ++ [length h]).
Proof.
  intros Hr. rewrite lookup_app_l by (by rewrite length_insert).
  destruct (decide (p = r)) as [->|Hne].
  - rewrite list_lookup_insert_eq by done. intros [= <-].
    exists tp. repeat split; try done. by right.
  - rewrite list_lookup_insert_ne by done. intros Ht.
    exists t'. repeat split; try done. by left.
Qed.

Lemma new_store_old_2 r t :
  h !! r = Some t →
  ∃ t', h' !! r = Some t' ∧ level t' = level t ∧ parent t' = parent t
        ∧ ∀ c, c ∈ children t → c ∈ children t'.
Proof.
  intros Ht. pose proof (lookup_lt_Some _ _ _ Ht) as Hr.
  destruct (lookup_lt_is_Some_2 h' r) as [t' Ht'];
    [rewrite new_store_length; lia|].
  exists t'. split; [done|].
  destruct (new_store_old r t' Hr Ht') as (t2 & Ht2 & ? & ? & ? & ? & ? & Hch).
  simplify_eq. split; [done|]. split; [done|].
  intros c Hc. destruct Hch as [->| [_ ->]]; [done|].
  apply elem_of_app. by left.
Qed.

Lemma new_store_p :
  ∃ tp', h' !! p = Some tp' ∧ level tp' = level tp
         ∧ length h ∈ children tp'.
Proof.
  pose proof (lookup_lt_Some _ _ _ Hp) as Hlt.
  exists (push_child (length h) tp).
  rewrite lookup_app_l by (by rewrite length_insert).
  rewrite list_lookup_insert_eq by done. split; [done|]. split; [done|].
  cbn. apply elem_of_app. right. by apply list_elem_of_singleton.
Qed.
End new_task.

Lemma enter_built doc st node st' :
  built st → enter doc st node = Some st' → built st'.
Proof.
  intros Hb [[_ ->]|He]%enter_Some; [done|].
  destruct He as (l & dur & p & tp & Hl & Hdur & Hpop & Hp & ->).
  destruct Hb as [(t0 & Ht0 & Hl0 & Hp0 & Hd0) (c & Hc & Hclen) Hch Hpar Hdurs].
  rewrite Hc in Hpop.
  destruct (pop_parents_nearest (store st) l (length (store st))
              ltac:(intros; by simplify_eq) Hpar _ _ _ Hpop)
    as (Hpc & tp' & Htp' & Hlt & Hnear); [intros; lia|].
  simplify_eq.
  pose proof (lookup_lt_Some _ _ _ Hp) as Hplt.
  split; cbn [store currentParent].
  - destruct (new_store_old_2 _ _ _ (new_task doc node l dur p) Hp O t0 Ht0)
      as (t0' & Ht0' & ? & ? & _).
    exists t0'. split; [done|]. split; [congruence|]. split; [congruence|].
    destruct (new_store_old _ _ _ (new_task doc node l dur p) Hp O t0'
                ltac:(lia) Ht0') as (? & ? & _ & _ & _ & _ & ? & _).
    simplify_eq. congruence.
  - eexists. split; [done|]. by rewrite new_store_length.
  - intros r t ch Hr Hin. rewrite new_store_length by done.
    destruct (decide (r < length (store st))%nat) as [Hlt'|Hge].
    + destruct (new_store_old _ _ _ _ Hp r t Hlt' Hr)
        as (t2 & Ht2 & _ & _ & _ & _ & _ & Hchil).
      destruct Hchil as [Heq|[-> Heq]]; rewrite Heq in Hin.
      * specialize (Hch r t2 ch Ht2 Hin). lia.
      * apply elem_of_app in Hin as [Hin|Hin%list_elem_of_singleton].
        -- specialize (Hch p t2 ch Ht2 Hin). lia.
        -- lia.
    + apply lookup_lt_Some in Hr as Hr'. rewrite new_store_length in Hr' by done.
      assert (r = length (store st)) as -> by lia.
      rewrite new_store_last in Hr by done. injection Hr as <-.
      by apply elem_of_nil in Hin.
  - intros r t Hpos Hr.
    destruct (decide (r < length (store st))%nat) as [Hlt'|Hge].
    + destruct (new_store_old _ _ _ _ Hp r t Hlt' Hr)
        as (t2 & Ht2 & Hlev & _ & _ & Hpa & _ & _).
      destruct (Hpar r t2 Hpos Ht2) as (q & tq & Hq & Htq & Hqr & Hql & Hqn & Hqc).
      destruct (new_store_old_2 _ _ _ (new_task doc node l dur p) Hp q tq Htq)
        as (tq' & Htq' & Hlq & _ & Hsub).
      exists q, tq'. split; [congruence|]. split; [done|]. split; [done|].
      split; [congruence|]. split; [|by apply Hsub].
      intros x tx Hx Htx.
      destruct (new_store_old _ _ _ _ Hp x tx ltac:(lia) Htx)
        as (tx2 & Htx2 & Hlx & _).
      rewrite Hlev, Hlx. by apply (Hqn x).
    + apply lookup_lt_Some in Hr as Hr'. rewrite new_store_length in Hr' by done.
      assert (r = length (store st)) as -> by lia.
      rewrite new_store_last in Hr by done. injection Hr as <-.
      destruct (new_store_p _ _ _ (new_task doc node l dur p) Hp)
        as (tp2 & Htp2 & Hlp & Hin).
      exists p, tp2. split; [done|]. split; [done|]. split; [done|].
      split; [cbn; lia|]. split; [|done].
      intros x tx Hx Htx.
      destruct (new_store_old _ _ _ _ Hp x tx ltac:(lia) Htx)
        as (tx2 & Htx2 & Hlx & _).
      rewrite Hlx. cbn. by apply (Hnear x).
  - intros r t d Hr Hd.
    destruct (decide (r < length (store st))%nat) as [Hlt'|Hge].
    + destruct (new_store_old _ _ _ _ Hp r t Hlt' Hr)
        as (t2 & Ht2 & _ & _ & _ & _ & Hdu & _).
      apply (Hdurs r t2 d Ht2). congruence.
    + apply lookup_lt_Some in Hr as Hr'. rewrite new_store_length in Hr' by done.
      assert (r = length (store st)) as -> by lia.
      rewrite new_store_last in Hr by done. injection Hr as <-.
      cbn in Hd. subst dur.
      destruct (bulletNodeDuration_total
                  (sliceDoc doc (node_from node) (node_to node)))
        as [Hn|(d' & Hd' & ?)]; [congruence|].
      by simplify_eq.
Qed.

Lemma enter_levels doc st node st' :
  enter doc st node = Some st' →
  level <$> store st'
  = (level <$> store st) ++ option_list (list_depth (name node)).
Proof.
  intros [[-> ->]|He]%enter_Some; [by rewrite app_nil_r|].
  destruct He as (l & dur & p & tp & -> & _ & _ & Hp & ->). cbn [store].
  rewrite fmap_app, list_fmap_insert. cbn [level push_child].
  f_equal. apply list_insert_id. by rewrite list_lookup_fmap, Hp.
Qed.

Lemma for_of_enter_levels doc nodes st st' :
  for_of (enter doc) st nodes = Some st' →
  level <$> store st' = (level <$> store st) ++ task_levels nodes.
Proof.
  revert st. induction nodes as [|node nodes IH]; intros st; cbn [for_of].
  - intros [= <-]. by rewrite app_nil_r.
  - intros H. apply bind_Some in H as (st1 & H1 & H).
    rewrite (IH _ H), (enter_levels _ _ _ _ H1), <- app_assoc. f_equal.
    unfold task_levels. cbn [omap list_omap].
    by destruct (list_depth (name node)).
Qed.

Lemma enter_total doc st node :
  built st → (∀ l, list_depth (name node) = Some l → 1 ≤ l) →
  ∃ st', enter doc st node = Some st' ∧ built st'.
Proof.
  intros Hb Hl.
  enough (∃ st', enter doc st node = Some st') as [st' Hst']
    by (exists st'; eauto using enter_built).
  unfold enter. rewrite nodeTaskLevel_spec. cbn [mbind option_bind].
  destruct (list_depth (name node)) as [l|]; [|by eexists].
  specialize (Hl l eq_refl).
  destruct Hb as [(t0 & Ht0 & Hl0 & Hp0 & _) (c & Hc & Hclen) _ Hpar _].
  assert (∃ dur, bulletNodeDuration
                   (sliceDoc doc (node_from node) (node_to node)) = Some dur)
    as [dur ->].
  { destruct (bulletNodeDuration_total
                (sliceDoc doc (node_from node) (node_to node)))
      as [?|(d & ? & _)]; by eexists. }
  cbn [mbind option_bind]. rewrite Hc.
  destruct (pop_parents_total (store st) l ltac:(by exists t0) Hpar Hl
              (length (store st)) c ltac:(lia) ltac:(lia)) as [p Hpop].
  rewrite Hpop. cbn [mbind option_bind].
  destruct (pop_parents_nearest (store st) l (length (store st))
              ltac:(intros; by simplify_eq) Hpar _ _ _ Hpop)
    as (_ & tp & -> & _); [intros; lia|].
  by eexists.
Qed.

(** C3: for a stream of nodes whose levels are all at least 1 the tree
    builder returns; the tasks are stored in the order of the stream,
    after the root of level 0; every task has a parent, whose level is
    strictly smaller than its own, which is the nearest task before it in
    the stream (or the root) with that property, and in whose list of
    children the task is. *)
Theorem buildTasks_nearest_parent (doc : list N)
    (visibleRanges : list (list SyntaxNodeRef)) :
  forallb (Z.leb 1) (task_levels (concat visibleRanges)) = true →
  ∃ st, buildTasks doc visibleRanges = Some st
        ∧ level <$> store st = 0 :: task_levels (concat visibleRanges)
        ∧ ∀ r t, (0 < r)%nat → store st !! r = Some t →
            ∃ p tp, parent t = Some p ∧ store st !! p = Some tp
                    ∧ (p < r)%nat ∧ level tp < level t
                    ∧ (∀ q tq, (p < q < r)%nat → store st !! q = Some tq →
                               level t ≤ level tq)
                    ∧ r ∈ children tp.
Proof.
  intros Hlev. rewrite buildTasks_concat.
  destruct (for_of_total built
              (λ node, ∀ l, list_depth (name node) = Some l → 1 ≤ l)
              (enter doc) (enter_total doc) (concat visibleRanges) initial
              built_initial) as (st & Hst & Hb).
  { apply Forall_forall. intros node Hin l Hl.
    rewrite forallb_forall in Hlev. apply Z.leb_le, Hlev.
    apply list_elem_of_In. unfold task_levels. apply list_elem_of_omap. eauto. }
  exists st. split; [done|]. split.
  - by rewrite (for_of_enter_levels _ _ _ _ Hst).
  - intros r t Hr Ht. by apply (built_parent _ Hb).
Qed.

Lemma buildTasks_nearest_parent_witness :
  ∃ st, buildTasks scenario_doc scenario_nodes = Some st
        ∧ level <$> store st = 0 :: task_levels (concat scenario_nodes)
        ∧ ∀ r t, (0 < r)%nat → store st !! r = Some t →
            ∃ p tp, parent t = Some p ∧ store st !! p = Some tp
                    ∧ (p < r)%nat ∧ level tp < level t
                    ∧ (∀ q tq, (p < q < r)%nat → store st !! q = Some tq →
                               level t ≤ level tq)
                    ∧ r ∈ children tp.
Proof.
  apply (buildTasks_nearest_parent scenario_doc scenario_nodes). reflexivity.
Defined.

(** ** The aggregation on a store whose children point forward *)

Lemma forward_fills h h' : Forall2 fills h h' → forward h → forward h'.
Proof.
  intros [Hlen Hfill]%Forall2_same_length_lookup Hfw r t' c Hr Hc.
  destruct (lookup_lt_is_Some_2 h r) as [t Ht];
    [rewrite Hlen; by eapply lookup_lt_Some|].
  destruct (Hfill r t t' Ht Hr) as (_ & _ & _ & _ & Hch & _).
  rewrite Hch in Hc. rewrite <- Hlen. by eapply Hfw.
Qed.

Lemma fills_task_duration h h' r :
  Forall2 fills h h' → resolved h r → task_duration h' r = task_duration h r.
Proof.
  intros [Hlen Hfill]%Forall2_same_length_lookup (t & d & Ht & Hd).
  destruct (lookup_lt_is_Some_2 h' r) as [t' Ht'];
    [rewrite <- Hlen; by eapply lookup_lt_Some|].
  destruct (Hfill r t t' Ht Ht') as (_ & _ & _ & _ & _ & Hdur).
  unfold task_duration. by rewrite Ht, Ht', Hd, (Hdur d Hd).
Qed.

Lemma fills_resolved h h' r : Forall2 fills h h' → resolved h r → resolved h' r.
Proof.
  intros [Hlen Hfill]%Forall2_same_length_lookup (t & d & Ht & Hd).
  destruct (lookup_lt_is_Some_2 h' r) as [t' Ht'];
    [rewrite <- Hlen; by eapply lookup_lt_Some|].
  destruct (Hfill r t t' Ht Ht') as (_ & _ & _ & _ & _ & Hdur).
  exists t', d. eauto.
Qed.

Lemma summed_ext h1 h2 acc l :
  (∀ r, r ∈ l → task_duration h2 r = task_duration h1 r) →
  summed h2 acc l = summed h1 acc l.
Proof.
  revert acc. induction l as [|r l IH]; intros acc Hl; [done|]. cbn.
  rewrite Hl by (by left). apply IH. intros r' Hr'. apply Hl. by right.
Qed.

Lemma task_duration_alter_ne f h r c :
  c ≠ r → task_duration (alter f r h) c = task_duration h c.
Proof. intros Hne. unfold task_duration. by rewrite list_lookup_alter_ne. Qed.

Lemma resolved_alter_ne f h r c : c ≠ r → resolved h c → resolved (alter f r h) c.
Proof.
  intros Hne (t & d & Ht & Hd). exists t, d. by rewrite list_lookup_alter_ne.
Qed.

Lemma justified_trans h h1 h' :
  Forall2 fills h h1 → Forall2 fills h1 h' →
  justified h h1 → justified h1 h' → justified h h'.
Proof.
  intros F1 F2 J1 J2 q t t' x Ht Ht' Hnone Hx.
  pose proof F1 as [Hlen1 Hfill1]%Forall2_same_length_lookup.
  pose proof F2 as [Hlen2 Hfill2]%Forall2_same_length_lookup.
  destruct (lookup_lt_is_Some_2 h1 q) as [t1 Ht1];
    [rewrite <- Hlen1; by eapply lookup_lt_Some|].
  destruct (Hfill1 q t t1 Ht Ht1) as (_ & _ & _ & _ & Hch1 & _).
  destruct (Hfill2 q t1 t' Ht1 Ht') as (_ & _ & _ & _ & _ & Hdur2).
  destruct (duration t1) as [x1|] eqn:Hd1.
  - rewrite (Hdur2 x1 eq_refl) in Hx. injection Hx as <-.
    destruct (J1 q t t1 x1 Ht Ht1 Hnone Hd1) as [-> Hres]. split.
    + symmetry. apply summed_ext. intros c Hc.
      apply fills_task_duration; [done|]. by apply Hres.
    + intros c Hc. eapply fills_resolved; eauto.
  - rewrite <- Hch1. by apply (J2 q t1 t' x).
Qed.

Lemma justified_refl h : justified h h.
Proof. intros q t t' x Ht Ht' Hnone Hx. simplify_eq. Qed.

Section aggregation.
Variable recur : list TimedTask → list nat → option (list TimedTask * TimeDuration).
Hypothesis recur_frame :
  ∀ h l h' d, recur h l = Some (h', d) → Forall2 fills h h'.
Hypothesis recur_sums :
  ∀ h l lo h' d,
    forward h → (∀ r, r ∈ l → (lo ≤ r)%nat) → recur h l = Some (h', d) →
    unchanged_below lo h h' ∧ d = summed h' zeroDuration l
    ∧ (∀ r, r ∈ l → resolved h' r) ∧ justified h h'.

Lemma setTasksDuration_body_sums h acc r lo h1 acc1 :
  forward h → (lo ≤ r)%nat →
  setTasksDuration_body recur (h, acc) r = Some (h1, acc1) →
  unchanged_below lo h h1 ∧ resolved h1 r
  ∧ acc1 = sumDurations acc (task_duration h1 r) ∧ justified h h1.
Proof.
  intros Hfw Hlo Hb. unfold setTasksDuration_body in Hb.
  apply bind_Some in Hb as (t & Ht & Hb).
  destruct (duration t) as [x|] eqn:Hd.
  { injection Hb as <- <-. split; [done|]. split; [by exists t, x|].
    split; [|apply justified_refl]. unfold task_duration. by rewrite Ht, Hd. }
  apply bind_Some in Hb as ([h0 x] & Hrec & [= <- <-]).
  pose proof (recur_frame _ _ _ _ Hrec) as Hfill.
  destruct (recur_sums h (children t) (S r) h0 x Hfw) as (Hun & Hx & Hres & Hjust);
    [intros c Hc; specialize (Hfw r t c Ht Hc); lia | done |].
  assert (h0 !! r = Some t) as Ht0 by (rewrite Hun by lia; done).
  assert (∀ c, c ∈ children t → c ≠ r) as Hne
    by (intros c Hc; specialize (Hfw r t c Ht Hc); lia).
  assert (alter (set_duration x) r h0 !! r = Some (set_duration x t)) as Ht1
    by (by rewrite list_lookup_alter_eq, Ht0).
  split; [|split; [|split]].
  - intros q Hq. rewrite list_lookup_alter_ne by lia. apply Hun. lia.
  - by exists (set_duration x t), x.
  - unfold task_duration. by rewrite Ht1.
  - intros q tq tq' y Hq Hq' Hnone Hy.
    destruct (decide (q = r)) as [->|Hqr].
    + simplify_eq. cbn in Hy. injection Hy as <-. split.
      * symmetry. apply summed_ext. intros c Hc.
        apply task_duration_alter_ne. by apply Hne.
      * intros c Hc. apply resolved_alter_ne; [by apply Hne | by apply Hres].
    + rewrite list_lookup_alter_ne in Hq' by done.
      assert (r < q)%nat as Hrq.
      { destruct (decide (q < S r)%nat) as [Hlt|]; [|lia].
        rewrite (Hun q Hlt) in Hq'. simplify_eq. }
      destruct (Hjust q tq tq' y Hq Hq' Hnone Hy) as [-> Hres'].
      assert (∀ c, c ∈ children tq → c ≠ r) as Hne'
        by (intros c Hc; specialize (Hfw q tq c Hq Hc); lia).
      split.
      * symmetry. apply summed_ext. intros c Hc.
        apply task_duration_alter_ne. by apply Hne'.
      * intros c Hc. apply resolved_alter_ne; [by apply Hne' | by apply Hres'].
Qed.

Lemma for_of_sums lo l h acc h' d :
  forward h → (∀ r, r ∈ l → (lo ≤ r)%nat) →
  for_of (setTasksDuration_body recur) (h, acc) l = Some (h', d) →
  unchanged_below lo h h' ∧ d = summed h' acc l
  ∧ (∀ r, r ∈ l → resolved h' r) ∧ justified h h'.
Proof.
  revert h acc. induction l as [|r l IH]; intros h acc Hfw Hlo; cbn [for_of].
  { intros [= <- <-]. split; [done|]. split; [done|].
    split; [by intros r ?%elem_of_nil | apply justified_refl]. }
  intros Hb. apply bind_Some in Hb as ([h1 acc1] & Hstep & Hrest).
  pose proof (setTasksDuration_body_frame _ recur_frame _ _ _ _ _ Hstep) as F1.
  pose proof (for_of_frame _ recur_frame _ _ _ _ _ Hrest) as F2.
  destruct (setTasksDuration_body_sums h acc r lo h1 acc1 Hfw)
    as (Hun1 & Hres1 & Hacc1 & Hj1); [apply Hlo; by left | done |].
  destruct (IH h1 acc1) as (Hun2 & Hd & Hres2 & Hj2);
    [by eapply forward_fills | intros r' Hr'; apply Hlo; by right | done |].
  split; [|split; [|split]].
  - intros q Hq. by rewrite Hun2, Hun1.
  - cbn. rewrite Hd, Hacc1. by rewrite (fills_task_duration h1 h' r).
  - intros r' [->|Hr']%elem_of_cons; [by eapply fills_resolved | by apply Hres2].
  - by eapply justified_trans.
Qed.
End aggregation.

Lemma setTasksDuration_sums fuel h l lo h' d :
  forward h → (∀ r, r ∈ l → (lo ≤ r)%nat) →
  setTasksDuration fuel h l = Some (h', d) →
  unchanged_below lo h h' ∧ d = summed h' zeroDuration l
  ∧ (∀ r, r ∈ l → resolved h' r) ∧ justified h h'.
Proof.
  revert h l lo h' d. induction fuel as [|n IH]; intros h l lo h' d; [done|].
  cbn [setTasksDuration]. apply for_of_sums.
  - intros ? ? ? ?. apply setTasksDuration_fills.
  - exact IH.
Qed.

(** With fuel for the depth of the store the aggregation returns. *)
Lemma setTasksDuration_total fuel h l lo :
  forward h → (∀ r, r ∈ l → (lo ≤ r < length h)%nat) →
  (0 < fuel)%nat → (length h < fuel + lo)%nat →
  ∃ h' d, setTasksDuration fuel h l = Some (h', d).
Proof.
  revert h l lo. induction fuel as [|n IH]; intros h l lo Hfw Hl Hpos Hfuel; [lia|].
  cbn [setTasksDuration]. generalize zeroDuration.
  revert h Hfw Hl Hfuel. induction l as [|r l IHl]; intros h Hfw Hl Hfuel acc.
  { by eexists _, _. }
  cbn [for_of]. destruct (Hl r ltac:(by left)) as [Hlo Hlen].
  destruct (lookup_lt_is_Some_2 h r Hlen) as [t Ht].
  assert (∃ h1 acc1, setTasksDuration_body (setTasksDuration n) (h, acc) r
                     = Some (h1, acc1)) as (h1 & acc1 & Hstep).
  { unfold setTasksDuration_body. rewrite Ht. cbn.
    destruct (duration t); [by eexists _, _|].
    destruct (IH h (children t) (S r) Hfw) as (h0 & x & ->);
      [intros c Hc; specialize (Hfw r t c Ht Hc); lia | lia | lia |].
    by eexists _, _. }
  rewrite Hstep. cbn.
  pose proof (setTasksDuration_body_frame _
                (λ h l h' d, setTasksDuration_fills n h l h' d) _ _ _ _ _ Hstep)
    as F.
  pose proof F as [Hlen' _]%Forall2_same_length_lookup.
  apply IHl.
  - by eapply forward_fills.
  - intros r' Hr'. rewrite <- Hlen'. apply Hl. by right.
  - by rewrite <- Hlen'.
Qed.

(** ** Sums of durations as minutes *)

Lemma sumDurations_normalize a b :
  sumDurations a b = normalize (duration_minutes a + duration_minutes b).
Proof.
  unfold sumDurations, normalize, duration_minutes.
  by replace ((hours a + hours b) * 60 + minutes a + minutes b)
    with (hours a * 60 + minutes a + (hours b * 60 + minutes b)) by lia.
Qed.

Lemma duration_minutes_normalize m : 0 ≤ m → duration_minutes (normalize m) = m.
Proof.
  intros Hm. unfold duration_minutes, normalize. cbn.
  destruct (normalize_spec m Hm) as [? _]. lia.
Qed.

Lemma nonnegative_task_duration h r :
  nonnegative h → 0 ≤ duration_minutes (task_duration h r).
Proof.
  intros Hh. unfold task_duration. destruct (h !! r) as [t|] eqn:Ht; [|done].
  destruct (duration t) as [d|] eqn:Hd; [|done]. by eapply Hh.
Qed.

Lemma total_minutes_cons h r l :
  total_minutes h (r :: l)
  = duration_minutes (task_duration h r) + total_minutes h l.
Proof. reflexivity. Qed.

Lemma total_minutes_nonneg h l : nonnegative h → 0 ≤ total_minutes h l.
Proof.
  intros Hh. induction l as [|r l IH]; [done|]. rewrite total_minutes_cons.
  pose proof (nonnegative_task_duration h r Hh). lia.
Qed.

Lemma summed_cons h acc r l :
  summed h acc (r :: l) = summed h (sumDurations acc (task_duration h r)) l.
Proof. reflexivity. Qed.

Lemma summed_normalize h m l :
  nonnegative h → 0 ≤ m →
  summed h (normalize m) l = normalize (m + total_minutes h l).
Proof.
  intros Hh. revert m. induction l as [|r l IH]; intros m Hm.
  - cbn. by rewrite Z.add_0_r.
  - pose proof (nonnegative_task_duration h r Hh).
    rewrite total_minutes_cons, summed_cons.
    rewrite sumDurations_normalize, duration_minutes_normalize by done.
    rewrite IH by lia. f_equal. lia.
Qed.

Section nonnegative.
Variable recur : list TimedTask → list nat → option (list TimedTask * TimeDuration).
Hypothesis recur_nonnegative :
  ∀ h l h' d, nonnegative h → recur h l = Some (h', d) →
              nonnegative h' ∧ 0 ≤ duration_minutes d.

Lemma for_of_nonnegative l h acc h' d :
  nonnegative h → 0 ≤ duration_minutes acc →
  for_of (setTasksDuration_body recur) (h, acc) l = Some (h', d) →
  nonnegative h' ∧ 0 ≤ duration_minutes d.
Proof.
  revert h acc. induction l as [|r l IH]; intros h acc Hh Hacc; cbn [for_of].
  { by intros [= <- <-]. }
  intros Hb. apply bind_Some in Hb as ([h1 acc1] & Hstep & Hrest).
  enough (nonnegative h1 ∧ 0 ≤ duration_minutes acc1) as [? ?] by eauto.
  unfold setTasksDuration_body in Hstep.
  apply bind_Some in Hstep as (t & Ht & Hstep).
  destruct (duration t) as [x|] eqn:Hd.
  - injection Hstep as <- <-. split; [done|].
    rewrite sumDurations_normalize, duration_minutes_normalize;
      pose proof (Hh r t x Ht Hd); lia.
  - apply bind_Some in Hstep as ([h0 x] & Hrec & [= <- <-]).
    destruct (recur_nonnegative _ _ _ _ Hh Hrec) as [Hh0 Hx]. split.
    + intros q tq y Hq Hy. destruct (decide (r = q)) as [->|Hne].
      * rewrite list_lookup_alter_eq in Hq.
        destruct (h0 !! q); [|done]. injection Hq as <-. cbn in Hy.
        by injection Hy as <-.
      * rewrite list_lookup_alter_ne in Hq by done. by eapply Hh0.
    + rewrite sumDurations_normalize, duration_minutes_normalize; lia.
Qed.
End nonnegative.

Lemma setTasksDuration_nonnegative fuel h l h' d :
  nonnegative h → setTasksDuration fuel h l = Some (h', d) →
  nonnegative h' ∧ 0 ≤ duration_minutes d.
Proof.
  revert h l h' d. induction fuel as [|n IH]; intros h l h' d Hh; [done|].
  cbn [setTasksDuration]. by apply for_of_nonnegative.
Qed.

(** ** Aggregation of a built store *)

Lemma buildTasks_built doc visibleRanges st :
  buildTasks doc visibleRanges = Some st → built st.
Proof.
  rewrite buildTasks_concat. apply for_of_invariant with (P := built).
  - intros s a s' Hs Ha. by eapply enter_built.
  - apply built_initial.
Qed.

(** C10: the level of a list node is the single digit that follows the
    prefix [list-] of its name: a name without that prefix and digit
    creates no task, and of a depth of several digits only the first is
    read ([list-12] gives level 1).  A node of such a name, with a digit
    other than 0, creates a task of that level, at the end of the store,
    whenever the tree builder has come to it. *)
Theorem list_node_level_first_digit :
  (∀ name, nodeTaskLevel name = Some (list_depth name))
  ∧ (∀ name l, list_depth name = Some l ↔
       ∃ c tl, name = str "list-" ++ c :: tl ∧ is_digit c = true
               ∧ l = digit_value c)
  ∧ (∀ doc st node, list_depth (name node) = None → enter doc st node = Some st)
  ∧ (∀ doc st node l st',
       list_depth (name node) = Some l → enter doc st node = Some st' →
       ∃ t, store st' !! length (store st) = Some t ∧ level t = l)
  ∧ (∀ doc visibleRanges st node l,
       buildTasks doc visibleRanges = Some st →
       list_depth (name node) = Some l → 1 ≤ l →
       ∃ st' t,
         enter doc st node = Some st'
         ∧ buildTasks doc (visibleRanges ++ [[node]]) = Some st'
         ∧ length (store st') = S (length (store st))
         ∧ store st' !! length (store st) = Some t ∧ level t = l)
  ∧ nodeTaskLevel (str "list-12") = Some (Some 1)
  ∧ enter (str "- a") initial
      {| name := str "list-12"; node_from := 2; node_to := 3 |}
    = Some {| store := [ {| level := 0; position := 0; markPos := None;
                            parent := None; duration := None;
                            children := [1%nat] |};
                         {| level := 1; position := 3; markPos := None;
                            parent := Some O; duration := None;
                            children := [] |} ];
              currentParent := Some 1%nat |}.
Proof.
  assert (∀ doc st node l st',
            list_depth (name node) = Some l → enter doc st node = Some st' →
            ∃ t, store st' !! length (store st) = Some t ∧ level t = l
                 ∧ length (store st') = S (length (store st))) as Hnew.
  { intros doc st node l st' Hn [[Hn' _]|He]%enter_Some; [congruence|].
    destruct He as (l' & dur & p & tp & Hl & _ & _ & Hp & ->).
    exists (new_task doc node l' dur p). cbn [store].
    rewrite new_store_length. split; [|split; [cbn; congruence|done]].
    rewrite lookup_app_r by (by rewrite length_insert).
    by rewrite length_insert, Nat.sub_diag. }
  split; [exact nodeTaskLevel_spec|]. split; [|split; [|split; [|split; [|split]]]].
  - intros name l. unfold list_depth. split.
    + destruct (strip_prefix _ name) as [[|c tl]|] eqn:E; try done.
      destruct (is_digit c) eqn:Hc; [|done]. intros [= <-].
      apply strip_prefix_Some in E. by exists c, tl.
    + intros (c & tl & -> & Hc & ->).
      rewrite (proj2 (strip_prefix_Some _ _ (c :: tl))) by done. by rewrite Hc.
  - intros doc st node Hn. unfold enter. by rewrite nodeTaskLevel_spec, Hn.
  - intros doc st node l st' Hn He.
    destruct (Hnew _ _ _ _ _ Hn He) as (t & Ht & Hl & _). by exists t.
  - intros doc visibleRanges st node l Hst Hn Hl.
    destruct (enter_total doc st node (buildTasks_built _ _ _ Hst))
      as (st' & He & _); [intros l' Hl'; congruence|].
    destruct (Hnew _ _ _ _ _ Hn He) as (t & Ht & Hlt & Hlen).
    exists st', t. split; [done|]. split; [|done].
    unfold buildTasks in *. rewrite for_of_app, Hst. cbn. by rewrite He.
  - reflexivity.
  - reflexivity.
Qed.

Lemma built_nonnegative st : built st → nonnegative (store st).
Proof.
  intros Hb r t d Ht Hd. destruct (built_duration _ Hb r t d Ht Hd).
  unfold duration_minutes. lia.
Qed.

Lemma built_setTasksDuration st :
  built st →
  ∃ root h' total,
    store st !! O = Some root
    ∧ setTasksDuration (length (store st)) (store st) (children root)
      = Some (h', total).
Proof.
  intros Hb. destruct (built_root _ Hb) as (root & Hroot & _).
  pose proof (lookup_lt_Some _ _ _ Hroot).
  destruct (setTasksDuration_total (length (store st)) (store st)
              (children root) 1) as (h' & total & Hagg); try lia.
  - intros r t c. apply (built_children _ Hb).
  - intros c Hc. pose proof (built_children _ Hb O root c Hroot Hc). lia.
  - by exists root, h', total.
Qed.

Section untouched.
Variable h0 : list TimedTask.
Variable P : nat → Prop.
Hypothesis Pchild :
∀ p t r, P p → h0 !! p = Some t → duration t = None → r ∈ children t → P r.

(** The aggregation writes to the tasks of [taskList] and, below a task
    without a duration, to its children, and to no other task. *)
Lemma setTasksDuration_untouched fuel h l h' d :
Forall2 fills h0 h → (∀ r, r ∈ l → P r) →
setTasksDuration fuel h l = Some (h', d) →
∀ q, ¬ P q → h' !! q = h !! q.
Proof.
revert h l h' d. induction fuel as [|n IH]; intros h l h' d; [done|].
cbn [setTasksDuration]. generalize zeroDuration. revert h h' d.
induction l as [|r l IHl]; intros h h' d acc F Hl; cbn [for_of].
- by intros [= <- <-].
- intros Hb q Hq. apply bind_Some in Hb as ([h1 acc1] & Hstep & Hrest).
  assert (Forall2 fills h h1) as F1
    by (eapply (setTasksDuration_body_frame (setTasksDuration n));
        [apply setTasksDuration_fills|done]).
  assert (h1 !! q = h !! q) as Hq1.
  { unfold setTasksDuration_body in Hstep.
    destruct (h !! r) as [ct|] eqn:Hr; [|done]. cbn [mbind option_bind] in Hstep.
    destruct (duration ct) as [x|] eqn:Hx.
    - by injection Hstep as <- <-.
    - apply bind_Some in Hstep as ([h2 x] & Hrec & [= <- <-]).
      pose proof F as [Hlen0 Hfill0]%Forall2_same_length_lookup.
      destruct (lookup_lt_is_Some_2 h0 r) as [t0 Ht0];
        [rewrite Hlen0; by eapply lookup_lt_Some|].
      destruct (Hfill0 r t0 ct Ht0 Hr) as (_ & _ & _ & _ & Hch & Hdur).
      assert (duration t0 = None) as Hnone.
      { destruct (duration t0) as [y|] eqn:Hy; [|done].
        rewrite (Hdur y eq_refl) in Hx. done. }
      assert (P r) as Hr' by (apply Hl; by left).
      rewrite list_lookup_alter_ne by (intros ->; done).
      apply (IH h (children ct) h2 x F); [|done|done].
      intros c Hc. rewrite Hch in Hc. by eapply Pchild. }
  rewrite <- Hq1. eapply (IHl h1 h' d acc1); [|  |done|done].
  + by eapply Forall2_fills_trans.
  + intros r' Hr'. apply Hl. by right.
Qed.
End untouched.

(** C1, as the code has it: on every store that the tree builder produces
    the aggregation returns, and afterwards every task that it visits (a
    child of the root, or a child of a visited task that has no parsed
    duration) has a duration: the parsed one if there is one, unchanged
    also when the task has children, and otherwise the minutes of its
    children added up and split into hours and minutes, which is [{0, 0}]
    for a task without children.  The aggregation does not descend below a
    task that has a parsed duration: every task that is not visited is
    after the aggregation as it was before. *)
Theorem setTasksDuration_visited (doc : list N)
    (visibleRanges : list (list SyntaxNodeRef)) (st : BuildState) :
  buildTasks doc visibleRanges = Some st →
  ∃ root h' total,
    store st !! O = Some root
    ∧ setTasksDuration (length (store st)) (store st) (children root)
      = Some (h', total)
    ∧ (∀ r, visited (store st) r →
        ∃ t t' x,
          store st !! r = Some t ∧ h' !! r = Some t' ∧ duration t' = Some x
          ∧ match duration t with
            | Some parsed => x = parsed
            | None =>
                x = normalize (total_minutes h' (children t))
                ∧ ∀ c, c ∈ children t → resolved h' c
            end)
    ∧ (∀ r, ¬ visited (store st) r → h' !! r = store st !! r).
Proof.
  intros Hb%buildTasks_built.
  destruct (built_setTasksDuration st Hb) as (root & h' & total & Hroot & Hagg).
  exists root, h', total. split; [done|]. split; [done|].
  pose proof (setTasksDuration_fills _ _ _ _ _ Hagg) as F.
  pose proof F as [Hlen Hfill]%Forall2_same_length_lookup.
  destruct (setTasksDuration_sums _ _ _ 1 _ _
              ltac:(intros r t c; apply (built_children _ Hb))
              ltac:(intros c Hc;
                    pose proof (built_children _ Hb O root c Hroot Hc); lia)
              Hagg) as (_ & _ & Htop & Hjust).
  destruct (setTasksDuration_nonnegative _ _ _ _ _ (built_nonnegative _ Hb) Hagg)
    as [Hnn _].
  assert (∀ r, visited (store st) r → resolved h' r) as Hvis.
  { induction 1 as [root' r Hroot' Hr | p t r _ IH Hp Hnone Hr].
    - simplify_eq. by apply Htop.
    - destruct IH as (t' & x & Hp' & Hx).
      by apply (Hjust p t t' x Hp Hp' Hnone Hx). }
  split.
  - intros r Hr. destruct (Hvis r Hr) as (t' & x & Ht' & Hx).
    destruct (lookup_lt_is_Some_2 (store st) r) as [t Ht];
      [rewrite Hlen; by eapply lookup_lt_Some|].
    exists t, t', x. split; [done|]. split; [done|]. split; [done|].
    destruct (duration t) as [parsed|] eqn:Hd.
    + destruct (Hfill r t t' Ht Ht') as (_ & _ & _ & _ & _ & Hdur).
      rewrite (Hdur parsed Hd) in Hx. by injection Hx.
    + destruct (Hjust r t t' x Ht Ht' Hd Hx) as [-> Hres]. split; [|done].
      change zeroDuration with (normalize 0). by rewrite summed_normalize.
  - apply (setTasksDuration_untouched (store st) (visited (store st)))
      with (fuel := length (store st)) (l := children root) (d := total).
    + intros p t r Hp Ht Hnone Hr. by eapply visited_child.
    + apply Forall2_fills_refl.
    + intros r Hr. by eapply visited_top.
    + done.
Qed.

Lemma setTasksDuration_visited_witness :
  ∃ root h' total,
    store rollup_state !! O = Some root
    ∧ setTasksDuration (length (store rollup_state)) (store rollup_state)
        (children root) = Some (h', total)
    ∧ (∀ r, visited (store rollup_state) r →
        ∃ t t' x,
          store rollup_state !! r = Some t ∧ h' !! r = Some t'
          ∧ duration t' = Some x
          ∧ match duration t with
            | Some parsed => x = parsed
            | None =>
                x = normalize (total_minutes h' (children t))
                ∧ ∀ c, c ∈ children t → resolved h' c
            end)
    ∧ (∀ r, ¬ visited (store rollup_state) r →
            h' !! r = store rollup_state !! r).
Proof.
  apply (setTasksDuration_visited rollup_doc rollup_nodes rollup_state).
  vm_compute. reflexivity.
Defined.

(** In the second scenario the aggregation visits [Project], which has no
    duration of its own, and gives it the 90 minutes of [a] and [b]; in
    the first it visits [A] only, and [B] and [C] are left as they
    were. *)
Example setTasksDuration_scenarios :
  setTasksDuration 4 rollup_store [1%nat]
  = Some (alter (set_duration {| hours := 1; minutes := 30 |}) 1%nat rollup_store,
          {| hours := 1; minutes := 30 |})
  ∧ visited rollup_store 1 ∧ visited rollup_store 2 ∧ visited rollup_store 3
  ∧ setTasksDuration 4 scenario_store [1%nat]
    = Some (scenario_store, {| hours := 1; minutes := 0 |})
  ∧ visited scenario_store 1
  ∧ ¬ visited scenario_store 2 ∧ ¬ visited scenario_store 3.
Proof.
  assert (visited rollup_store 1) as V1
    by (eapply visited_top; [reflexivity|by left]).
  assert (∀ r, visited scenario_store r → r = 1%nat) as Hv.
  { induction 1 as [root r Hroot Hr | p t r _ IH Hp Hnone Hr].
    - injection Hroot as <-. by apply list_elem_of_singleton in Hr.
    - subst p. by injection Hp as <-. }
  split; [by vm_compute|]. split; [done|].
  split; [eapply visited_child; [exact V1|reflexivity|reflexivity|by left]|].
  split; [eapply visited_child;
          [exact V1|reflexivity|reflexivity|right; by left]|].
  split; [by vm_compute|].
  split; [eapply visited_top; [reflexivity|by left]|].
  split; intros H%Hv; lia.
Qed.

(** C1 as the specification words it does not hold: in the scenario the
    task [C] is a child of [A], which has a parsed duration; the
    aggregation does not descend below [A], and [C] is left without a
    duration. *)
Lemma setTasksDuration_leaves_undefined :
  buildTasks scenario_doc scenario_nodes = Some scenario_state
  ∧ ∃ root a h' total c,
      store scenario_state !! O = Some root ∧ 1%nat ∈ children root
      ∧ store scenario_state !! 1%nat = Some a ∧ 3%nat ∈ children a
      ∧ setTasksDuration (length (store scenario_state)) (store scenario_state)
          (children root) = Some (h', total)
      ∧ h' !! 3%nat = Some c ∧ duration c = None.
Proof.
  split; [by vm_compute|].
  eexists _, _, _, _, _. cbn.
  repeat split; try reflexivity.
  - apply list_elem_of_singleton. reflexivity.
  - apply elem_of_list_here || (right; left).
Qed.

(** ** The annotation emitter *)

Lemma for_of_preorder_acc recur h l acc :
  for_of (preorder_body recur h) acc l
  = (acc ++.) <$> for_of (preorder_body recur h) [] l.
Proof.
  revert acc. induction l as [|r l IH]; intros acc; cbn [for_of].
  - cbn. by rewrite app_nil_r.
  - assert (∀ a, preorder_body recur h a r
                 = t ← h !! r; sub ← recur (children t); Some (a ++ t :: sub))
      as Hbody by done.
    rewrite !Hbody. destruct (h !! r) as [t|]; [|done].
    cbn [mbind option_bind]. destruct (recur (children t)) as [sub|]; [|done].
    cbn [mbind option_bind]. rewrite IH, (IH ([] ++ t :: sub)).
    destruct (for_of _ [] l) as [x|]; [|done]. cbn. by rewrite <- app_assoc.
Qed.

Lemma preorder_cons n h r l :
  preorder (S n) h (r :: l)
  = t ← h !! r; sub ← preorder n h (children t);
    rest ← preorder (S n) h l; Some (t :: sub ++ rest).
Proof.
  cbn [preorder for_of]. unfold preorder_body at 2.
  destruct (h !! r) as [t|]; [|done]. cbn [mbind option_bind].
  destruct (preorder n h (children t)) as [sub|]; [|done].
  cbn [mbind option_bind]. rewrite for_of_preorder_acc.
  by destruct (for_of _ [] l).
Qed.

Lemma add_range b r :
  add b (range_from r) (range_to r) (value r)
  = layers ← addInner (layers b) r;
    Some {| added := added b ++ [r]; layers := layers |}.
Proof. by destruct r. Qed.

Lemma add_ranges_app b rs1 rs2 :
  add_ranges b (rs1 ++ rs2) = b' ← add_ranges b rs1; add_ranges b' rs2.
Proof. apply for_of_app. Qed.

Lemma add_ranges_cons b r rs :
  add_ranges b (r :: rs)
  = b' ← add b (range_from r) (range_to r) (value r); add_ranges b' rs.
Proof. reflexivity. Qed.

(** What the builder holds are the ranges that were added, in order. *)
Lemma add_ranges_added rs b b' :
  add_ranges b rs = Some b' → added b' = added b ++ rs.
Proof.
  revert b. induction rs as [|r rs IH]; intros b.
  - intros [= <-]. by rewrite app_nil_r.
  - rewrite add_ranges_cons, add_range. intros H.
    apply bind_Some in H as (b1 & H1 & H).
    apply bind_Some in H1 as (ls & _ & [= <-]).
    rewrite (IH _ H). cbn [added]. by rewrite <- app_assoc.
Qed.

Lemma displayDurations_body_emitted recur h b r :
  displayDurations_body recur h b r
  = t ← h !! r; b' ← add_ranges b (emitted t); recur b' (children t).
Proof.
  unfold displayDurations_body, emitted. destruct (h !! r) as [t|]; [|done].
  cbn [mbind option_bind].
  destruct (markPos t) as [m|], (duration t) as [d|];
    try destruct (is_nonzero d); cbn [app]; rewrite ?add_ranges_cons;
    cbn [range_from range_to value add_ranges for_of mbind option_bind];
    try done.
  - destruct (add b _ _ _) as [b1|]; [|done]. cbn [mbind option_bind].
    by destruct (add b1 _ _ _).
  - by destruct (add b _ _ _).
  - by destruct (add b _ _ _).
  - by destruct (add b _ _ _).
Qed.

Section emitter.
Variable h : list TimedTask.
Variable n : nat.
Hypothesis IHn :
∀ b l, displayDurations n h b l
       = ts ← preorder n h l; add_ranges b (ts ≫= emitted).

Lemma for_of_emitted l b :
for_of (displayDurations_body (displayDurations n h) h) b l
= ts ← preorder (S n) h l; add_ranges b (ts ≫= emitted).
Proof.
revert b. induction l as [|r l IH]; intros b; [done|]. cbn [for_of].
rewrite displayDurations_body_emitted, preorder_cons.
destruct (h !! r) as [t|]; [|done]. cbn [mbind option_bind].
destruct (preorder n h (children t)) as [sub|] eqn:Hsub.
- cbn [mbind option_bind].
  destruct (preorder (S n) h l) as [rest|] eqn:Hrest.
  + cbn [mbind option_bind]. rewrite bind_cons, bind_app, add_ranges_app.
    destruct (add_ranges b (emitted t)) as [b1|]; [|done].
    cbn [mbind option_bind]. rewrite IHn, Hsub, add_ranges_app.
    cbn [mbind option_bind].
    destruct (add_ranges b1 (sub ≫= emitted)) as [b2|]; [|done].
    cbn [mbind option_bind]. by rewrite IH.
  + cbn [mbind option_bind].
    destruct (add_ranges b (emitted t)) as [b1|]; [|done].
    cbn [mbind option_bind]. rewrite IHn, Hsub. cbn [mbind option_bind].
    destruct (add_ranges b1 (sub ≫= emitted)) as [b2|]; [|done].
    cbn [mbind option_bind]. by rewrite IH.
- cbn [mbind option_bind].
  destruct (add_ranges b (emitted t)) as [b1|]; [|done].
  cbn [mbind option_bind]. by rewrite IHn, Hsub.
Qed.
End emitter.

(** The emitter adds to the builder the instructions of the tasks in
    pre-order, one after the other. *)
Lemma displayDurations_preorder fuel h b l :
  displayDurations fuel h b l
  = ts ← preorder fuel h l; add_ranges b (ts ≫= emitted).
Proof.
  revert b l. induction fuel as [|n IH]; intros b l; [done|].
  cbn [displayDurations]. by apply for_of_emitted.
Qed.

Lemma preorder_total fuel h l lo :
  forward h → (∀ r, r ∈ l → (lo ≤ r < length h)%nat) →
  (0 < fuel)%nat → (length h < fuel + lo)%nat →
  is_Some (preorder fuel h l).
Proof.
  intros Hfw. revert l lo. induction fuel as [|n IH]; intros l lo Hl Hpos Hfuel; [lia|].
  cbn [preorder]. generalize (@nil TimedTask).
  induction l as [|r l IHl]; intros acc; [done|]. cbn [for_of].
  destruct (Hl r ltac:(by left)) as [Hlo Hlen].
  destruct (lookup_lt_is_Some_2 h r Hlen) as [t Ht].
  destruct (IH (children t) (S r)) as [sub Hsub];
    [intros c Hc; specialize (Hfw r t c Ht Hc); lia | lia | lia |].
  assert (preorder_body (preorder n h) h acc r = Some (acc ++ t :: sub)) as ->
    by (unfold preorder_body; rewrite Ht; cbn [mbind option_bind];
        by rewrite Hsub).
  cbn [mbind option_bind]. apply IHl.
  intros r' Hr'. apply Hl. by right.
Qed.

Lemma is_nonzero_false d : is_nonzero d = false ↔ hours d = 0 ∧ minutes d = 0.
Proof.
  unfold is_nonzero. rewrite orb_false_iff, !negb_false_iff, !Z.eqb_eq. tauto.
Qed.

Lemma label_emitted t : omap label (emitted t) = option_list (task_label t).
Proof.
  unfold emitted, task_label.
  destruct (markPos t), (duration t) as [d|]; cbn; try done.
  all: destruct (is_nonzero d) eqn:Hd; destruct (decide _) as [Hz|Hz];
    try (apply is_nonzero_false in Hz; congruence);
    try (apply is_nonzero_false in Hd; tauto);
    cbn; unfold label; cbn; by rewrite ?Nat.eqb_refl.
Qed.

Lemma label_preorder ts : omap label (ts ≫= emitted) = omap task_label ts.
Proof.
  induction ts as [|t ts IH]; [done|].
  rewrite bind_cons, omap_app, IH, label_emitted. cbn.
  by destruct (task_label t).
Qed.

(** ** The order of the instructions *)

Lemma nondecreasing_Sorted l : nondecreasing l = true → StronglySorted le l.
Proof.
  intros Hl. apply Sorted_StronglySorted; [intros ? ? ? ? ?; lia|].
  induction l as [|a l IH]; [constructor|].
  destruct l as [|b l]; [by repeat constructor|].
  cbn [nondecreasing] in Hl. apply andb_true_iff in Hl as [Hab%Nat.leb_le Hl].
  constructor; [by apply IH | by constructor].
Qed.

Lemma StronglySorted_nondecreasing l : StronglySorted le l → nondecreasing l = true.
Proof.
  induction 1 as [|a l Hl IH Ha]; [done|].
  destruct l as [|b l]; [done|]. cbn [nondecreasing].
  apply andb_true_iff. split; [|done]. apply Nat.leb_le.
  by inversion Ha.
Qed.

Lemma StronglySorted_sublist (l1 l2 : list nat) :
  l1 `sublist_of` l2 → StronglySorted le l2 → StronglySorted le l1.
Proof.
  induction 1 as [|x l1 l2 Hsub IH|x l1 l2 Hsub IH]; intros Hl2; [done| |].
  - apply StronglySorted_inv in Hl2 as [Hl2 Hx]. constructor; [by apply IH|].
    rewrite Forall_forall in Hx |- *. intros y Hy. apply Hx.
    by eapply elem_of_sublist.
  - apply StronglySorted_inv in Hl2 as [Hl2 _]. by apply IH.
Qed.

Lemma emitted_offsets t : (range_from <$> emitted t) `sublist_of` offsets t.
Proof.
  unfold emitted, offsets.
  destruct (markPos t) as [m|], (duration t) as [d|]; try destruct (is_nonzero d);
    cbn; repeat first [apply sublist_nil | apply sublist_skip | apply sublist_cons].
Qed.

Lemma preorder_offsets ts :
  (range_from <$> (ts ≫= emitted)) `sublist_of` (ts ≫= offsets).
Proof.
  induction ts as [|t ts IH]; [constructor|].
  rewrite !bind_cons, fmap_app. apply sublist_app; [apply emitted_offsets | done].
Qed.

(** *** When the builder takes the instructions *)

(** A range that starts where the last range of a layer ends, or after,
    is taken into that layer. *)
Lemma addInner_precedes L ls r :
  emitter_value L → emitter_value r → precedes L r →
  addInner (L :: ls) r = Some (r :: ls).
Proof.
  destruct L as [fl tl vl], r as [fr tr vr]. unfold emitter_value, precedes.
  cbn [range_from range_to value addInner]. intros HL Hr [H1 H2].
  destruct vl as [sl|wl sidel], vr as [sr|wr sider]; cbn [startSide endSide];
    subst; change (widget_side 1) with 100000001;
    repeat match goal with
           | |- context [Z.eqb ?a ?b] => destruct (Z.eqb_spec a b)
           | |- context [Z.leb ?a ?b] => destruct (Z.leb_spec a b)
           | |- context [Z.ltb ?a ?b] => destruct (Z.ltb_spec a b)
           end; cbn [andb]; try done; lia.
Qed.

Lemma add_ranges_precedes rs b :
  Forall emitter_value rs → StronglySorted precedes rs →
  match layers b with
  | [] => True
  | L :: _ => emitter_value L ∧ Forall (precedes L) rs
  end →
  ∃ b', add_ranges b rs = Some b' ∧ added b' = added b ++ rs.
Proof.
  intros Hv Hs. revert b.
  induction Hs as [|r rs Hs IH Hr]; intros b Hb.
  - exists b. split; [done|]. by rewrite app_nil_r.
  - apply Forall_cons in Hv as [Hvr Hv].
    assert (∃ ls, addInner (layers b) r = Some (r :: ls)) as [ls Hadd].
    { destruct (layers b) as [|L ls]; [by exists []|].
      destruct Hb as [HL [HLr _]%Forall_cons]. exists ls.
      by apply addInner_precedes. }
    destruct (IH Hv {| added := added b ++ [r]; layers := r :: ls |})
      as (b' & Hb' & Hadded); [done|].
    exists b'. rewrite add_ranges_cons, add_range, Hadd. cbn [mbind option_bind].
    split; [done|]. rewrite Hadded. cbn [added]. by rewrite <- app_assoc.
Qed.

Lemma emitted_value t : Forall emitter_value (emitted t).
Proof.
  unfold emitted. apply Forall_app. split.
  - destruct (markPos t); by repeat constructor.
  - destruct (duration t) as [d|]; [|constructor].
    destruct (is_nonzero d); by repeat constructor.
Qed.

Lemma emitted_in_offsets t r :
  r ∈ emitted t → range_from r ∈ offsets t ∧ range_to r ∈ offsets t.
Proof.
  unfold emitted, offsets. intros [Hr|Hr]%elem_of_app.
  - destruct (markPos t) as [m|]; [|by apply elem_of_nil in Hr].
    apply list_elem_of_singleton in Hr as ->. cbn. split; [by left|right; by left].
  - destruct (duration t) as [d|]; [|by apply elem_of_nil in Hr].
    destruct (is_nonzero d); [|by apply elem_of_nil in Hr].
    apply list_elem_of_singleton in Hr as ->. cbn.
    destruct (markPos t); split; repeat first [by left | right].
Qed.

Lemma emitted_precedes t :
  StronglySorted le (offsets t) → StronglySorted precedes (emitted t).
Proof.
  unfold emitted, offsets, precedes.
  destruct (markPos t) as [m|], (duration t) as [d|];
    try destruct (is_nonzero d); cbn [app]; intros Hs;
    repeat (apply StronglySorted_inv in Hs as [Hs ?]);
    repeat match goal with H : Forall _ (_ :: _) |- _ =>
             apply Forall_cons in H as [? H] end;
    repeat constructor; cbn; lia.
Qed.

(** The instructions of tasks in document order come each after the end
    of those before it. *)
Lemma preorder_precedes ts :
  StronglySorted le (ts ≫= offsets) →
  StronglySorted precedes (ts ≫= emitted)
  ∧ ∀ lo, Forall (le lo) (ts ≫= offsets) →
          Forall (λ r, (lo ≤ range_from r)%nat) (ts ≫= emitted).
Proof.
  induction ts as [|t ts IH]; [by repeat constructor|].
  rewrite !bind_cons. intros (Hcross & Ht & Hts)%StronglySorted_app.
  destruct (IH Hts) as [IH1 IH2]. split.
  - apply StronglySorted_app_2; [|by apply emitted_precedes|done].
    intros L r HL Hr. pose proof (emitted_in_offsets _ _ HL) as [HL1 HL2].
    assert (Forall (le (range_to L)) (ts ≫= offsets)) as Hlo
      by (apply Forall_forall; intros o Ho; by apply Hcross).
    specialize (IH2 _ Hlo). rewrite Forall_forall in IH2.
    split; [|by apply IH2].
    assert (∀ x, x ∈ emitted t → (range_from x ≤ range_to x)%nat) as Hle.
    { unfold emitted, offsets in *. clear -Ht.
      destruct (markPos t) as [m|], (duration t) as [d|];
        try destruct (is_nonzero d); cbn [app]; intros x Hx;
        repeat (apply StronglySorted_inv in Ht as [Ht ?]);
        repeat match goal with H : Forall _ (_ :: _) |- _ =>
                 apply Forall_cons in H as [? H] end;
        repeat (apply elem_of_cons in Hx as [->|Hx]; [cbn; lia|]);
        by apply elem_of_nil in Hx. }
    by apply Hle.
  - intros lo [Hlo1 Hlo2]%Forall_app. apply Forall_app. split; [|by apply IH2].
    apply Forall_forall. intros r [Hr _]%emitted_in_offsets.
    rewrite Forall_forall in Hlo1. by apply Hlo1.
Qed.
(** On tasks in document order the builder takes every instruction. *)
Lemma displayDurations_returns fuel h l ts :
  preorder fuel h l = Some ts → document_order ts = true →
  ∃ b, displayDurations fuel h RangeSetBuilder_new l = Some b
       ∧ finish b = ts ≫= emitted.
Proof.
  intros Hts Hdoc%nondecreasing_Sorted. rewrite displayDurations_preorder, Hts.
  cbn [mbind option_bind]. destruct (preorder_precedes ts Hdoc) as [Hs _].
  destruct (add_ranges_precedes (ts ≫= emitted) RangeSetBuilder_new)
    as (b & Hb & Hadded); [|done|done|by exists b].
  apply Forall_forall. intros r (t & Hr & _)%list_elem_of_bind.
  pose proof (emitted_value t) as Hv. rewrite Forall_forall in Hv. by apply Hv.
Qed.

(** C5: the inline labels of the instructions are, in the pre-order of
    the forest, one for each task whose duration is present and not
    [{0, 0}], anchored at the position of the task and with the text
    [" — ⏱️ "] followed by the formatted duration; a task whose duration
    is absent or [{0, 0}] has none.  On a store whose children point
    forward, and whose tasks are in pre-order in document order, the
    emitter returns, with the instructions of all the tasks. *)
Theorem displayDurations_labels (fuel : nat) (h : list TimedTask) (l : list nat) :
  (∀ b, displayDurations fuel h RangeSetBuilder_new l = Some b →
     ∃ ts, preorder fuel h l = Some ts
           ∧ finish b = ts ≫= emitted
           ∧ omap label (finish b) = omap task_label ts)
  ∧ (∀ t, is_Some (task_label t) ↔
          ∃ d, duration t = Some d ∧ (hours d ≠ 0 ∨ minutes d ≠ 0))
  ∧ (∀ w, toDOM w = str " " ++ [8212%N] ++ str " " ++ [9201%N; 65039%N]
                    ++ str " " ++ timeText w)
  ∧ (forward h → (∀ r, r ∈ l → (r < length h)%nat) → (length h < fuel)%nat →
     ∃ ts, preorder fuel h l = Some ts
           ∧ (document_order ts = true →
              ∃ b, displayDurations fuel h RangeSetBuilder_new l = Some b
                   ∧ finish b = ts ≫= emitted
                   ∧ omap label (finish b) = omap task_label ts)).
Proof.
  split; [|split; [|split]].
  - intros b. rewrite displayDurations_preorder.
    destruct (preorder fuel h l) as [ts|]; [|done]. cbn [mbind option_bind].
    intros Hb%add_ranges_added. exists ts. split; [done|].
    unfold finish. rewrite Hb. cbn [added app]. split; [done|].
    apply label_preorder.
  - intros t. unfold task_label. destruct (duration t) as [d|].
    + destruct (decide _) as [Hz|Hz].
      * split; [by intros [? ?]|]. intros (d' & [= <-] & Hnz). lia.
      * split; [|by eexists]. intros _. exists d. split; [done|]. lia.
    + split; [by intros [? ?] | by intros (? & ? & _)].
  - done.
  - intros Hfw Hl Hfuel.
    destruct (preorder_total fuel h l 0 Hfw) as [ts Hts]; try lia.
    { intros r Hr. specialize (Hl r Hr). lia. }
    exists ts. split; [done|]. intros Hdoc.
    destruct (displayDurations_returns _ _ _ _ Hts Hdoc) as (b & Hb & Hfin).
    exists b. split; [done|]. split; [done|]. rewrite Hfin.
    apply label_preorder.
Qed.

(** C6: when the tasks of the forest, in pre-order, are in document order
    (the highlight of a task lies in its line, which ends at its position,
    and the offsets of a task come before those of the tasks after it,
    its descendants among them), the emitter returns, the builder holds
    the instructions of the tasks in pre-order, and their start positions
    are non-decreasing. *)
Theorem displayDurations_nondecreasing (fuel : nat) (h : list TimedTask)
    (l : list nat) (ts : list TimedTask) :
  preorder fuel h l = Some ts →
  document_order ts = true →
  ∃ b, displayDurations fuel h RangeSetBuilder_new l = Some b
       ∧ finish b = ts ≫= emitted
       ∧ nondecreasing (range_from <$> finish b) = true.
Proof.
  intros Hts Hdoc.
  destruct (displayDurations_returns _ _ _ _ Hts Hdoc) as (b & Hb & Hfin).
  exists b. split; [done|]. split; [done|]. rewrite Hfin.
  apply StronglySorted_nondecreasing.
  eapply StronglySorted_sublist; [apply preorder_offsets|].
  by apply nondecreasing_Sorted.
Qed.

Lemma displayDurations_nondecreasing_witness :
  ∃ b, displayDurations 4 scenario_store RangeSetBuilder_new [1%nat] = Some b
       ∧ finish b = drop 1 scenario_store ≫= emitted
       ∧ nondecreasing (range_from <$> finish b) = true.
Proof.
  apply (displayDurations_nondecreasing 4 scenario_store [1%nat]
           (drop 1 scenario_store)); reflexivity.
Defined.

(** The instructions of the scenario, and a forest that is not in
    document order: the task at 1 ends at 20 and its child at 10, and the
    builder throws at the second label. *)
Example displayDurations_examples :
  (finish <$> displayDurations 4 scenario_store RangeSetBuilder_new [1%nat])
  = Some [ {| range_from := 0; range_to := 11;
              value := Decoration_mark mark_style |};
           {| range_from := 13; range_to := 13;
              value := Decoration_widget {| timeText := str "1 h 0 mins" |} 1 |};
           {| range_from := 16; range_to := 27;
              value := Decoration_mark mark_style |};
           {| range_from := 29; range_to := 29;
              value := Decoration_widget {| timeText := str "30 mins" |} 1 |} ]
  ∧ displayDurations 3
      [ {| level := 0; position := 0; markPos := None; parent := None;
           duration := None; children := [1%nat] |};
        {| level := 1; position := 20; markPos := None; parent := Some O;
           duration := Some {| hours := 0; minutes := 45 |};
           children := [2%nat] |};
        {| level := 2; position := 10; markPos := None; parent := Some 1%nat;
           duration := Some {| hours := 0; minutes := 45 |}; children := [] |} ]
      RangeSetBuilder_new [1%nat]
    = None.
Proof. split; by vm_compute. Qed.

(** ** The whole of [buildDecorations] *)

(** The scenario: the highlights of [A] and [B], and a label for each;
    [C] has no label. *)
Example buildDecorations_scenario :
  buildTasks scenario_doc scenario_nodes = Some scenario_state
  ∧ ∃ out : list Range,
      buildDecorations scenario_doc scenario_nodes = Some out
      ∧ (range_from <$> out) = [0; 13; 16; 29]%nat
      ∧ (range_to <$> out) = [11; 13; 27; 29]%nat
      ∧ omap label out = [(13%nat, label_prefix ++ str "1 h 0 mins");
                          (29%nat, label_prefix ++ str "30 mins")].
Proof.
  split; [by vm_compute|]. eexists. split; [by vm_compute|]. by vm_compute.
Qed.

(** A node of level 0 makes the walk up the parents leave the root, and
    the push on the undefined parent throws. *)
Example buildTasks_level_0 :
  buildTasks (str "x") [[ {| name := str "list-0"; node_from := 0; node_to := 1 |} ]]
  = None.
Proof. reflexivity. Qed.

(** An outline that goes down two levels at once and comes back up: the
    levels 1, 3, 2, 1, 2 give the parents root, 1, 1, root, 4, and the
    instructions come out in the order of the document. *)
Example buildDecorations_outline :
  let doc := str "- 08:00-09:00 a" ++ [10%N] ++ str "    - 08:10 - 08:30 b"
             ++ [10%N] ++ str "  - c" ++ [10%N] ++ str "- d" ++ [10%N]
             ++ str "  - 10:00 " ++ [8212%N] ++ str " 11:30 e" in
  let nodes :=
    [[ {| name := str "list-1"; node_from := 2; node_to := 15 |};
       {| name := str "list-3"; node_from := 22; node_to := 37 |} ];
     [ {| name := str "list-2"; node_from := 42; node_to := 43 |};
       {| name := str "hmd-list-indent"; node_from := 44; node_to := 44 |};
       {| name := str "list-1"; node_from := 46; node_to := 47 |};
       {| name := str "list-2"; node_from := 52; node_to := 67 |} ]]%nat in
  ∃ st out,
    buildTasks doc nodes = Some st
    ∧ (parent <$> store st) = [None; Some 0; Some 1; Some 1; Some 0; Some 4]%nat
    ∧ (children <$> store st) = [[1; 4]; [2; 3]; []; []; [5]; []]%nat
    ∧ buildDecorations doc nodes = Some out
    ∧ (range_from <$> out) = [2; 15; 22; 37; 47; 52; 67]%nat
    ∧ (range_to <$> out) = [13; 15; 35; 37; 47; 65; 67]%nat
    ∧ omap label out
      = [(15%nat, label_prefix ++ str "1 h 0 mins");
         (37%nat, label_prefix ++ str "20 mins");
         (47%nat, label_prefix ++ str "1 h 30 mins");
         (67%nat, label_prefix ++ str "1 h 30 mins")].
Proof.
  eexists _, _. split; [by vm_compute|]. by vm_compute.
Qed.

(** * Further properties of the code *)

(** ** Sums and differences *)

Lemma normalize_duration_minutes d :
  0 ≤ hours d → 0 ≤ minutes d ≤ 59 → normalize (duration_minutes d) = d.
Proof.
  intros Hh Hm. destruct d as [h m]. unfold normalize, duration_minutes.
  cbn [hours minutes] in *. rewrite Z.rem_mod_nonneg by lia.
  f_equal.
  - symmetry. apply (Z.div_unique_pos _ 60 h m); lia.
  - symmetry. apply (Z.mod_unique_pos _ 60 h m); lia.
Qed.

(** On durations with non-negative fields, whose minutes together are an
    integer that doubles hold exactly (so that every sum below is computed
    exactly), [sumDurations] is commutative and associative, and [{0, 0}]
    is neutral for a duration whose minutes are below 60: a total does not
    depend on the order in which the durations are added up. *)
Theorem sumDurations_monoid (a b c : TimeDuration) :
  0 ≤ hours a → 0 ≤ minutes a → 0 ≤ hours b → 0 ≤ minutes b →
  0 ≤ hours c → 0 ≤ minutes c →
  (hours a + hours b + hours c) * 60 + minutes a + minutes b + minutes c
  ≤ MAX_SAFE_INTEGER →
  sumDurations a b = sumDurations b a
  ∧ sumDurations (sumDurations a b) c = sumDurations a (sumDurations b c)
  ∧ (minutes a ≤ 59 →
     sumDurations zeroDuration a = a ∧ sumDurations a zeroDuration = a).
Proof.
  intros Ha Ha' Hb Hb' Hc Hc' _.
  assert (0 ≤ duration_minutes a ∧ 0 ≤ duration_minutes b
          ∧ 0 ≤ duration_minutes c) as (Hma & Hmb & Hmc)
    by (unfold duration_minutes; lia).
  rewrite !sumDurations_normalize, !duration_minutes_normalize by lia.
  split; [f_equal; lia|]. split; [f_equal; lia|].
  intros Ha59. change (duration_minutes zeroDuration) with 0.
  rewrite Z.add_0_l, Z.add_0_r. by rewrite normalize_duration_minutes.
Qed.

Lemma sumDurations_monoid_witness :
  sumDurations {| hours := 1; minutes := 50 |} {| hours := 0; minutes := 20 |}
  = sumDurations {| hours := 0; minutes := 20 |} {| hours := 1; minutes := 50 |}
  ∧ sumDurations
      (sumDurations {| hours := 1; minutes := 50 |} {| hours := 0; minutes := 20 |})
      {| hours := 3; minutes := 59 |}
    = sumDurations {| hours := 1; minutes := 50 |}
        (sumDurations {| hours := 0; minutes := 20 |} {| hours := 3; minutes := 59 |})
  ∧ (minutes {| hours := 1; minutes := 50 |} ≤ 59 →
     sumDurations zeroDuration {| hours := 1; minutes := 50 |}
     = {| hours := 1; minutes := 50 |}
     ∧ sumDurations {| hours := 1; minutes := 50 |} zeroDuration
       = {| hours := 1; minutes := 50 |}).
Proof.
  apply (sumDurations_monoid {| hours := 1; minutes := 50 |}
           {| hours := 0; minutes := 20 |} {| hours := 3; minutes := 59 |});
    unfold MAX_SAFE_INTEGER; simpl; lia.
Defined.

Lemma toMinutes_upper t : clock_time t = true → toMinutes t ≤ 6039.
Proof.
  intros (a & b & d & e & -> & Ha & Hb & Hd & He)%clock_time_inv.
  apply digit_value_range in Ha, Hb, Hd, He. cbn [toMinutes]. lia.
Qed.

(** The fields of a clock time are not validated: any two digits count,
    so a clock time is between 0 and 99 * 60 + 99 minutes.  The duration
    between two clock times is [{0, 0}], which gets no label, exactly when
    both denote the same minute, and it is never more than 6039 minutes. *)
Theorem diffDuration_zero_iff (t1 t2 : list N) :
  clock_time t1 = true → clock_time t2 = true →
  0 ≤ toMinutes t1 ≤ 6039
  ∧ ∃ d, diffDuration t1 t2 = Some d
         ∧ (is_nonzero d = false ↔ toMinutes t1 = toMinutes t2)
         ∧ (d = zeroDuration ↔ toMinutes t1 = toMinutes t2)
         ∧ hours d * 60 + minutes d ≤ 6039.
Proof.
  intros H1 H2.
  pose proof (toMinutes_nonneg t1 H1). pose proof (toMinutes_upper t1 H1).
  pose proof (toMinutes_nonneg t2 H2). pose proof (toMinutes_upper t2 H2).
  split; [lia|]. rewrite diffDuration_clock_times by done.
  eexists. split; [done|].
  destruct (normalize_spec (Z.abs (toMinutes t2 - toMinutes t1)))
    as (Hsum & Hmin & Hh); [lia|].
  rewrite is_nonzero_false. unfold zeroDuration. cbn [hours minutes].
  split; [|split]; [| |lia].
  - split; [intros [E1 E2]; rewrite E1, E2 in Hsum; lia|].
    intros E. rewrite E, Z.sub_diag. done.
  - split; [intros [= E1 E2]; rewrite E1, E2 in Hsum; lia|].
    intros E. rewrite E, Z.sub_diag. done.
Qed.

Lemma diffDuration_zero_iff_witness :
  0 ≤ toMinutes (str "09:60") ≤ 6039
  ∧ ∃ d, diffDuration (str "09:60") (str "10:00") = Some d
         ∧ (is_nonzero d = false
            ↔ toMinutes (str "09:60") = toMinutes (str "10:00"))
         ∧ (d = zeroDuration
            ↔ toMinutes (str "09:60") = toMinutes (str "10:00"))
         ∧ hours d * 60 + minutes d ≤ 6039.
Proof.
  apply (diffDuration_zero_iff (str "09:60") (str "10:00")); reflexivity.
Defined.

(** ** The highlight on any text *)

Lemma matcher_dot_Eol_captures x z :
  matcher (Star true dot ⋅ Eol) x Some = Some z → captures z = captures x.
Proof.
  destruct x as [i s caps]. rewrite matcher_Seq, matcher_Star.
  intros (y & Hy & Hz)%repeat_Char_captures. cbn [matcher] in Hz.
  destruct (rest y); [|done]. by injection Hz as <-.
Qed.

Lemma matcher_markRangeRx_Some s i caps z :
  matcher markRangeRx (mk i s caps) Some = Some z →
  clock_time (take 5 s) = true
  ∧ (captures z = <[1%nat := Some (take 5 s)]> caps
     ∨ ∃ g, dash_and_clock_time (drop 5 s) = Some g
            ∧ captures z = <[2%nat := Some g]> (<[1%nat := Some (take 5 s)]> caps)).
Proof.
  unfold markRangeRx. rewrite matcher_Seq, matcher_Group_HHMM.
  destruct (clock_time (take 5 s)) eqn:E; [|done]. intros Hz. split; [done|].
  rewrite matcher_Seq, matcher_Opt, matcher_dash_group in Hz.
  destruct (dash_and_clock_time (drop 5 s)) as [g|] eqn:Hg.
  - destruct (_ =? _)%nat.
    + apply matcher_dot_Eol_captures in Hz. by left.
    + destruct (matcher (Star true dot ⋅ Eol) _ Some) as [z'|] eqn:Hz'.
      * injection Hz as <-. apply matcher_dot_Eol_captures in Hz'.
        right. by exists g.
      * apply matcher_dot_Eol_captures in Hz. by left.
  - apply matcher_dot_Eol_captures in Hz. by left.
Qed.

Lemma exec_at_markRangeRx_Some s i m :
  exec_at markRangeRx 2 i s = Some m →
  ∃ k w og,
    index m = (i + k)%nat
    ∧ array m = [Some w; Some (take 5 (drop k s)); og]
    ∧ clock_time (take 5 (drop k s)) = true
    ∧ (og = None ∨ og = dash_and_clock_time (drop (k + 5) s)).
Proof.
  revert i. induction s as [|a s IH]; intros i; cbn [exec_at].
  - destruct (matcher markRangeRx _ Some) as [z|] eqn:Hz; [|done].
    by apply matcher_markRangeRx_Some in Hz as [? _].
  - destruct (matcher markRangeRx _ Some) as [z|] eqn:Hz.
    + intros [= <-]. apply matcher_markRangeRx_Some in Hz as [Hc Hcap].
      exists O. cbn [drop Nat.add index array]. rewrite Nat.add_0_r.
      destruct Hcap as [->|(g & Hg & ->)].
      * eexists _, None. repeat split; try done. by left.
      * eexists _, (Some g). repeat split; try done. right. by rewrite <- Hg.
    + intros (k & w & og & Hi & Ha & Hc & Hog)%IH.
      exists (S k), w, og. cbn [drop]. split; [lia|]. done.
Qed.

Lemma bulletNodeMarkPos_inside node_from s m :
  bulletNodeMarkPos node_from s = Some m →
  (node_from ≤ from m)%nat
  ∧ clock_time (take 5 (drop (from m - node_from) s)) = true
  ∧ (from m + 5 ≤ to m)%nat
  ∧ (to m ≤ node_from + length s)%nat.
Proof.
  unfold bulletNodeMarkPos, exec.
  destruct (exec_at markRangeRx 2 0 s) as [r|] eqn:Hr; [|done].
  apply exec_at_markRangeRx_Some in Hr as (k & w & og & Hi & Ha & Hc & Hog).
  rewrite Ha, Hi. cbn. intros [= <-]. cbn [from to].
  pose proof (clock_time_length _ Hc) as H5.
  assert (k + 5 ≤ length s)%nat as Hk.
  { rewrite length_take, length_drop in H5. lia. }
  replace (node_from + k - node_from)%nat with k by lia.
  split; [lia|]. split; [done|]. rewrite H5.
  destruct Hog as [Hog|Hog]; rewrite Hog; [cbn; lia|].
  destruct (dash_and_clock_time (drop (k + 5) s)) as [g|] eqn:Hg; [|cbn; lia].
  apply dash_and_clock_time_length in Hg as (_ & Hle & _).
  rewrite length_drop in Hle. cbn. lia.
Qed.

(** On any text, the mark range that is computed for a node starts at a
    clock time of the text, covers at least that clock time and ends
    within the text. *)
Theorem bulletNodeMarkPos_bounds (node_from : nat) (s : list N) (m : MarkPos) :
  bulletNodeMarkPos node_from s = Some m →
  (node_from ≤ from m)%nat
  ∧ clock_time (take 5 (drop (from m - node_from) s)) = true
  ∧ (from m + 5 ≤ to m)%nat
  ∧ (to m ≤ node_from + length s)%nat.
Proof. apply bulletNodeMarkPos_inside. Qed.

Lemma bulletNodeMarkPos_bounds_witness :
  (7 ≤ from {| from := 9; to := 22 |})%nat
  ∧ clock_time (take 5 (drop (from {| from := 9; to := 22 |} - 7)
                          (str "x 09:00 - 10:15 y"))) = true
  ∧ (from {| from := 9; to := 22 |} + 5 ≤ to {| from := 9; to := 22 |})%nat
  ∧ (to {| from := 9; to := 22 |} ≤ 7 + length (str "x 09:00 - 10:15 y"))%nat.
Proof.
  apply (bulletNodeMarkPos_bounds 7 (str "x 09:00 - 10:15 y")
           {| from := 9; to := 22 |}).
  reflexivity.
Defined.

Lemma sliceDoc_length doc from to : (length (sliceDoc doc from to) ≤ to - from)%nat.
Proof. unfold sliceDoc. rewrite length_take. lia. Qed.

Lemma enter_markPos doc st node st' :
  (∀ r t m, store st !! r = Some t → markPos t = Some m →
            (from m + 5 ≤ to m ≤ position t)%nat) →
  enter doc st node = Some st' →
  ∀ r t m, store st' !! r = Some t → markPos t = Some m →
           (from m + 5 ≤ to m ≤ position t)%nat.
Proof.
  intros Hst [[_ ->]|He]%enter_Some; [done|].
  destruct He as (l & dur & p & tp & _ & _ & _ & Hp & ->). cbn [store].
  intros r t m Hr Hm.
  destruct (decide (r < length (store st))%nat) as [Hlt|Hge].
  - destruct (new_store_old _ _ _ _ Hp r t Hlt Hr)
      as (t2 & Ht2 & _ & Hpos & Hmark & _).
    rewrite Hpos. apply (Hst r t2 m Ht2). congruence.
  - apply lookup_lt_Some in Hr as Hr'. rewrite new_store_length in Hr' by done.
    assert (r = length (store st)) as -> by lia.
    rewrite new_store_last in Hr by done. injection Hr as <-.
    cbn [markPos position new_task] in *.
    apply bulletNodeMarkPos_inside in Hm.
    pose proof (sliceDoc_length doc (node_from node) (node_to node)). lia.
Qed.

(** In every store that the tree builder produces, the mark range of a
    task covers at least five code units and ends at or before the
    position of the task, the end of its node. *)
Theorem buildTasks_markPos_before_position (doc : list N)
    (visibleRanges : list (list SyntaxNodeRef)) (st : BuildState) :
  buildTasks doc visibleRanges = Some st →
  Forall (λ t, match markPos t with
               | Some m => (from m + 5 ≤ to m ≤ position t)%nat
               | None => True
               end) (store st).
Proof.
  intros Hst. apply Forall_lookup. intros r t Hr.
  destruct (markPos t) as [m|] eqn:Hm; [|done].
  revert r t m Hr Hm. revert Hst. rewrite buildTasks_concat.
  apply (for_of_invariant
           (λ st, ∀ r t m, store st !! r = Some t → markPos t = Some m →
                           (from m + 5 ≤ to m ≤ position t)%nat)).
  - intros s a s' Hs Ha. by eapply enter_markPos.
  - intros [|r] t m; [|done]. by intros [= <-].
Qed.

Lemma buildTasks_markPos_before_position_witness :
  Forall (λ t, match markPos t with
               | Some m => (from m + 5 ≤ to m ≤ position t)%nat
               | None => True
               end) (store scenario_state).
Proof.
  apply (buildTasks_markPos_before_position scenario_doc scenario_nodes).
  vm_compute. reflexivity.
Defined.

(** ** The tasks of a built store *)

Lemma enter_task_fields doc st node st' :
  enter doc st node = Some st' →
  (Some ∘ task_fields) <$> store st'
  = ((Some ∘ task_fields) <$> store st)
    ++ (node_fields doc <$> task_nodes [node]).
Proof.
  unfold task_nodes.
  intros [[Hn ->]|He]%enter_Some.
  - rewrite filter_cons_False by (rewrite Hn; by intros [? ?]).
    by rewrite app_nil_r.
  - destruct He as (l & dur & p & tp & Hl & Hdur & _ & Hp & ->). cbn [store].
    rewrite filter_cons_True by (by rewrite Hl). cbn [filter fmap list_fmap].
    rewrite fmap_app, list_fmap_insert. f_equal.
    + apply list_insert_id. by rewrite list_lookup_fmap, Hp.
    + cbn. unfold node_fields. rewrite Hl, Hdur. done.
Qed.

Lemma for_of_enter_task_fields doc nodes st st' :
  for_of (enter doc) st nodes = Some st' →
  (Some ∘ task_fields) <$> store st'
  = ((Some ∘ task_fields) <$> store st)
    ++ (node_fields doc <$> task_nodes nodes).
Proof.
  revert st. induction nodes as [|node nodes IH]; intros st; cbn [for_of].
  - intros [= <-]. by rewrite app_nil_r.
  - intros H. apply bind_Some in H as (st1 & H1 & H).
    rewrite (IH _ H), (enter_task_fields _ _ _ _ H1), <- app_assoc.
    f_equal. rewrite <- fmap_app. f_equal. unfold task_nodes.
    change (node :: nodes) with ([node] ++ nodes). by rewrite filter_app.
Qed.

(** The tasks of a built store are, after the root and in the order of
    the stream, one for each node whose name gives a level, and a task
    holds the level, the end of the node as its position, and the mark
    range and the duration parsed from the text of the node. *)
Theorem buildTasks_task_fields (doc : list N)
    (visibleRanges : list (list SyntaxNodeRef)) (st : BuildState) :
  buildTasks doc visibleRanges = Some st →
  (Some ∘ task_fields) <$> drop 1 (store st)
  = node_fields doc <$> task_nodes (concat visibleRanges).
Proof.
  rewrite buildTasks_concat. intros H%for_of_enter_task_fields.
  rewrite fmap_drop, H. done.
Qed.

Lemma buildTasks_task_fields_witness :
  (Some ∘ task_fields) <$> drop 1 (store scenario_state)
  = node_fields scenario_doc <$> task_nodes (concat scenario_nodes).
Proof.
  apply (buildTasks_task_fields scenario_doc scenario_nodes).
  vm_compute. reflexivity.
Defined.

(** ** When [buildDecorations] returns *)

Lemma list_depth_range name l : list_depth name = Some l → 0 ≤ l ≤ 9.
Proof.
  unfold list_depth. destruct (strip_prefix _ name) as [[|c tl]|]; try done.
  destruct (is_digit c) eqn:Hc; [|done]. intros [= <-].
  by apply digit_value_range.
Qed.

Lemma built_level_nonneg st r t : built st → store st !! r = Some t → 0 ≤ level t.
Proof.
  intros Hb. revert t. induction (lt_wf r) as [r _ IH]. intros t Ht.
  destruct r as [|r].
  - destruct (built_root _ Hb) as (t0 & Ht0 & Hl0 & _). simplify_eq. lia.
  - destruct (built_parent _ Hb (S r) t ltac:(lia) Ht)
      as (p & tp & _ & Htp & Hlt & Hlev & _).
    specialize (IH p Hlt tp Htp). lia.
Qed.

(** The walk up the parents ends, at a task or above the root. *)
Lemma pop_parents_returns h l :
  (∀ r t, (0 < r)%nat → h !! r = Some t → nearest_parent h r t) →
  (∀ t0, h !! O = Some t0 → parent t0 = None) →
  ∀ fuel c, (c < length h)%nat → (c < fuel)%nat →
    ∃ o, pop_parents fuel h (Some c) l = Some o.
Proof.
  intros Hpar Hroot. induction fuel as [|fuel IH]; intros c Hc Hf; [lia|].
  rewrite pop_parents_Some. destruct (lookup_lt_is_Some_2 h c Hc) as [t Ht].
  rewrite Ht. cbn. destruct (l <=? level t); [|by eexists].
  destruct c as [|c].
  - rewrite (Hroot t Ht), pop_parents_None. by eexists.
  - destruct (Hpar (S c) t ltac:(lia) Ht) as (p' & tp & -> & Htp & Hlt' & _).
    apply IH; [|lia]. by eapply lookup_lt_Some.
Qed.

(** A node of level 0: the walk ends above the root, and the push on the
    undefined parent throws. *)
Lemma enter_level_0 doc st node :
  built st → list_depth (name node) = Some 0 →
  pop_parents (length (store st)) (store st) (currentParent st) 0 = Some None
  ∧ enter doc st node = None.
Proof.
  intros Hb Hl.
  destruct (built_root _ Hb) as (t0 & Ht0 & Hl0 & Hp0 & _).
  destruct (built_cursor _ Hb) as (c & Hc & Hclen).
  assert (pop_parents (length (store st)) (store st) (currentParent st) 0
          = Some None) as Hpop.
  { rewrite Hc.
    destruct (pop_parents_returns (store st) 0 (built_parent _ Hb)
                ltac:(intros; by simplify_eq) (length (store st)) c
                ltac:(lia) ltac:(lia)) as [[p|] Hpop]; [|done].
    destruct (pop_parents_nearest (store st) 0 (length (store st))
                ltac:(intros; by simplify_eq) (built_parent _ Hb) _ _ _ Hpop)
      as (_ & tp & Htp & Hlt & _); [intros; lia|].
    pose proof (built_level_nonneg st p tp Hb Htp). lia. }
  split; [done|].
  unfold enter. rewrite nodeTaskLevel_spec, Hl. cbn [mbind option_bind].
  destruct (bulletNodeDuration _); [|done]. cbn [mbind option_bind].
  by rewrite Hpop.
Qed.

Lemma for_of_fails {S A : Type} (P : S → Prop) (body : S → A → option S) a :
  (∀ s a s', P s → body s a = Some s' → P s') →
  (∀ s, P s → body s a = None) →
  ∀ l1 l2 s, P s → for_of body s (l1 ++ a :: l2) = None.
Proof.
  intros Hinv Hfail l1 l2 s Hs. rewrite for_of_app.
  destruct (for_of body s l1) as [s1|] eqn:H1; [|done]. cbn [mbind option_bind for_of].
  rewrite Hfail; [done|]. by eapply for_of_invariant.
Qed.


(** ** What the aggregation returns *)

Lemma setTasksDuration_resolved fuel h l :
  (0 < fuel)%nat → (∀ r, r ∈ l → resolved h r) →
  setTasksDuration fuel h l = Some (h, summed h zeroDuration l).
Proof.
  intros Hfuel. destruct fuel as [|n]; [lia|]. cbn [setTasksDuration].
  generalize zeroDuration. induction l as [|r l IH]; intros acc Hl; [done|].
  cbn [for_of]. destruct (Hl r ltac:(by left)) as (t & d & Ht & Hd).
  assert (setTasksDuration_body (setTasksDuration n) (h, acc) r
          = Some (h, sumDurations acc d)) as ->
    by (unfold setTasksDuration_body; rewrite Ht; cbn [mbind option_bind];
        by rewrite Hd).
  cbn [mbind option_bind]. rewrite summed_cons.
  assert (task_duration h r = d) as ->
    by (unfold task_duration; by rewrite Ht, Hd).
  apply IH. intros r' Hr'. apply Hl. by right.
Qed.

Lemma built_aggregated st root h' total :
  built st → store st !! O = Some root →
  setTasksDuration (length (store st)) (store st) (children root) = Some (h', total) →
  h' !! O = Some root
  ∧ total = normalize (total_minutes h' (children root))
  ∧ (∀ r, r ∈ children root → resolved h' r)
  ∧ nonnegative h' ∧ length h' = length (store st).
Proof.
  intros Hb Hroot Hagg.
  destruct (setTasksDuration_sums _ _ _ 1 _ _
              ltac:(intros r t c; apply (built_children _ Hb))
              ltac:(intros c Hc;
                    pose proof (built_children _ Hb O root c Hroot Hc); lia)
              Hagg) as (Hun & Htotal & Htop & _).
  destruct (setTasksDuration_nonnegative _ _ _ _ _ (built_nonnegative _ Hb) Hagg)
    as [Hnn _].
  pose proof (setTasksDuration_fills _ _ _ _ _ Hagg)
    as [Hlen _]%Forall2_same_length_lookup.
  split; [by rewrite Hun by lia|]. split; [|done].
  rewrite Htotal. change zeroDuration with (normalize 0).
  by rewrite summed_normalize.
Qed.

(** On a built store [setTasksDuration] returns the minutes of the
    top-level tasks added up, as hours and minutes below 60; the root
    itself is left as it was, without a duration. *)
Theorem setTasksDuration_returns_total (doc : list N)
    (visibleRanges : list (list SyntaxNodeRef)) (st : BuildState) :
  buildTasks doc visibleRanges = Some st →
  ∃ root h' total,
    store st !! O = Some root
    ∧ setTasksDuration (length (store st)) (store st) (children root)
      = Some (h', total)
    ∧ total = normalize (total_minutes h' (children root))
    ∧ hours total * 60 + minutes total = total_minutes h' (children root)
    ∧ 0 ≤ hours total ∧ 0 ≤ minutes total ≤ 59
    ∧ h' !! O = Some root ∧ duration root = None.
Proof.
  intros Hb%buildTasks_built.
  destruct (built_setTasksDuration st Hb) as (root & h' & total & Hroot & Hagg).
  destruct (built_aggregated _ _ _ _ Hb Hroot Hagg) as (Hr' & -> & _ & Hnn & _).
  exists root, h', (normalize (total_minutes h' (children root))).
  pose proof (total_minutes_nonneg h' (children root) Hnn) as Hpos.
  destruct (normalize_spec _ Hpos) as (Hsum & Hmin & Hh).
  split; [done|]. split; [done|]. split; [done|]. cbn [normalize hours minutes].
  split; [lia|]. split; [done|]. split; [done|]. split; [done|].
  destruct (built_root _ Hb) as (t0 & Ht0 & _ & _ & Hd0). by simplify_eq.
Qed.

Lemma setTasksDuration_returns_total_witness :
  ∃ root h' total,
    store scenario_state !! O = Some root
    ∧ setTasksDuration (length (store scenario_state)) (store scenario_state)
        (children root) = Some (h', total)
    ∧ total = normalize (total_minutes h' (children root))
    ∧ hours total * 60 + minutes total = total_minutes h' (children root)
    ∧ 0 ≤ hours total ∧ 0 ≤ minutes total ≤ 59
    ∧ h' !! O = Some root ∧ duration root = None.
Proof.
  apply (setTasksDuration_returns_total scenario_doc scenario_nodes).
  vm_compute. reflexivity.
Defined.

(** Aggregating a second time changes nothing: on the store that the
    aggregation of a built store has produced, [setTasksDuration] returns
    the same store and the same total. *)
Theorem setTasksDuration_idempotent (doc : list N)
    (visibleRanges : list (list SyntaxNodeRef)) (st : BuildState) :
  buildTasks doc visibleRanges = Some st →
  ∃ root h' total,
    store st !! O = Some root
    ∧ setTasksDuration (length (store st)) (store st) (children root)
      = Some (h', total)
    ∧ setTasksDuration (length h') h' (children root) = Some (h', total).
Proof.
  intros Hb%buildTasks_built.
  destruct (built_setTasksDuration st Hb) as (root & h' & total & Hroot & Hagg).
  exists root, h', total. split; [done|]. split; [done|].
  destruct (setTasksDuration_sums _ _ _ 1 _ _
              ltac:(intros r t c; apply (built_children _ Hb))
              ltac:(intros c Hc;
                    pose proof (built_children _ Hb O root c Hroot Hc); lia)
              Hagg) as (_ & -> & Htop & _).
  pose proof (setTasksDuration_fills _ _ _ _ _ Hagg)
    as [Hlen _]%Forall2_same_length_lookup.
  apply setTasksDuration_resolved; [|done].
  rewrite <- Hlen. by eapply lookup_lt_Some.
Qed.

Lemma setTasksDuration_idempotent_witness :
  ∃ root h' total,
    store scenario_state !! O = Some root
    ∧ setTasksDuration (length (store scenario_state)) (store scenario_state)
        (children root) = Some (h', total)
    ∧ setTasksDuration (length h') h' (children root) = Some (h', total).
Proof.
  apply (setTasksDuration_idempotent scenario_doc scenario_nodes).
  vm_compute. reflexivity.
Defined.

(** ** The duration on any text *)

Lemma is_line_first_line s : is_line (first_line s) = true.
Proof.
  induction s as [|a s IH]; [done|]. cbn [first_line].
  destruct (is_line_terminator a) eqn:Ha; [done|]. by apply is_line_cons.
Qed.

Lemma first_line_line s : is_line s = true → first_line s = s.
Proof.
  induction s as [|a s IH]; [done|]. intros [Ha Hs]%is_line_cons.
  cbn [first_line]. rewrite Ha. f_equal. by apply IH.
Qed.

Lemma is_digit_not_terminator c : is_digit c = true → is_line_terminator c = false.
Proof.
  intros H%is_digit_range. unfold is_line_terminator.
  rewrite !orb_false_iff, !N.eqb_neq. lia.
Qed.

Lemma clock_time_is_line t : clock_time t = true → is_line t = true.
Proof.
  intros (a & b & d & e & -> & Ha & Hb & Hd & He)%clock_time_inv.
  unfold is_line. cbn [forallb].
  rewrite (is_digit_not_terminator a), (is_digit_not_terminator b),
    (is_digit_not_terminator d), (is_digit_not_terminator e) by done.
  done.
Qed.

Lemma first_line_app_line t s :
  is_line t = true → first_line (t ++ s) = t ++ first_line s.
Proof.
  induction t as [|a t IH]; [done|]. intros [Ha Ht]%is_line_cons.
  cbn [app first_line]. rewrite Ha. f_equal. by apply IH.
Qed.

(** A clock time at the start of a text lies in its first line. *)
Lemma clock_time_first_line s :
  clock_time (take 5 (first_line s)) = clock_time (take 5 s)
  ∧ (clock_time (take 5 s) = true →
     take 5 (first_line s) = take 5 s
     ∧ first_line (drop 5 s) = drop 5 (first_line s)).
Proof.
  destruct (clock_time (take 5 s)) eqn:E.
  - pose proof (clock_time_is_line _ E) as Hl.
    pose proof (clock_time_length _ E) as H5.
    assert (first_line s = take 5 s ++ first_line (drop 5 s)) as ->
      by (by rewrite <- first_line_app_line, take_drop).
    rewrite take_app_length', drop_app_length' by done.
    by rewrite E.
  - split; [|done]. destruct (clock_time (take 5 (first_line s))) eqn:E'; [|done].
    pose proof (clock_time_length _ E') as H5. rewrite length_take in H5.
    exfalso. revert E E' H5. clear.
    assert (∀ n, (n ≤ length (first_line s))%nat →
                 take n (first_line s) = take n s) as Htake.
    { induction s as [|a s IH]; intros n Hn; [done|]. cbn [first_line] in *.
      destruct (is_line_terminator a); cbn [length] in Hn.
      - by replace n with O by lia.
      - destruct n as [|n]; [done|]. cbn. f_equal. apply IH. lia. }
    intros E E' H5. rewrite Htake in E' by lia. congruence.
Qed.

Lemma first_line_length s : (length (first_line s) ≤ length s)%nat.
Proof.
  induction s as [|a s IH]; [done|]. cbn [first_line].
  destruct (is_line_terminator a); cbn; lia.
Qed.

(** A greedy [.*] runs to the end of the first line. *)
Lemma greedy_dot_first_line s i caps c z :
  c (mk (i + length (first_line s))%nat (drop (length (first_line s)) s) caps)
  = Some z →
  repeat_matcher (matcher dot) true (length s) (mk i s caps) c = Some z.
Proof.
  revert i. induction s as [|a s IH]; intros i Hc.
  - rewrite repeat_Char_stop by done. by rewrite Nat.add_0_r in Hc.
  - cbn [first_line] in Hc. destruct (is_line_terminator a) eqn:Ha.
    + rewrite repeat_Char_stop by (by rewrite Ha).
      cbn in Hc. by rewrite Nat.add_0_r in Hc.
    + cbn [length]. rewrite repeat_Char_step by (by rewrite Ha). cbn zeta.
      rewrite (IH (S i)); [done|]. cbn [length drop] in Hc.
      by replace (S i + length (first_line s))%nat
        with (i + S (length (first_line s)))%nat by lia.
Qed.

Lemma matcher_second_time_any s i caps :
  matcher (Star false dot ⋅ Group 2 HHMM ⋅ Star true dot) (mk i s caps) Some
  = '(_, t) ← find_token (first_line s);
    Some (mk (i + length (first_line s))%nat (drop (length (first_line s)) s)
            (<[2%nat := Some t]> caps)).
Proof.
  rewrite matcher_Seq, matcher_Star.
  revert i. induction s as [|a s IH]; intros i.
  - rewrite repeat_Char_stop by done. by rewrite matcher_Seq, matcher_Group_HHMM.
  - destruct (clock_time_first_line (a :: s)) as [Hct Hfl].
    cbn [first_line] in *. destruct (is_line_terminator a) eqn:Ha.
    + rewrite repeat_Char_stop by (by rewrite Ha).
      rewrite matcher_Seq, matcher_Group_HHMM, <- Hct. done.
    + cbn [length]. rewrite repeat_Char_step by (by rewrite Ha). cbn zeta.
      rewrite matcher_Seq, matcher_Group_HHMM. cbn [find_token].
      rewrite Hct. destruct (clock_time (take 5 (a :: s))) eqn:E.
      * destruct (Hfl eq_refl) as [Ht Hd]. cbn [mbind option_bind].
        rewrite matcher_Star.
        erewrite greedy_dot_first_line; [reflexivity|].
        rewrite Ht. f_equal. pose proof (clock_time_take_length _ E) as H5.
        pose proof (clock_time_length _ E) as H5'. rewrite <- Ht in H5'.
        rewrite length_take in H5'. cbn [length] in *.
        rewrite Hd, length_drop, drop_drop. cbn [length]. f_equal; [lia|].
        f_equal. lia.
      * rewrite IH. destruct (find_token (first_line s)) as [[k t]|]; [|done].
        cbn. do 2 f_equal. lia.
Qed.

Lemma matcher_two_times_any s i caps :
  matcher (Star false dot ⋅ Group 1 HHMM ⋅ Star false dot ⋅ Group 2 HHMM
           ⋅ Star true dot) (mk i s caps) Some
  = '(k, t1) ← find_token (first_line s);
    '(_, t2) ← find_token (drop (k + 5) (first_line s));
    Some (mk (i + length (first_line s))%nat (drop (length (first_line s)) s)
            (<[2%nat := Some t2]> (<[1%nat := Some t1]> caps))).
Proof.
  rewrite matcher_Seq, matcher_Star.
  revert i. induction s as [|a s IH]; intros i.
  - rewrite repeat_Char_stop by done. by rewrite matcher_Seq, matcher_Group_HHMM.
  - destruct (clock_time_first_line (a :: s)) as [Hct Hfl].
    cbn [first_line] in *. destruct (is_line_terminator a) eqn:Ha.
    + rewrite repeat_Char_stop by (by rewrite Ha).
      rewrite matcher_Seq, matcher_Group_HHMM, <- Hct. done.
    + cbn [length]. rewrite repeat_Char_step by (by rewrite Ha). cbn zeta.
      rewrite matcher_Seq, matcher_Group_HHMM. cbn [find_token].
      rewrite Hct. destruct (clock_time (take 5 (a :: s))) eqn:E.
      * destruct (Hfl eq_refl) as [Ht Hd].
        rewrite matcher_second_time_any. cbn [mbind option_bind Nat.add].
        rewrite Hd, Ht.
        pose proof (clock_time_take_length _ E) as H5.
        pose proof (clock_time_length _ E) as H5'. rewrite <- Ht in H5'.
        rewrite length_take in H5'. cbn [length] in *.
        destruct (find_token (drop 5 (a :: first_line s))) as [[k2 t2]|] eqn:Hf.
        -- cbn. rewrite length_drop, drop_drop. cbn [length].
           do 2 f_equal; [lia|]. f_equal. lia.
        -- rewrite IH. cbn [drop] in Hf.
           destruct (find_token (first_line s)) as [[k t1]|]; [|done]. cbn.
           replace (drop (k + 5) (first_line s))
             with (drop (S k) (drop 4 (first_line s)))
             by (rewrite drop_drop; f_equal; lia).
           by rewrite find_token_None_drop.
      * rewrite IH. destruct (find_token (first_line s)) as [[k t1]|]; [|done].
        cbn. destruct (find_token (drop (k + 5) (first_line s))) as [[k2 t2]|];
          [|done].
        cbn. do 2 f_equal. lia.
Qed.

Lemma first_line_take s : take (length (first_line s)) s = first_line s.
Proof.
  induction s as [|a s IH]; [done|]. cbn [first_line].
  destruct (is_line_terminator a); [done|]. cbn. by f_equal.
Qed.

Lemma exec_timeRangeRx_any s :
  exec timeRangeRx 2 s
  = '(t1, t2) ← two_clock_times (first_line s);
    Some {| index := O; array := [Some (first_line s); Some t1; Some t2] |}.
Proof.
  unfold timeRangeRx. rewrite exec_Bol, matcher_two_times_any.
  unfold two_clock_times.
  destruct (find_token (first_line s)) as [[k t1]|]; [|done]. cbn.
  destruct (find_token (drop (k + 5) (first_line s))) as [[k2 t2]|]; [|done].
  cbn. by rewrite first_line_take.
Qed.

(** On any text the duration of a bullet is read off the first line of
    the text: it is [null] when that line does not hold two clock times,
    and otherwise the difference of the first clock time of the line and
    of the first one after it.  What follows a line terminator (LF, CR,
    U+2028, U+2029) is not looked at. *)
Theorem bulletNodeDuration_first_line (s : list N) :
  bulletNodeDuration s = bulletNodeDuration (first_line s)
  ∧ bulletNodeDuration s
    = match two_clock_times (first_line s) with
      | Some (time1, time2) => Some <$> diffDuration time1 time2
      | None => Some None
      end
  ∧ (∀ tail, bulletNodeDuration (first_line s ++ 10%N :: tail)
             = bulletNodeDuration (first_line s)).
Proof.
  assert (∀ s, bulletNodeDuration s
               = match two_clock_times (first_line s) with
                 | Some (time1, time2) => Some <$> diffDuration time1 time2
                 | None => Some None
                 end) as Hany.
  { intros s'. unfold bulletNodeDuration. rewrite exec_timeRangeRx_any.
    by destruct (two_clock_times (first_line s')) as [[t1 t2]|]. }
  assert (first_line (first_line s) = first_line s) as Hff
    by apply first_line_line, is_line_first_line.
  split; [by rewrite (Hany s), (Hany (first_line s)), Hff|].
  split; [apply Hany|].
  intros tail. rewrite (Hany (first_line s)), Hany, Hff.
  rewrite first_line_app_line by apply is_line_first_line.
  cbn [first_line is_line_terminator N.eqb orb]. cbn. by rewrite app_nil_r.
Qed.

(** ** The order of the tasks *)

Lemma for_of_refs_acc recur h l acc :
  for_of (preorder_refs_body recur h) acc l
  = (acc ++.) <$> for_of (preorder_refs_body recur h) [] l.
Proof.
  revert acc. induction l as [|r l IH]; intros acc; cbn [for_of].
  - cbn. by rewrite app_nil_r.
  - assert (∀ a, preorder_refs_body recur h a r
                 = t ← h !! r; sub ← recur (children t); Some (a ++ r :: sub))
      as Hbody by done.
    rewrite !Hbody. destruct (h !! r) as [t|]; [|done].
    cbn [mbind option_bind]. destruct (recur (children t)) as [sub|]; [|done].
    cbn [mbind option_bind]. rewrite IH, (IH ([] ++ r :: sub)).
    destruct (for_of _ [] l) as [x|]; [|done]. cbn. by rewrite <- app_assoc.
Qed.

Lemma preorder_refs_cons n h r l :
  preorder_refs (S n) h (r :: l)
  = t ← h !! r; sub ← preorder_refs n h (children t);
    rest ← preorder_refs (S n) h l; Some (r :: sub ++ rest).
Proof.
  cbn [preorder_refs for_of]. unfold preorder_refs_body at 2.
  destruct (h !! r) as [t|]; [|done]. cbn [mbind option_bind].
  destruct (preorder_refs n h (children t)) as [sub|]; [|done].
  cbn [mbind option_bind]. rewrite for_of_refs_acc.
  by destruct (for_of _ [] l).
Qed.

Lemma preorder_refs_app n h l1 l2 :
  preorder_refs (S n) h (l1 ++ l2)
  = a ← preorder_refs (S n) h l1; b ← preorder_refs (S n) h l2; Some (a ++ b).
Proof.
  induction l1 as [|r l1 IH].
  - cbn [app]. change (preorder_refs (S n) h []) with (Some (@nil nat)).
    cbn [mbind option_bind]. by destruct (preorder_refs (S n) h l2).
  - cbn [app]. rewrite !preorder_refs_cons, IH.
    destruct (h !! r) as [t|]; [|done]. cbn [mbind option_bind].
    destruct (preorder_refs n h (children t)) as [sub|]; [|done].
    cbn [mbind option_bind].
    destruct (preorder_refs (S n) h l1) as [a|]; [|done].
    cbn [mbind option_bind].
    destruct (preorder_refs (S n) h l2) as [b|]; [|done].
    cbn. by rewrite <- app_assoc.
Qed.

Lemma preorder_refs_mono n m h l rs :
  preorder_refs n h l = Some rs → (n ≤ m)%nat → preorder_refs m h l = Some rs.
Proof.
  revert m l rs. induction n as [|n IH]; intros m l rs; [done|].
  intros H Hm. destruct m as [|m]; [lia|]. revert rs H.
  induction l as [|r l IHl]; intros rs; [done|].
  rewrite !preorder_refs_cons. destruct (h !! r) as [t|]; [|done].
  cbn [mbind option_bind].
  destruct (preorder_refs n h (children t)) as [sub|] eqn:Hsub; [|done].
  rewrite (IH m _ _ Hsub) by lia. cbn [mbind option_bind].
  destruct (preorder_refs (S n) h l) as [rest|]; [|done].
  by rewrite (IHl rest).
Qed.

(** The walk depends on the children of the tasks that it meets only. *)
Lemma preorder_refs_agree n h h' l rs :
  preorder_refs n h l = Some rs →
  (∀ r, r ∈ rs → children <$> h' !! r = children <$> h !! r) →
  preorder_refs n h' l = Some rs.
Proof.
  revert l rs. induction n as [|n IH]; intros l rs; [done|].
  revert rs. induction l as [|r l IHl]; intros rs; [done|].
  rewrite !preorder_refs_cons. destruct (h !! r) as [t|] eqn:Ht; [|done].
  cbn [mbind option_bind].
  destruct (preorder_refs n h (children t)) as [sub|] eqn:Hsub; [|done].
  cbn [mbind option_bind].
  destruct (preorder_refs (S n) h l) as [rest|] eqn:Hrest; [|done].
  cbn [mbind option_bind]. intros [= <-] Hag.
  pose proof (Hag r ltac:(by left)) as Hr. rewrite Ht in Hr.
  destruct (h' !! r) as [t'|]; [|done]. cbn in Hr. injection Hr as Hr.
  cbn [mbind option_bind]. rewrite Hr.
  rewrite (IH _ _ Hsub)
    by (intros q Hq; apply Hag; right; apply elem_of_app; by left).
  cbn [mbind option_bind].
  rewrite (IHl rest eq_refl)
    by (intros q Hq; apply Hag; right; apply elem_of_app; by right).
  done.
Qed.

(** The tasks in pre-order are the tasks at the references in pre-order. *)
Lemma preorder_of_refs n h l rs :
  preorder_refs n h l = Some rs →
  ∃ ts, preorder n h l = Some ts ∧ Forall2 (λ r t, h !! r = Some t) rs ts.
Proof.
  revert l rs. induction n as [|n IH]; intros l rs; [done|].
  revert rs. induction l as [|r l IHl]; intros rs.
  - intros [= <-]. by exists [].
  - rewrite preorder_refs_cons, preorder_cons.
    destruct (h !! r) as [t|] eqn:Ht; [|done]. cbn [mbind option_bind].
    destruct (preorder_refs n h (children t)) as [sub|] eqn:Hsub; [|done].
    cbn [mbind option_bind].
    destruct (preorder_refs (S n) h l) as [rest|] eqn:Hrest; [|done].
    cbn [mbind option_bind]. intros [= <-].
    destruct (IH _ _ Hsub) as (ts1 & -> & H1).
    destruct (IHl rest eq_refl) as (ts2 & -> & H2).
    cbn [mbind option_bind]. eexists. split; [done|].
    constructor; [done|]. by apply Forall2_app.
Qed.

Lemma lookup_seq_drop (h ts : list TimedTask) a k :
  Forall2 (λ r t, h !! r = Some t) (seq a k) ts → (a + k = length h)%nat →
  ts = drop a h.
Proof.
  revert a ts. induction k as [|k IH]; intros a ts; cbn [seq].
  - intros ->%Forall2_nil_inv_l Ha. by rewrite drop_ge by lia.
  - intros (t & ts' & Ht & Hts & ->)%Forall2_cons_inv_l Ha.
    rewrite (drop_S _ _ _ Ht). f_equal. apply IH; [done|lia].
Qed.

Lemma spine_to_end h c : spine h c → to_end h c.
Proof. by destruct 1. Qed.

Lemma to_end_singleton h b fuel :
  to_end h b → (length h - b < fuel)%nat →
  preorder_refs fuel h [b] = Some (seq b (length h - b)).
Proof.
  intros (t & Ht & Hsub) Hfuel. destruct fuel as [|k]; [lia|].
  rewrite preorder_refs_cons, Ht. cbn [mbind option_bind].
  rewrite (preorder_refs_mono _ k _ _ _ Hsub) by lia. cbn.
  pose proof (lookup_lt_Some _ _ _ Ht).
  rewrite app_nil_r. by replace (length h - b)%nat with (S (length h - S b)) by lia.
Qed.

Lemma pop_parents_spine h l fuel c p :
  spine h c → pop_parents fuel h (Some c) l = Some (Some p) → spine h p.
Proof.
  revert c. induction fuel as [|fuel IH]; intros c Hc;
    rewrite pop_parents_Some; intros Hpop;
    apply bind_Some in Hpop as (t & Ht & Hpop);
    destruct (l <=? level t); try done; try by simplify_eq.
  destruct Hc as [t0 Ht0 Hp0 _|c t' p' tp init Ht' Hp' _ _ _ _ Hsp];
    simplify_eq.
  - rewrite Hp0, pop_parents_None in Hpop. done.
  - rewrite Hp' in Hpop. by eapply IH.
Qed.

Section push.
Variables (h h' : list TimedTask) (p : nat).
Hypothesis Hlen : length h' = S (length h).
Hypothesis Hbelow : ∀ r, (r < p)%nat → h' !! r = h !! r.
Hypothesis Hparent :
∀ t, h !! p = Some t → ∃ t', h' !! p = Some t' ∧ parent t' = parent t.

(** A new last task keeps the spine above its parent. *)
Lemma spine_push b :
spine h b → (b ≤ p)%nat → to_end h' b → spine h' b.
Proof.
assert (∀ r t, (r ≤ p)%nat → h !! r = Some t →
               ∃ t', h' !! r = Some t' ∧ parent t' = parent t) as Hpar.
{ intros r t Hr Ht. destruct (decide (r = p)) as [->|Hne]; [by apply Hparent|].
  exists t. by rewrite Hbelow by lia. }
induction 1 as [t Ht Hp0 _|c t pa tpa init Hc Hpc Hpa Hlt Hch Hend Hsp IH];
  intros Hle Hend'.
- destruct (Hpar _ _ Hle Ht) as (t' & Ht' & Hp').
  apply (spine_root h' t'); [done|congruence|done].
- destruct (Hpar _ _ Hle Hc) as (t' & Ht' & Hp').
  assert (h' !! pa = Some tpa) as Hpa' by (by rewrite Hbelow by lia).
  apply (spine_child h' c t' pa tpa init); [done|congruence|done|done|done|done|].
  apply IH; [lia|]. exists tpa. split; [done|].
  pose proof (lookup_lt_Some _ _ _ Hc) as Hcn.
  destruct (spine_to_end _ _ Hsp) as (tpa2 & Hpa2 & Hsub). simplify_eq.
  rewrite Hch in Hsub |- *. rewrite Hlen.
  replace (length h - pa)%nat with (S (length h - S pa)) in Hsub by lia.
  replace (S (length h) - pa)%nat with (S (S (length h - S pa))) by lia.
  rewrite preorder_refs_app in Hsub |- *.
  destruct (preorder_refs _ h init) as [x|] eqn:Hx; [|done].
  cbn [mbind option_bind] in Hsub.
  rewrite (to_end_singleton h c) in Hsub by (done || lia).
  cbn [mbind option_bind] in Hsub. injection Hsub as Hsub.
  assert (x = seq (S pa) (c - S pa)) as ->.
  { apply (app_inv_tail (seq c (length h - c))). rewrite Hsub.
    replace (seq c (length h - c))
      with (seq (S pa + (c - S pa)) (length h - c)) by (f_equal; lia).
    rewrite <- seq_app. f_equal. lia. }
  rewrite (preorder_refs_mono (S (length h - S pa)) _ h' init
             (seq (S pa) (c - S pa))); [|  |lia].
  + cbn [mbind option_bind].
    rewrite (to_end_singleton h' c) by (done || lia). cbn [mbind option_bind].
    rewrite Hlen. f_equal.
    replace (seq c (S (length h) - c))
      with (seq (S pa + (c - S pa)) (S (length h) - c)) by (f_equal; lia).
    rewrite <- seq_app. f_equal. lia.
  + eapply preorder_refs_agree; [done|]. intros r Hr%elem_of_seq.
    rewrite Hbelow; [done|lia].
Qed.
End push.

Lemma spine_initial : spine (store initial) O.
Proof.
  eapply spine_root; [done|done|]. by exists rootTask.
Qed.

Lemma enter_spine doc st node st' c :
  currentParent st = Some c → spine (store st) c →
  enter doc st node = Some st' →
  ∃ c', currentParent st' = Some c' ∧ spine (store st') c'.
Proof.
  intros Hcur Hsp [[_ ->]|He]%enter_Some; [by exists c|].
  destruct He as (l & dur & p & tp & _ & _ & Hpop & Hp & ->).
  cbn [store currentParent]. eexists. split; [done|].
  rewrite Hcur in Hpop. apply pop_parents_spine in Hpop; [|done].
  set (h := store st) in *. set (new := new_task doc node l dur p).
  pose proof (lookup_lt_Some _ _ _ Hp) as Hlt.
  pose proof (new_store_length h p tp new) as Hlen.
  pose proof (new_store_last h p tp new) as Hlast.
  assert (∀ r, r ≠ p → (r < length h)%nat →
               (<[p := push_child (length h) tp]> h ++ [new]) !! r = h !! r)
    as Hother.
  { intros r Hne Hr. rewrite lookup_app_l by (by rewrite length_insert).
    by rewrite list_lookup_insert_ne. }
  assert ((<[p := push_child (length h) tp]> h ++ [new]) !! p
          = Some (push_child (length h) tp)) as Hp'.
  { rewrite lookup_app_l by (by rewrite length_insert).
    by rewrite list_lookup_insert_eq. }
  assert (to_end (<[p := push_child (length h) tp]> h ++ [new]) (length h))
    as Hnew.
  { exists new. split; [done|]. rewrite Hlen.
    replace (S (length h) - length h)%nat with 1%nat by lia.
    by replace (S (length h) - S (length h))%nat with 0%nat by lia. }
  assert (to_end (<[p := push_child (length h) tp]> h ++ [new]) p) as Hend.
  { exists (push_child (length h) tp). split; [done|]. rewrite Hlen.
    destruct (spine_to_end _ _ Hpop) as (tp2 & Hp2 & Hsub). simplify_eq.
    cbn [push_child children].
    replace (S (length h) - p)%nat with (S (length h - p)) by lia.
    rewrite preorder_refs_app.
    rewrite (preorder_refs_mono (length h - p) _ _ (children tp)
               (seq (S p) (length h - S p))); [| |lia].
    - cbn [mbind option_bind].
      replace (S (length h - p))%nat with (S (S (length h - S p))) by lia.
      rewrite preorder_refs_cons, Hlast. cbn.
      f_equal. replace (length h - p)%nat with (S (length h - S p)) by lia.
      rewrite seq_S. do 2 f_equal. lia.
    - eapply preorder_refs_agree; [done|]. intros r Hr%elem_of_seq.
      rewrite Hother; [done|lia|lia]. }
  eapply spine_child; [done|done|done|done|done|done|].
  eapply (spine_push h); [done| | |done|done|done].
  - intros r Hr. apply Hother; lia.
  - intros t Ht. simplify_eq. by eexists.
Qed.

Lemma buildTasks_spine doc visibleRanges st :
  buildTasks doc visibleRanges = Some st →
  ∃ c, currentParent st = Some c ∧ spine (store st) c.
Proof.
  rewrite buildTasks_concat.
  apply for_of_invariant
    with (P := λ st, ∃ c, currentParent st = Some c ∧ spine (store st) c).
  - intros s a s' (c & Hc & Hsp) Ha. by eapply enter_spine.
  - exists O. split; [done|]. apply spine_initial.
Qed.

Lemma spine_to_end_root h c : spine h c → to_end h O.
Proof. induction 1; [done|]. done. Qed.

(** The tasks of a store with a spine are, in pre-order, the tasks in the
    order of the store; a store that differs in durations only has the
    same. *)
Lemma spine_preorder h h' c root' :
  spine h c → Forall2 fills h h' → h' !! O = Some root' →
  preorder (length h') h' (children root') = Some (drop 1 h').
Proof.
  intros Hsp [Hlen Hfill]%Forall2_same_length_lookup Hroot'.
  destruct (spine_to_end_root _ _ Hsp) as (root & Hroot & Hrefs).
  destruct (Hfill O root root' Hroot Hroot') as (_ & _ & _ & _ & Hch & _).
  rewrite Nat.sub_0_r, <- Hch, Hlen in Hrefs.
  apply (preorder_refs_agree _ _ h') in Hrefs.
  - destruct (preorder_of_refs _ _ _ _ Hrefs) as (ts & -> & Hts).
    f_equal. eapply lookup_seq_drop; [done|].
    pose proof (lookup_lt_Some _ _ _ Hroot'). lia.
  - intros r [_ Hr]%elem_of_seq. pose proof (lookup_lt_Some _ _ _ Hroot').
    destruct (lookup_lt_is_Some_2 h r) as [t Ht]; [lia|].
    destruct (lookup_lt_is_Some_2 h' r) as [t' Ht']; [lia|].
    destruct (Hfill r t t' Ht Ht') as (_ & _ & _ & _ & Hch' & _).
    rewrite Ht, Ht'. cbn. by f_equal.
Qed.

Lemma buildDecorations_emitted doc visibleRanges st :
  buildTasks doc visibleRanges = Some st →
  ∃ root h' total,
    store st !! O = Some root
    ∧ setTasksDuration (length (store st)) (store st) (children root)
      = Some (h', total)
    ∧ buildDecorations doc visibleRanges
      = finish <$> add_ranges RangeSetBuilder_new (drop 1 h' ≫= emitted).
Proof.
  intros Hst. pose proof (buildTasks_built _ _ _ Hst) as Hb.
  destruct (buildTasks_spine _ _ _ Hst) as (c & _ & Hsp).
  destruct (built_setTasksDuration st Hb) as (root & h' & total & Hroot & Hagg).
  exists root, h', total. split; [done|]. split; [done|].
  unfold buildDecorations. rewrite Hst. cbn [mbind option_bind].
  rewrite Hroot. cbn [mbind option_bind]. rewrite Hagg. cbn [mbind option_bind].
  pose proof (setTasksDuration_fills _ _ _ _ _ Hagg) as F.
  pose proof F as [Hlen _]%Forall2_same_length_lookup.
  destruct (lookup_lt_is_Some_2 h' O) as [root' Hroot'];
    [rewrite <- Hlen; by eapply lookup_lt_Some|].
  rewrite Hroot'. cbn [mbind option_bind].
  rewrite displayDurations_preorder, (spine_preorder _ _ _ _ Hsp F Hroot').
  cbn [mbind option_bind]. by destruct (add_ranges _ _).
Qed.

(** What [buildDecorations] returns, when it returns. *)
Lemma buildDecorations_Some doc visibleRanges out :
  buildDecorations doc visibleRanges = Some out →
  ∃ st root h' total,
    buildTasks doc visibleRanges = Some st
    ∧ store st !! O = Some root
    ∧ setTasksDuration (length (store st)) (store st) (children root)
      = Some (h', total)
    ∧ out = drop 1 h' ≫= emitted.
Proof.
  intros Hout.
  destruct (buildTasks doc visibleRanges) as [st|] eqn:Hst;
    [|unfold buildDecorations in Hout; by rewrite Hst in Hout].
  destruct (buildDecorations_emitted _ _ _ Hst)
    as (root & h' & total & Hroot & Hagg & Hout').
  rewrite Hout' in Hout. exists st, root, h', total.
  split; [done|]. split; [done|]. split; [done|].
  destruct (add_ranges _ _) as [b|] eqn:Hb; [|done].
  injection Hout as <-. apply add_ranges_added in Hb. unfold finish.
  by rewrite Hb.
Qed.

(** The forest that the tree builder makes lists, in pre-order, the tasks
    in the order in which their nodes were entered, whatever their
    levels.  So [buildDecorations] adds the instructions to the builder
    task by task in the order of the stream of nodes: for each task its
    highlight, if it has one, then its label, if its duration after the
    aggregation is present and not [{0, 0}]; it returns these
    instructions if the builder takes them all, and throws with the
    builder otherwise. *)
Theorem buildDecorations_stream_order (doc : list N)
    (visibleRanges : list (list SyntaxNodeRef)) :
  buildDecorations doc visibleRanges
  = (st ← buildTasks doc visibleRanges;
     root ← store st !! O;
     '(h', _) ← setTasksDuration (length (store st)) (store st) (children root);
     finish <$> add_ranges RangeSetBuilder_new (drop 1 h' ≫= emitted))
  ∧ (∀ out, buildDecorations doc visibleRanges = Some out →
       ∃ st root h' total,
         buildTasks doc visibleRanges = Some st
         ∧ store st !! O = Some root
         ∧ setTasksDuration (length (store st)) (store st) (children root)
           = Some (h', total)
         ∧ out = drop 1 h' ≫= emitted)
  ∧ (∀ st, buildTasks doc visibleRanges = Some st →
       ∃ root, store st !! O = Some root
               ∧ preorder (length (store st)) (store st) (children root)
                 = Some (drop 1 (store st))).
Proof.
  split; [|split].
  - destruct (buildTasks doc visibleRanges) as [st|] eqn:Hst.
    + destruct (buildDecorations_emitted _ _ _ Hst)
        as (root & h' & total & Hroot & Hagg & ->).
      cbn [mbind option_bind]. rewrite Hroot. cbn [mbind option_bind].
      by rewrite Hagg.
    + unfold buildDecorations. by rewrite Hst.
  - apply buildDecorations_Some.
  - intros st Hst. destruct (buildTasks_spine _ _ _ Hst) as (c & _ & Hsp).
    destruct (built_root _ (buildTasks_built _ _ _ Hst)) as (root & Hroot & _).
    exists root. split; [done|].
    by apply (spine_preorder _ _ _ _ Hsp (Forall2_fills_refl _)).
Qed.

(** ** Instructions in the order of the document *)

Lemma offsets_fills t t' : fills t t' → offsets t' = offsets t.
Proof. intros (_ & Hpos & Hmark & _). unfold offsets. by rewrite Hpos, Hmark. Qed.

(** What the task of a node holds of the node, also after the
    aggregation. *)
Lemma built_tasks_of_nodes doc visibleRanges st h' :
  buildTasks doc visibleRanges = Some st → Forall2 fills (store st) h' →
  Forall2 (λ t node,
             position t = node_to node
             ∧ markPos t = bulletNodeMarkPos (node_from node)
                             (sliceDoc doc (node_from node) (node_to node))
             ∧ ∀ d, bulletNodeDuration
                      (sliceDoc doc (node_from node) (node_to node))
                    = Some (Some d) → duration t = Some d)
    (drop 1 h') (task_nodes (concat visibleRanges)).
Proof.
  rewrite buildTasks_concat. intros H%for_of_enter_task_fields F.
  apply (f_equal (drop 1)) in H. rewrite <- fmap_drop in H. cbn in H.
  rewrite drop_0 in H.
  apply (Forall2_drop _ _ _ 1) in F. revert F H.
  generalize (drop 1 (store st)) (drop 1 h') (task_nodes (concat visibleRanges)).
  intros ts ts' ns F. revert ns.
  induction F as [|t t' ts ts' Ht _ IH]; intros [|node ns] Hns;
    try done; try by constructor.
  rewrite !fmap_cons in Hns. injection Hns as Hnode Hns.
  constructor; [|by apply IH].
  destruct Ht as (_ & Hpos & Hmark & _ & _ & Hdur). rewrite Hpos, Hmark.
  cbn in Hnode. unfold node_fields, task_fields in Hnode.
  destruct (list_depth (name node)); [|done]. cbn in Hnode.
  destruct (bulletNodeDuration _) as [od|]; [|done]. cbn in Hnode.
  simplify_eq. split; [done|]. split; [done|].
  intros d [= Hd]. by apply Hdur.
Qed.

Section document_order.
Variable doc : list N.

Local Abbreviation of_node := (λ (t : TimedTask) (node : SyntaxNodeRef),
  position t = node_to node
  ∧ markPos t = bulletNodeMarkPos (node_from node)
                  (sliceDoc doc (node_from node) (node_to node))
  ∧ ∀ d, bulletNodeDuration (sliceDoc doc (node_from node) (node_to node))
         = Some (Some d) → duration t = Some d).

Lemma offsets_in_node t node :
of_node t node → (node_from node ≤ node_to node)%nat →
StronglySorted le (offsets t)
∧ Forall (λ o, (node_from node ≤ o ≤ node_to node)%nat) (offsets t).
Proof.
intros (Hpos & Hmark & _) Hle. unfold offsets. rewrite Hpos, Hmark.
destruct (bulletNodeMarkPos _ _) as [m|] eqn:Hm.
- apply bulletNodeMarkPos_inside in Hm as (H1 & _ & H2 & H3).
  pose proof (sliceDoc_length doc (node_from node) (node_to node)).
  split; repeat constructor; lia.
- split; repeat constructor; lia.
Qed.

Lemma emitted_in_node t node :
of_node t node → (node_from node ≤ node_to node)%nat →
Forall (λ rg, (node_from node ≤ range_from rg ≤ range_to rg)%nat
              ∧ (range_to rg ≤ node_to node)%nat) (emitted t).
Proof.
intros (Hpos & Hmark & _) Hle. unfold emitted. rewrite Hpos, Hmark.
apply Forall_app. split.
- destruct (bulletNodeMarkPos _ _) as [m|] eqn:Hm; [|constructor].
  apply bulletNodeMarkPos_inside in Hm as (H1 & _ & H2 & H3).
  pose proof (sliceDoc_length doc (node_from node) (node_to node)).
  repeat constructor; cbn; lia.
- destruct (duration t) as [d|]; [|constructor].
  destruct (is_nonzero d); repeat constructor; cbn; lia.
Qed.

Lemma offsets_of_nodes ts ns :
Forall2 of_node ts ns →
StronglySorted le (ns ≫= λ node, [node_from node; node_to node]) →
StronglySorted le (ts ≫= offsets)
∧ (∀ lo, Forall (le lo) (ns ≫= λ node, [node_from node; node_to node]) →
         Forall (le lo) (ts ≫= offsets))
∧ Forall (λ rg, Exists (λ node, (node_from node ≤ range_from rg ≤ range_to rg)%nat
                                ∧ (range_to rg ≤ node_to node)%nat) ns)
    (ts ≫= emitted).
Proof.
induction 1 as [|t node ts ns Ht _ IH]; intros Hs.
- split; [constructor|]. split; [intros; constructor|constructor].
- rewrite !bind_cons in *. cbn [app] in Hs.
  apply StronglySorted_inv in Hs as [Hs Hfrom].
  apply StronglySorted_inv in Hs as [Hs Hto].
  apply Forall_cons in Hfrom as [Hle _].
  destruct (IH Hs) as (IH1 & IH2 & IH3).
  destruct (offsets_in_node _ _ Ht Hle) as [Hsorted Hin].
  split; [|split].
  + apply StronglySorted_app_2; [|done|done].
    intros a b Ha Hb. rewrite Forall_forall in Hin.
    specialize (IH2 _ Hto). rewrite Forall_forall in IH2.
    specialize (Hin a Ha). specialize (IH2 b Hb). lia.
  + intros lo Hlo. apply Forall_cons in Hlo as [Hlo1 Hlo].
    apply Forall_cons in Hlo as [_ Hlo]. apply Forall_app. split; [|by apply IH2].
    eapply Forall_impl; [done|]. cbn. intros o Ho. lia.
  + apply Forall_app. split.
    * eapply Forall_impl; [by apply emitted_in_node|]. cbn. intros rg Hrg.
      by apply Exists_cons_hd.
    * eapply Forall_impl; [done|]. cbn. intros rg Hrg. by apply Exists_cons_tl.
Qed.
End document_order.

(** [buildDecorations] returns only if the tree builder does, and the
    tree builder returns exactly when no node of the stream has level 0
    (a name that starts with [list-0]); with such a node it throws.  When
    the nodes of the tasks come in the order of the document, the range
    set builder takes every instruction, and [buildDecorations] returns
    exactly when no node has level 0.  The levels are the digits 0 to 9.
    Out of the order of the document the range set builder may throw: it
    does for two bullets of level 1 whose nodes come the second first, at
    the highlight of the bullet that comes last, which starts before the
    label of the other. *)
Theorem buildDecorations_returns_iff (doc : list N)
    (visibleRanges : list (list SyntaxNodeRef)) :
  (is_Some (buildTasks doc visibleRanges)
   ↔ forallb (Z.leb 1) (task_levels (concat visibleRanges)) = true)
  ∧ (is_Some (buildDecorations doc visibleRanges)
     → is_Some (buildTasks doc visibleRanges))
  ∧ (nondecreasing (node_offsets (concat visibleRanges)) = true →
     (is_Some (buildDecorations doc visibleRanges)
      ↔ forallb (Z.leb 1) (task_levels (concat visibleRanges)) = true))
  ∧ Forall (λ l, 0 ≤ l ≤ 9) (task_levels (concat visibleRanges))
  ∧ buildDecorations
      (str "- 09:00-10:00 a" ++ [10%N] ++ str "- 10:00-10:30 b")
      [[ {| name := str "list-1"; node_from := 18; node_to := 31 |};
         {| name := str "list-1"; node_from := 2; node_to := 15 |} ]]%nat
    = None.
Proof.
  assert (Forall (λ l, 0 ≤ l ≤ 9) (task_levels (concat visibleRanges))) as Hrange.
  { apply Forall_forall. intros l (node & _ & Hl)%list_elem_of_omap.
    by eapply list_depth_range. }
  assert (is_Some (buildDecorations doc visibleRanges)
          → is_Some (buildTasks doc visibleRanges)) as Himp.
  { unfold buildDecorations. destruct (buildTasks doc visibleRanges); [done|].
    by intros [? ?]. }
  assert (is_Some (buildTasks doc visibleRanges)
          ↔ forallb (Z.leb 1) (task_levels (concat visibleRanges)) = true)
    as Hiff.
  { rewrite buildTasks_concat. split.
    - intros [st Hst].
      apply forallb_forall. intros l Hin%list_elem_of_In. apply Z.leb_le.
      destruct (decide (1 ≤ l)) as [|Hl0]; [done|]. exfalso.
      rewrite Forall_forall in Hrange. specialize (Hrange l Hin).
      assert (l = 0) as -> by lia.
      apply list_elem_of_omap in Hin as (node & Hnode & Hl).
      apply list_elem_of_split in Hnode as (l1 & l2 & Hsplit).
      rewrite Hsplit in Hst.
      rewrite (for_of_fails built (enter doc) node) in Hst; [done| | |].
      + intros s a s' Hs Ha. by eapply enter_built.
      + intros s Hs. by apply enter_level_0.
      + apply built_initial.
    - intros Hlev.
      destruct (for_of_total built
                  (λ node, ∀ l, list_depth (name node) = Some l → 1 ≤ l)
                  (enter doc) (enter_total doc) (concat visibleRanges) initial
                  built_initial) as (st & Hst & _); [|by rewrite Hst].
      apply Forall_forall. intros node Hin l Hl.
      rewrite forallb_forall in Hlev. apply Z.leb_le, Hlev.
      apply list_elem_of_In, list_elem_of_omap. eauto. }
  split; [done|]. split; [done|]. split; [|split; [done|by vm_compute]].
  intros Hs%nondecreasing_Sorted. split; [intros H; by apply Hiff, Himp|].
  intros [st Hst]%Hiff.
  destruct (buildDecorations_emitted _ _ _ Hst)
    as (root & h' & total & Hroot & Hagg & ->).
  pose proof (setTasksDuration_fills _ _ _ _ _ Hagg) as F.
  destruct (offsets_of_nodes doc _ _ (built_tasks_of_nodes _ _ _ _ Hst F) Hs)
    as (Hsorted & _ & _).
  destruct (preorder_precedes _ Hsorted) as [Hp _].
  destruct (add_ranges_precedes (drop 1 h' ≫= emitted) RangeSetBuilder_new)
    as (b & -> & _); [|done|done|done].
  apply Forall_forall. intros r (t & Hr & _)%list_elem_of_bind.
  pose proof (emitted_value t) as Hv. rewrite Forall_forall in Hv. by apply Hv.
Qed.

(** Two bullets of level 1 whose nodes come in the wrong order: the tree
    builder returns, and the range set builder throws at the highlight of
    the second, which starts before the label of the first. *)
Example buildDecorations_out_of_order :
  let doc := str "- 09:00-10:00 a" ++ [10%N] ++ str "- 10:00-10:30 b" in
  let nodes :=
    [[ {| name := str "list-1"; node_from := 18; node_to := 31 |};
       {| name := str "list-1"; node_from := 2; node_to := 15 |} ]]%nat in
  is_Some (buildTasks doc nodes)
  ∧ forallb (Z.leb 1) (task_levels (concat nodes)) = true
  ∧ buildDecorations doc nodes = None.
Proof.
  intros doc nodes. split; [by eexists|]. split; by vm_compute.
Qed.

(** When the nodes of the tasks come in the order of the document (each
    starts before it ends, and ends before the next one starts), the
    instructions that [buildDecorations] gives start at non-decreasing
    offsets, as the [RangeSetBuilder] wants them, and each lies within the
    node of a task. *)
Theorem buildDecorations_sorted (doc : list N)
    (visibleRanges : list (list SyntaxNodeRef)) (out : list Range) :
  nondecreasing (node_offsets (concat visibleRanges)) = true →
  buildDecorations doc visibleRanges = Some out →
  nondecreasing (range_from <$> out) = true
  ∧ Forall (λ rg, Exists (λ node, (node_from node ≤ range_from rg ≤ range_to rg)%nat
                                  ∧ (range_to rg ≤ node_to node)%nat)
                    (task_nodes (concat visibleRanges))) out.
Proof.
  intros Hs%nondecreasing_Sorted Hout.
  destruct (buildDecorations_Some _ _ _ Hout)
    as (st & root & h' & total & Hst & Hroot & Hagg & ->).
  pose proof (setTasksDuration_fills _ _ _ _ _ Hagg) as F.
  destruct (offsets_of_nodes doc _ _ (built_tasks_of_nodes _ _ _ _ Hst F) Hs)
    as (Hsorted & _ & Hin).
  split; [|done]. apply StronglySorted_nondecreasing.
  eapply StronglySorted_sublist; [apply preorder_offsets|done].
Qed.

Lemma buildDecorations_sorted_witness :
  nondecreasing
    (range_from <$> default [] (buildDecorations scenario_doc scenario_nodes))
  = true
  ∧ Forall (λ rg, Exists (λ node, (node_from node ≤ range_from rg ≤ range_to rg)%nat
                                  ∧ (range_to rg ≤ node_to node)%nat)
                    (task_nodes (concat scenario_nodes)))
      (default [] (buildDecorations scenario_doc scenario_nodes)).
Proof.
  apply (buildDecorations_sorted scenario_doc scenario_nodes);
    vm_compute; reflexivity.
Defined.

(** ** The instructions, node by node *)






(** ** What of the view the instructions depend on *)

Lemma enter_skip doc st node :
  list_depth (name node) = None → enter doc st node = Some st.
Proof. intros H. unfold enter. by rewrite nodeTaskLevel_spec, H. Qed.

Lemma for_of_enter_task_nodes doc nodes st :
  for_of (enter doc) st nodes = for_of (enter doc) st (task_nodes nodes).
Proof.
  revert st. unfold task_nodes.
  induction nodes as [|node nodes IH]; intros st; [done|].
  destruct (list_depth (name node)) as [l|] eqn:Hl.
  - rewrite filter_cons_True by (by rewrite Hl). cbn [for_of].
    destruct (enter doc st node); [|done]. cbn. apply IH.
  - rewrite filter_cons_False by (rewrite Hl; by intros [? ?]). cbn [for_of].
    rewrite enter_skip by done. cbn. apply IH.
Qed.

Lemma for_of_enter_text doc doc' nodes st :
  Forall (λ node, node_text doc node = node_text doc' node) nodes →
  for_of (enter doc) st nodes = for_of (enter doc') st nodes.
Proof.
  intros H. revert st. induction H as [|node nodes Hnode _ IH]; intros st; [done|].
  cbn [for_of]. unfold node_text in Hnode.
  assert (enter doc st node = enter doc' st node) as ->
    by (unfold enter; by rewrite Hnode).
  destruct (enter doc' st node); [|done]. cbn. apply IH.
Qed.

(** [buildDecorations] depends on the view through the nodes of the
    tasks, in their order, and through the text that these nodes cover,
    and on nothing else: the nodes of other names, the way the nodes are
    spread over the visible ranges and the text outside the nodes make no
    difference. *)
Theorem buildDecorations_depends_on_task_nodes (doc doc' : list N)
    (visibleRanges visibleRanges' : list (list SyntaxNodeRef)) :
  task_nodes (concat visibleRanges) = task_nodes (concat visibleRanges') →
  Forall (λ node, node_text doc node = node_text doc' node)
    (task_nodes (concat visibleRanges)) →
  buildDecorations doc visibleRanges = buildDecorations doc' visibleRanges'.
Proof.
  intros Hnodes Htext.
  assert (buildTasks doc visibleRanges = buildTasks doc' visibleRanges') as Hb.
  { rewrite !buildTasks_concat, for_of_enter_task_nodes.
    rewrite (for_of_enter_task_nodes doc'), <- Hnodes.
    by apply for_of_enter_text. }
  unfold buildDecorations. by rewrite Hb.
Qed.

Lemma buildDecorations_depends_on_task_nodes_witness :
  buildDecorations scenario_doc scenario_nodes
  = buildDecorations
      (str "09:00-10:00 A" ++ str " | " ++ drop 16 scenario_doc ++ str " 11:00")
      [[ {| name := str "list-1"; node_from := 0; node_to := 13 |};
         {| name := str "comment"; node_from := 13; node_to := 16 |} ];
       [];
       [ {| name := str "list-2"; node_from := 16; node_to := 29 |};
         {| name := str "hmd-list-indent"; node_from := 30; node_to := 32 |};
         {| name := str "list-2"; node_from := 32; node_to := 45 |} ]]%nat.
Proof.
  apply buildDecorations_depends_on_task_nodes; [reflexivity|].
  vm_compute. repeat constructor.
Defined.

(** ** The highlight of a bullet that has a duration *)

Lemma clock_time_head_digit c s :
  clock_time (take 5 (c :: s)) = true → is_digit c = true.
Proof.
  intros (a & b & d & e & H & Ha & _)%clock_time_inv.
  destruct s as [|? [|? [|? [|? ?]]]]; cbn in H; by simplify_eq.
Qed.

Lemma is_space_not_clock_time c s :
  is_space c = true → clock_time (take 5 (c :: s)) = false.
Proof.
  intros Hc. destruct (clock_time _) eqn:E; [|done].
  apply clock_time_head_digit, is_digit_range in E.
  unfold is_space in Hc.
  rewrite !orb_true_iff, !andb_true_iff, !N.leb_le, !N.eqb_eq in Hc. lia.
Qed.

Lemma is_dash_not_clock_time c s :
  is_dash c = true → clock_time (take 5 (c :: s)) = false.
Proof.
  intros Hc. destruct (clock_time _) eqn:E; [|done].
  apply clock_time_head_digit, is_digit_range in E.
  unfold is_dash in Hc. rewrite !orb_true_iff, !N.eqb_eq in Hc. lia.
Qed.

Lemma find_token_at s j :
  (∀ i, (i < j)%nat → clock_time (take 5 (drop i s)) = false) →
  clock_time (take 5 (drop j s)) = true →
  find_token s = Some (j, take 5 (drop j s)).
Proof.
  revert s. induction j as [|j IH]; intros s Hno Hj.
  - rewrite drop_0 in *. destruct s; cbn [find_token]; by rewrite Hj.
  - destruct s as [|a s]; [done|]. cbn [find_token].
    pose proof (Hno O ltac:(lia)) as H0. rewrite drop_0 in H0. rewrite H0.
    cbn [drop] in *.
    rewrite IH; [done| |done]. intros i Hi. apply (Hno (S i)). lia.
Qed.

Lemma skip_spaces_no_clock_time s i :
  (i < length s - length (skip_spaces s))%nat →
  clock_time (take 5 (drop i s)) = false.
Proof.
  revert i. induction s as [|a s IH]; intros i; [cbn; lia|].
  cbn [skip_spaces]. destruct (is_space a) eqn:Ha; [|cbn [length]; lia].
  pose proof (skip_spaces_length s). cbn [length]. intros Hi.
  destruct i as [|i]; [by apply is_space_not_clock_time|].
  cbn [drop]. apply IH. lia.
Qed.

(** The clock time of a dash group is the first clock time of the text. *)
Lemma find_token_dash s w :
  dash_and_clock_time s = Some w →
  (5 < length w)%nat
  ∧ find_token s = Some ((length w - 5)%nat, take 5 (drop (length w - 5) s)).
Proof.
  unfold dash_and_clock_time.
  destruct (skip_spaces s) as [|d s'] eqn:Hs; [done|].
  destruct (is_dash d && clock_time (take 5 (skip_spaces s'))) eqn:E; [|done].
  apply andb_true_iff in E as [Hd E]. intros [= <-].
  pose proof (clock_time_take_length _ E) as H5.
  pose proof (skip_spaces_length s) as H1. rewrite Hs in H1. cbn [length] in H1.
  pose proof (skip_spaces_length s') as H2.
  pose proof (skip_spaces_drop s) as D1. rewrite Hs in D1. cbn [length] in D1.
  pose proof (skip_spaces_drop s') as D2.
  rewrite length_take.
  replace ((length s - length (skip_spaces s') + 5) `min` length s - 5)%nat
    with (length s - length (skip_spaces s'))%nat by lia.
  assert (∀ i, drop (length s - S (length s') + S i) s = drop i s') as Hdrop.
  { intros i. by rewrite <- drop_drop, <- D1. }
  split; [lia|]. apply find_token_at.
  - intros i Hi.
    destruct (decide (i < length s - S (length s'))%nat) as [Hlt|Hge].
    + apply skip_spaces_no_clock_time. rewrite Hs. cbn [length]. lia.
    + destruct (decide (i = length s - S (length s'))%nat) as [->|Hne].
      * rewrite <- D1. by apply is_dash_not_clock_time.
      * replace i with (length s - S (length s') + S (i - (length s - length s')))%nat
          by lia.
        rewrite Hdrop. apply skip_spaces_no_clock_time. lia.
  - replace (length s - length (skip_spaces s'))%nat
      with (length s - S (length s') + S (length s' - length (skip_spaces s')))%nat
      by lia.
    by rewrite Hdrop, <- D2.
Qed.

Lemma bulletNodeDuration_any s :
  bulletNodeDuration s
  = match two_clock_times (first_line s) with
    | Some (time1, time2) => Some <$> diffDuration time1 time2
    | None => Some None
    end.
Proof.
  unfold bulletNodeDuration. rewrite exec_timeRangeRx_any.
  by destruct (two_clock_times (first_line s)) as [[t1 t2]|].
Qed.

(** A line that gives a duration gives a highlight, and the two agree:
    the highlight starts with the first clock time of the duration, and
    when it goes on after that clock time, it ends with the second clock
    time of the duration.  (Otherwise the second clock time of the
    duration comes later and is not highlighted.) *)
Theorem bulletNodeMarkPos_of_duration (node_from : nat) (s : list N)
    (d : TimeDuration) :
  is_line s = true →
  bulletNodeDuration s = Some (Some d) →
  ∃ m time1 time2,
    bulletNodeMarkPos node_from s = Some m
    ∧ two_clock_times s = Some (time1, time2)
    ∧ diffDuration time1 time2 = Some d
    ∧ (node_from ≤ from m)%nat
    ∧ take 5 (drop (from m - node_from) s) = time1
    ∧ ((to m = from m + 5)%nat
       ∨ ((from m + 10 < to m)%nat
          ∧ take 5 (drop (to m - node_from - 5) s) = time2)).
Proof.
  intros Hs Hd. rewrite bulletNodeDuration_any, (first_line_line _ Hs) in Hd.
  rewrite (bulletNodeMarkPos_line _ _ Hs).
  destruct (two_clock_times s) as [[t1 t2]|] eqn:Htwo; [|done].
  unfold two_clock_times in Htwo.
  destruct (find_token s) as [[k t1']|] eqn:H1; [|done].
  cbn [mbind option_bind] in Htwo |- *.
  destruct (find_token (drop (k + 5) s)) as [[k2 t2']|] eqn:H2; [|done].
  cbn in Htwo. injection Htwo as -> ->.
  destruct (diffDuration t1 t2) as [d'|] eqn:Hdiff; [|done].
  cbn in Hd. injection Hd as ->.
  apply find_token_Some in H1 as (Ht1 & Hc1 & Hk).
  pose proof (clock_time_length _ Hc1) as Hlen1.
  eexists _, t1, t2. split; [done|]. split; [done|]. split; [done|].
  cbn [from to]. split; [lia|].
  split; [by replace (node_from + k - node_from)%nat with k by lia|].
  destruct (dash_and_clock_time (drop (k + 5) s)) as [w|] eqn:Hw.
  - right. apply find_token_dash in Hw as [Hlw Hw]. rewrite Hw in H2.
    injection H2 as <- <-. cbn [length_or_0]. split; [lia|].
    rewrite drop_drop. f_equal. f_equal. lia.
  - left. cbn [length_or_0]. lia.
Qed.

Lemma bulletNodeMarkPos_of_duration_witness :
  ∃ m time1 time2,
    bulletNodeMarkPos 2 (str "09:00 - 10:30 Meeting") = Some m
    ∧ two_clock_times (str "09:00 - 10:30 Meeting") = Some (time1, time2)
    ∧ diffDuration time1 time2 = Some {| hours := 1; minutes := 30 |}
    ∧ (2 ≤ from m)%nat
    ∧ take 5 (drop (from m - 2) (str "09:00 - 10:30 Meeting")) = time1
    ∧ ((to m = from m + 5)%nat
       ∨ ((from m + 10 < to m)%nat
          ∧ take 5 (drop (to m - 2 - 5) (str "09:00 - 10:30 Meeting")) = time2)).
Proof.
  apply (bulletNodeMarkPos_of_duration 2 (str "09:00 - 10:30 Meeting"));
    vm_compute; reflexivity.
Defined.

(** ** The text of a duration *)

Lemma str_inj s1 s2 : str s1 = str s2 → s1 = s2.
Proof.
  unfold str. intros H.
  rewrite <- (string_of_list_ascii_of_string s1),
    <- (string_of_list_ascii_of_string s2). f_equal.
  revert H. generalize (list_ascii_of_string s1) (list_ascii_of_string s2).
  induction l as [|a l IH]; intros [|b l']; try done.
  rewrite !fmap_cons. intros [= Ha Hl]. f_equal; [|by apply IH].
  by rewrite <- (ascii_N_embedding a), <- (ascii_N_embedding b), Ha.
Qed.

Lemma string_of_uint_digits d :
  Forall (λ c, is_digit c = true) (str (NilEmpty.string_of_uint d)).
Proof. induction d; by constructor. Qed.

(** The text of a non-negative number: decimal digits, at least one, and
    different for different numbers. *)
Lemma Number_toString_digits z :
  0 ≤ z →
  Forall (λ c, is_digit c = true) (Number_toString z) ∧ Number_toString z ≠ [].
Proof.
  intros Hz. unfold Number_toString. destruct z as [|p|p]; [|  |lia].
  - split; [by repeat constructor|done].
  - cbn [Z.to_int NilZero.string_of_int]. unfold NilZero.string_of_uint.
    pose proof (DecimalPos.Unsigned.to_uint_nonnil p) as Hnil.
    pose proof (string_of_uint_digits (Pos.to_uint p)) as Hd.
    destruct (Pos.to_uint p); done.
Qed.

Lemma Number_toString_inj z1 z2 :
  Number_toString z1 = Number_toString z2 → z1 = z2.
Proof.
  unfold Number_toString. intros H%str_inj.
  rewrite <- (DecimalZ.of_to z1), <- (DecimalZ.of_to z2). f_equal.
  assert (∀ z, NilZero.int_of_string (NilZero.string_of_int (Z.to_int z))
               = Some (Z.to_int z)) as Hisi.
  { intros z. apply NilZero.isi; destruct z as [|p|p]; cbn; try done.
    - intros [= Hp]. by apply (DecimalPos.Unsigned.to_uint_nonnil p).
    - intros [= Hp]. by apply (DecimalPos.Unsigned.to_uint_nonnil p). }
  pose proof (Hisi z1) as H1. rewrite H, Hisi in H1. by injection H1.
Qed.

(** A run of digits before something that is not a digit is determined by
    the text. *)
Lemma digits_prefix a b c c' x y :
  Forall (λ c, is_digit c = true) a → Forall (λ c, is_digit c = true) b →
  is_digit c = false → is_digit c' = false →
  a ++ c :: x = b ++ c' :: y → a = b ∧ c :: x = c' :: y.
Proof.
  intros Ha. revert b. induction Ha as [|d a Hd _ IH]; intros b Hb Hc Hc'.
  - destruct Hb as [|e b He _]; [done|]. cbn. intros [= -> _]. congruence.
  - destruct Hb as [|e b He Hb]; cbn.
    + intros [= -> _]. congruence.
    + intros [= -> H]. destruct (IH b Hb Hc Hc' H) as [-> ?]. done.
Qed.

(** Different durations have different texts: [formatDuration] is
    injective on the durations with non-negative fields. *)
Theorem formatDuration_injective (d1 d2 : TimeDuration) :
  0 ≤ hours d1 → 0 ≤ minutes d1 → 0 ≤ hours d2 → 0 ≤ minutes d2 →
  formatDuration d1 = formatDuration d2 ↔ d1 = d2.
Proof.
  intros Hh1 Hm1 Hh2 Hm2. split; [|by intros ->].
  destruct d1 as [h1 m1], d2 as [h2 m2]. cbn [hours minutes] in *.
  unfold formatDuration. cbn [hours minutes].
  destruct (Number_toString_digits m1 Hm1) as [Dm1 _].
  destruct (Number_toString_digits m2 Hm2) as [Dm2 _].
  destruct (Number_toString_digits h1 Hh1) as [Dh1 _].
  destruct (Number_toString_digits h2 Hh2) as [Dh2 _].
  change (str " mins") with ([32; 109; 105; 110; 115]%N).
  change (str " h ") with ([32; 104; 32]%N).
  destruct (Z.ltb_spec 0 h1) as [Hlt1|Hle1], (Z.ltb_spec 0 h2) as [Hlt2|Hle2];
    cbn [app]; intros E.
  - apply digits_prefix in E as [Hh%Number_toString_inj E]; try done.
    injection E as E.
    apply digits_prefix in E as [Hm%Number_toString_inj _]; try done.
    by subst.
  - apply digits_prefix in E as [_ E]; done.
  - apply digits_prefix in E as [_ E]; done.
  - apply digits_prefix in E as [Hm%Number_toString_inj _]; try done.
    f_equal; [lia|done].
Qed.

Lemma formatDuration_injective_witness :
  formatDuration {| hours := 1; minutes := 5 |}
  = formatDuration {| hours := 0; minutes := 65 |}
  ↔ {| hours := 1; minutes := 5 |} = {| hours := 0; minutes := 65 |}.
Proof.
  apply (formatDuration_injective {| hours := 1; minutes := 5 |}
           {| hours := 0; minutes := 65 |}); simpl; lia.
Defined.

(** ** The view plugin *)

Lemma update_invariant view this u this' :
  buildDecorations (view_doc view) (view_visibleRanges view)
  = Some (decorations this) →
  (docChanged u || viewportChanged u = false → update_view u = view) →
  update this u = Some this' →
  buildDecorations (view_doc (update_view u)) (view_visibleRanges (update_view u))
  = Some (decorations this').
Proof.
  intros Hthis Hu. unfold update.
  destruct (docChanged u || viewportChanged u).
  - destruct (buildDecorations (view_doc (update_view u)) _) as [d|]; [|done].
    by intros [= <-].
  - intros [= <-]. by rewrite Hu.
Qed.

(** The decorations of the plugin are those of the current view, as long
    as every update that changes the document, the visible ranges or the
    nodes says so in [docChanged] or [viewportChanged]: after the
    constructor and any number of such updates, [decorations] is what
    [buildDecorations] gives for the view of the last update.  And the
    plugin is as the constructor left it unless an update set one of the
    two flags. *)
Theorem update_decorations (view : EditorView) (us : list ViewUpdate)
    (this this' : TaskTimeDisplayPlugin) :
  TaskTimeDisplayPlugin_new view = Some this →
  announced view us →
  for_of update this us = Some this' →
  buildDecorations (view_doc (view_after view us))
    (view_visibleRanges (view_after view us))
  = Some (decorations this')
  ∧ (this' = this
     ∨ Exists (λ u, docChanged u || viewportChanged u = true) us).
Proof.
  intros Hnew Han Hus. split.
  - assert (buildDecorations (view_doc view) (view_visibleRanges view)
            = Some (decorations this)) as Hthis.
    { unfold TaskTimeDisplayPlugin_new in Hnew.
      destruct (buildDecorations _ _) as [d|]; [|done]. by injection Hnew as <-. }
    clear Hnew. revert view this Hthis Han Hus.
    induction us as [|u us IH]; intros view this Hthis; cbn [for_of].
    + by intros _ [= <-].
    + intros [Hu Hrest] H. apply bind_Some in H as (this1 & H1 & H).
      unfold view_after. cbn [foldl]. eapply IH; [|done|done].
      by eapply update_invariant.
  - clear Hnew Han. revert this Hus.
    induction us as [|u us IH]; intros this; cbn [for_of].
    + intros [= <-]. by left.
    + intros H. apply bind_Some in H as (this1 & H1 & H).
      destruct (docChanged u || viewportChanged u) eqn:Hu;
        [right; by apply Exists_cons_hd|].
      unfold update in H1. rewrite Hu in H1. injection H1 as <-.
      destruct (IH _ H) as [->|Hex]; [by left|right; by apply Exists_cons_tl].
Qed.

Lemma update_decorations_witness :
  buildDecorations
    (view_doc
       (view_after
          {| view_doc := scenario_doc; view_visibleRanges := scenario_nodes |}
          [ {| docChanged := false; viewportChanged := false;
               update_view := {| view_doc := scenario_doc;
                                 view_visibleRanges := scenario_nodes |} |};
            {| docChanged := true; viewportChanged := false;
               update_view :=
                 {| view_doc := str "09:00-10:00 A";
                    view_visibleRanges := take 1 <$> scenario_nodes |} |} ]))
    (view_visibleRanges
       (view_after
          {| view_doc := scenario_doc; view_visibleRanges := scenario_nodes |}
          [ {| docChanged := false; viewportChanged := false;
               update_view := {| view_doc := scenario_doc;
                                 view_visibleRanges := scenario_nodes |} |};
            {| docChanged := true; viewportChanged := false;
               update_view :=
                 {| view_doc := str "09:00-10:00 A";
                    view_visibleRanges := take 1 <$> scenario_nodes |} |} ]))
  = Some (decorations
            {| decorations :=
                 default [] (buildDecorations (str "09:00-10:00 A")
                               (take 1 <$> scenario_nodes)) |})
  ∧ ({| decorations :=
          default [] (buildDecorations (str "09:00-10:00 A")
                        (take 1 <$> scenario_nodes)) |}
     = {| decorations :=
            default [] (buildDecorations scenario_doc scenario_nodes) |}
     ∨ Exists (λ u, docChanged u || viewportChanged u = true)
         [ {| docChanged := false; viewportChanged := false;
              update_view := {| view_doc := scenario_doc;
                                view_visibleRanges := scenario_nodes |} |};
           {| docChanged := true; viewportChanged := false;
              update_view :=
                {| view_doc := str "09:00-10:00 A";
                   view_visibleRanges := take 1 <$> scenario_nodes |} |} ]).
Proof.
  apply (update_decorations
           {| view_doc := scenario_doc; view_visibleRanges := scenario_nodes |}
           _ {| decorations :=
                  default [] (buildDecorations scenario_doc scenario_nodes) |}).
  - vm_compute. reflexivity.
  - simpl. split; [done|]. split; [done|done].
  - vm_compute. reflexivity.
Defined.
